(** * WFC suite: transform algebra, rule propagation and the solver engine

    A shallow embedding of the computational core of the two tools
    (atlas_editor and wfc_viewer) together with the properties of the
    specification that concern it.

    Layout: the definitions come first, one Rocq module per Python class
    or source file, then the theorems. *)

From Stdlib Require Import ZArith QArith Bool List Lia.
From stdpp Require Import gmap strings list fin_maps fin_sets pretty.

Local Open Scope string_scope.
Local Open Scope list_scope.
Local Open Scope Z_scope.

(* ===================================================================== *)
(** ** Exceptions *)
(* ===================================================================== *)

(** The Python exceptions the modelled code can raise. *)
Inductive exn : Type :=
| ValueError
| KeyError
| AttributeError
| TypeError
| StopIteration
| IndexError.

(** A computation that returns a value or raises. *)
Inductive result (A : Type) : Type :=
| Ok (a : A)
| Raise (e : exn).
Arguments Ok {A} a.
Arguments Raise {A} e.

Definition rbind {A B : Type} (m : result A) (k : A -> result B) : result B :=
  match m with
  | Ok a => k a
  | Raise e => Raise e
  end.

Notation "x <-! m ;; k" := (rbind m (fun x => k))
  (at level 100, m at next level, right associativity).

#[global] Instance exn_eq_dec : EqDecision exn.
Proof. solve_decision. Defined.

#[global] Instance result_eq_dec {A : Type} `{EqDecision A} : EqDecision (result A).
Proof. solve_decision. Defined.

(** [sep.join(parts)] of Python. *)
Fixpoint join (sep : string) (parts : list string) : string :=
  match parts with
  | [] => ""
  | [p] => p
  | p :: rest => p +:+ sep +:+ join sep rest
  end.

(* ===================================================================== *)
(** ** atlas_editor/src/core/transform.py *)
(* ===================================================================== *)

Inductive Side : Type := top | right | bottom | left.

#[global] Instance Side_eq_dec : EqDecision Side.
Proof. solve_decision. Defined.

Definition SIDES : list Side := [top; right; bottom; left].

Inductive Axis : Type := axis_x | axis_y.

(** [_ROTATION_MAP]: the dictionary keyed by 0, 90, 180 and 270. *)
Definition _ROTATION_MAP (degrees : Z) : option (Side -> Side) :=
  if degrees =? 0 then
    Some (fun s => match s with top => top | right => right | bottom => bottom | left => left end)
  else if degrees =? 90 then
    Some (fun s => match s with top => right | right => bottom | bottom => left | left => top end)
  else if degrees =? 180 then
    Some (fun s => match s with top => bottom | right => left | bottom => top | left => right end)
  else if degrees =? 270 then
    Some (fun s => match s with top => left | right => top | bottom => right | left => bottom end)
  else None.

Definition rotate_side (side : Side) (degrees : Z) : result Side :=
  let degrees := degrees mod 360 in
  match _ROTATION_MAP degrees with
  | None => Raise ValueError
  | Some m => Ok (m side)
  end.

Definition _FLIP_X_MAP (s : Side) : Side :=
  match s with top => top | right => left | bottom => bottom | left => right end.

Definition _FLIP_Y_MAP (s : Side) : Side :=
  match s with top => bottom | right => right | bottom => top | left => left end.

Definition flip_side (side : Side) (axis : Axis) : Side :=
  match axis with
  | axis_x => _FLIP_X_MAP side
  | axis_y => _FLIP_Y_MAP side
  end.

Definition get_opposite_side (side : Side) : Side :=
  match side with top => bottom | bottom => top | left => right | right => left end.

Module Transform.

Record t : Type := Build {
  rotation : Z;
  flip_x : bool;
  flip_y : bool
}.

#[global] Instance eq_dec : EqDecision t.
Proof. solve_decision. Defined.

Definition is_identity (self : t) : bool :=
  (rotation self =? 0) && negb (flip_x self) && negb (flip_y self).

Definition apply_to_side (self : t) (side : Side) : result Side :=
  let result0 := side in
  result1 <-! (if negb (rotation self =? 0)
               then rotate_side result0 (rotation self)
               else Ok result0) ;;
  let result2 := if flip_x self then flip_side result1 axis_x else result1 in
  let result3 := if flip_y self then flip_side result2 axis_y else result2 in
  Ok result3.

(** The [for original_side in SIDES] loop of [inverse_side]. *)
Fixpoint inverse_side_loop (self : t) (side : Side) (sides : list Side) : result Side :=
  match sides with
  | [] => Raise ValueError
  | original_side :: rest =>
      s <-! apply_to_side self original_side ;;
      if decide (s = side) then Ok original_side
      else inverse_side_loop self side rest
  end.

Definition inverse_side (self : t) (side : Side) : result Side :=
  inverse_side_loop self side SIDES.

Definition normalize (self : t) : t :=
  let rotation0 := rotation self in
  let flip_x0 := flip_x self in
  let flip_y0 := flip_y self in
  if flip_y0 then
    if flip_x0 then Build ((rotation0 + 180) mod 360) false false
    else Build ((rotation0 + 180) mod 360) true false
  else Build rotation0 flip_x0 flip_y0.

Definition inverse (self : t) : t :=
  let inv_rotation := (360 - rotation self) mod 360 in
  let '(new_flip_x, new_flip_y) :=
    if (inv_rotation =? 90) || (inv_rotation =? 270)
    then (flip_y self, flip_x self)
    else (flip_x self, flip_y self) in
  normalize (Build inv_rotation new_flip_x new_flip_y).

Definition compose (self other : t) : t :=
  let '(fx1, fy1) :=
    if (rotation other =? 90) || (rotation other =? 270)
    then (flip_y self, flip_x self)
    else (flip_x self, flip_y self) in
  let new_rotation := (rotation self + rotation other) mod 360 in
  let new_flip_x := xorb fx1 (flip_x other) in
  let new_flip_y := xorb fy1 (flip_y other) in
  normalize (Build new_rotation new_flip_x new_flip_y).

(** The list [parts] that [suffix], [Tile.transform_suffix] and
    [Tile.create_id] each build from the three fields; [f'r{rotation}']
    prints the rotation in decimal. *)
Definition parts (rotation0 : Z) (flip_x0 flip_y0 : bool) : list string :=
  (if negb (rotation0 =? 0) then ["r" +:+ pretty rotation0] else []) ++
  (if flip_x0 then ["fx"] else []) ++
  (if flip_y0 then ["fy"] else []).

Definition suffix (self : t) : string :=
  let parts0 := parts (rotation self) (flip_x self) (flip_y self) in
  match parts0 with
  | [] => ""
  | _ => join "_" parts0
  end.

(** [Transform()] with the default field values. *)
Definition identity : t := Build 0 false false.

End Transform.

(** [get_all_transforms(include_identity)]: the three nested loops. *)
Definition get_all_transforms (include_identity : bool) : list Transform.t :=
  filter (fun t => include_identity = true \/ Transform.is_identity t = false)
    (rotation ← [0; 90; 180; 270];
     flip_x ← [false; true];
     flip_y ← [false; true];
     [Transform.Build rotation flip_x flip_y]).

(* ===================================================================== *)
(** ** Mutable objects and exceptions *)
(* ===================================================================== *)

(** A method call on a mutable object of type [S]: it returns a value and
    leaves the object in a new state, or raises and leaves the object in
    the state it had reached when the exception was raised. *)
Inductive outcome (S A : Type) : Type :=
| Returns (s : S) (a : A)
| Raises (s : S) (e : exn).
Arguments Returns {S A} s a.
Arguments Raises {S A} s e.

Definition final_state {S A : Type} (o : outcome S A) : S :=
  match o with
  | Returns s _ => s
  | Raises s _ => s
  end.

(* ===================================================================== *)
(** ** atlas_editor/src/models *)
(* ===================================================================== *)

Module BaseTile.
Record t : Type := Build {
  id : string;
  source_path : string;
  width : Z;
  height : Z
}.
End BaseTile.

Module Tile.
Record t : Type := Build {
  id : string;
  base_tile_id : string;
  rotation : Z;
  flip_x : bool;
  flip_y : bool;
  enabled : bool
}.

Definition is_original (self : t) : bool :=
  (rotation self =? 0) && negb (flip_x self) && negb (flip_y self).

(** [Transform(tile.rotation, tile.flip_x, tile.flip_y)], as built at
    three places of propagation.py. *)
Definition transform (self : t) : Transform.t :=
  Transform.Build (rotation self) (flip_x self) (flip_y self).
Definition transform_suffix (self : t) : string :=
  let parts0 := Transform.parts (rotation self) (flip_x self) (flip_y self) in
  match parts0 with
  | [] => ""
  | _ => "_" +:+ join "_" parts0
  end.

Definition create_id (base_id : string) (rotation0 : Z) (flip_x0 flip_y0 : bool) : string :=
  join "_" (base_id :: Transform.parts rotation0 flip_x0 flip_y0).

(** [Tile.from_base(base_tile_id, rotation, flip_x, flip_y)]; [enabled]
    takes its default. *)
Definition from_base (base_tile_id0 : string) (rotation0 : Z) (flip_x0 flip_y0 : bool) : t :=
  let tile_id := create_id base_tile_id0 rotation0 flip_x0 flip_y0 in
  Build tile_id base_tile_id0 rotation0 flip_x0 flip_y0 true.

End Tile.

Module AdjacencyRule.
(** [weight] is a Python float that the modelled code only stores and
    copies; it is a rational here. *)
Record t : Type := Build {
  tile_id : string;
  side : Side;
  neighbor_id : string;
  weight : Q;
  auto_generated : bool
}.

Definition key (self : t) : string * Side * string :=
  (tile_id self, side self, neighbor_id self).

(** The test [rule.tile_id == tile_id and rule.side == side and
    rule.neighbor_id == neighbor_id] of [Atlas.add_rule]. *)
Definition has_key (tile_id0 : string) (side0 : Side) (neighbor_id0 : string) (self : t) : Prop :=
  tile_id self = tile_id0 /\ side self = side0 /\ neighbor_id self = neighbor_id0.

#[global] Instance has_key_dec tile_id0 side0 neighbor_id0 self :
  Decision (has_key tile_id0 side0 neighbor_id0 self).
Proof. unfold has_key. apply _. Defined.

(** [rule.weight = weight; rule.auto_generated = auto_generated]. *)
Definition update (self : t) (weight0 : Q) (auto_generated0 : bool) : t :=
  Build (tile_id self) (side self) (neighbor_id self) weight0 auto_generated0.

Definition is_manual (self : t) : Prop := auto_generated self = false.

#[global] Instance is_manual_dec self : Decision (is_manual self).
Proof. unfold is_manual. apply _. Defined.
End AdjacencyRule.

Module Settings.
Record t : Type := Build {
  auto_propagate_rotations : bool;
  auto_propagate_mirrors : bool
}.
End Settings.

Module Atlas.
(** The rule objects live in the list [rules]; a reference to a rule
    object is its position in that list.  [add_rule] updates an object
    in place or appends one, so it keeps every position. *)
Record t : Type := Build {
  version : string;
  settings : Settings.t;
  base_tiles : list BaseTile.t;
  tiles : list Tile.t;
  rules : list AdjacencyRule.t;
  file_path : option string;
  modified : bool
}.

Definition set_tiles (self : t) (tiles0 : list Tile.t) : t :=
  Build (version self) (settings self) (base_tiles self) tiles0 (rules self)
        (file_path self) (modified self).

Definition set_rules (self : t) (rules0 : list AdjacencyRule.t) : t :=
  Build (version self) (settings self) (base_tiles self) (tiles self) rules0
        (file_path self) (modified self).

Definition set_modified (self : t) (modified0 : bool) : t :=
  Build (version self) (settings self) (base_tiles self) (tiles self) (rules self)
        (file_path self) modified0.

Definition get_tile (self : t) (tile_id : string) : option Tile.t :=
  snd <$> list_find (fun t => Tile.id t = tile_id) (tiles self).

Definition get_tiles_for_base (self : t) (base_id : string) : list Tile.t :=
  filter (fun t => Tile.base_tile_id t = base_id) (tiles self).

Definition remove_tile (self : t) (tile_id : string) : outcome t unit :=
  let tile := get_tile self tile_id in
  if match tile with Some tl => Tile.is_original tl | None => false end
  then Raises self ValueError
  else
    let s1 := set_tiles self (filter (fun t => Tile.id t <> tile_id) (tiles self)) in
    let s2 := set_rules s1
      (filter (fun r => AdjacencyRule.tile_id r <> tile_id /\
                        AdjacencyRule.neighbor_id r <> tile_id) (rules s1)) in
    Returns (set_modified s2 true) tt.

(** Returns the new state and the reference to the rule that was updated
    or created. *)
Definition add_rule (self : t) (tile_id : string) (side : Side) (neighbor_id : string)
    (weight : Q) (auto_generated : bool) : t * nat :=
  match list_find (AdjacencyRule.has_key tile_id side neighbor_id) (rules self) with
  | Some (i, rule) =>
      let s1 := set_rules self (<[i := AdjacencyRule.update rule weight auto_generated]> (rules self)) in
      (set_modified s1 true, i)
  | None =>
      let rule := AdjacencyRule.Build tile_id side neighbor_id weight auto_generated in
      let s1 := set_rules self (rules self ++ [rule]) in
      (set_modified s1 true, length (rules self))
  end.

Definition get_rule (self : t) (tile_id : string) (side : Side) (neighbor_id : string)
    : option AdjacencyRule.t :=
  snd <$> list_find (AdjacencyRule.has_key tile_id side neighbor_id) (rules self).

Definition remove_auto_rules (self : t) : t * Z :=
  let original_count := Z.of_nat (length (rules self)) in
  let s1 := set_rules self (filter AdjacencyRule.is_manual (rules self)) in
  let removed := original_count - Z.of_nat (length (rules s1)) in
  (if 0 <? removed then set_modified s1 true else s1, removed).

Definition set_base_tiles (self : t) (base_tiles0 : list BaseTile.t) : t :=
  Build (version self) (settings self) base_tiles0 (tiles self) (rules self)
        (file_path self) (modified self).

Definition get_base_tile (self : t) (base_id : string) : option BaseTile.t :=
  snd <$> list_find (fun bt => BaseTile.id bt = base_id) (base_tiles self).

Definition add_base_tile (self : t) (base_tile : BaseTile.t) : outcome t unit :=
  match get_base_tile self (BaseTile.id base_tile) with
  | Some _ => Raises self ValueError
  | None =>
      let s1 := set_base_tiles self (base_tiles self ++ [base_tile]) in
      let original_tile := Tile.from_base (BaseTile.id base_tile) 0 false false in
      let s2 := set_tiles s1 (tiles s1 ++ [original_tile]) in
      Returns (set_modified s2 true) tt
  end.

Definition remove_base_tile (self : t) (base_id : string) : t :=
  let s1 := set_base_tiles self (filter (fun bt => BaseTile.id bt <> base_id) (base_tiles self)) in
  let tile_ids_to_remove : gset string :=
    list_to_set (Tile.id <$> filter (fun t => Tile.base_tile_id t = base_id) (tiles s1)) in
  let s2 := set_tiles s1 (filter (fun t => Tile.base_tile_id t <> base_id) (tiles s1)) in
  let s3 := set_rules s2
    (filter (fun r => (AdjacencyRule.tile_id r ∉ tile_ids_to_remove) /\
                      (AdjacencyRule.neighbor_id r ∉ tile_ids_to_remove)) (rules s2)) in
  set_modified s3 true.

(** Returns the new state and the tile that exists or was created. *)
Definition add_tile_variant (self : t) (base_id : string) (rotation : Z)
    (flip_x flip_y : bool) : t * Tile.t :=
  let tile_id := Tile.create_id base_id rotation flip_x flip_y in
  match get_tile self tile_id with
  | Some existing => (self, existing)
  | None =>
      let tile := Tile.from_base base_id rotation flip_x flip_y in
      let s1 := set_tiles self (tiles self ++ [tile]) in
      (set_modified s1 true, tile)
  end.

(** [side] is [None] when the argument is left out. *)
Definition get_rules_for_tile (self : t) (tile_id : string) (side : option Side)
    : list AdjacencyRule.t :=
  let rules0 := filter (fun r => AdjacencyRule.tile_id r = tile_id) (rules self) in
  match side with
  | Some side0 => filter (fun r => AdjacencyRule.side r = side0) rules0
  | None => rules0
  end.

Definition remove_rule (self : t) (tile_id : string) (side : Side) (neighbor_id : string) : t :=
  let s1 := set_rules self
    (filter (fun r => ~ AdjacencyRule.has_key tile_id side neighbor_id r) (rules self)) in
  set_modified s1 true.

End Atlas.

(* ===================================================================== *)
(** ** atlas_editor/src/core/propagation.py *)
(* ===================================================================== *)

Definition _transform_side_between (side : Side) (from_transform to_transform : Transform.t)
    : result Side :=
  original_side <-! Transform.inverse_side from_transform side ;;
  Transform.apply_to_side to_transform original_side.

(** The inner [for tv in target_variants] loop of [propagate_rule]: the
    first variant whose three stored fields equal the fields of
    [target_var_transform]. *)
Definition find_target_variant (target_variants : list Tile.t)
    (target_var_transform : Transform.t) : option Tile.t :=
  snd <$> list_find (fun tv =>
      Tile.rotation tv = Transform.rotation target_var_transform /\
      Tile.flip_x tv = Transform.flip_x target_var_transform /\
      Tile.flip_y tv = Transform.flip_y target_var_transform) target_variants.

(** One iteration of [for src_variant in source_variants].  [rule] is the
    reference to the rule being propagated; its [side] and [weight] are
    read from the object when the iteration uses them.  The result is
    the new state of the atlas and the reference appended to [new_rules],
    if any. *)
Definition propagate_rule_step (atlas : Atlas.t) (rule : nat)
    (source_transform target_transform : Transform.t) (target_variants : list Tile.t)
    (src_variant : Tile.t) : outcome Atlas.t (option nat) :=
  match Atlas.rules atlas !! rule with
  | None => Returns atlas None
  | Some r =>
      if decide (Tile.id src_variant = AdjacencyRule.tile_id r) then Returns atlas None
      else
        let src_var_transform := Tile.transform src_variant in
        let relative_transform :=
          Transform.compose (Transform.inverse source_transform) src_var_transform in
        match _transform_side_between (AdjacencyRule.side r) source_transform src_var_transform with
        | Raise e => Raises atlas e
        | Ok new_side =>
            let target_var_transform := Transform.compose target_transform relative_transform in
            match find_target_variant target_variants target_var_transform with
            | Some target_variant =>
                let '(atlas1, new_rule) :=
                  Atlas.add_rule atlas (Tile.id src_variant) new_side (Tile.id target_variant)
                    (AdjacencyRule.weight r) true in
                Returns atlas1 (Some new_rule)
            | None => Returns atlas None
            end
        end
  end.

Fixpoint propagate_rule_loop (atlas : Atlas.t) (rule : nat)
    (source_transform target_transform : Transform.t) (target_variants : list Tile.t)
    (source_variants : list Tile.t) (new_rules : list nat) : outcome Atlas.t (list nat) :=
  match source_variants with
  | [] => Returns atlas new_rules
  | src_variant :: rest =>
      match propagate_rule_step atlas rule source_transform target_transform
              target_variants src_variant with
      | Raises atlas1 e => Raises atlas1 e
      | Returns atlas1 added =>
          propagate_rule_loop atlas1 rule source_transform target_transform target_variants
            rest (new_rules ++ match added with Some i => [i] | None => [] end)
      end
  end.

(** [propagate_rule(atlas, rule)].  A position outside [atlas.rules]
    refers to no object; nothing is done for it. *)
Definition propagate_rule (atlas : Atlas.t) (rule : nat) : outcome Atlas.t (list nat) :=
  match Atlas.rules atlas !! rule with
  | None => Returns atlas []
  | Some r =>
      match Atlas.get_tile atlas (AdjacencyRule.tile_id r),
            Atlas.get_tile atlas (AdjacencyRule.neighbor_id r) with
      | Some source_tile, Some target_tile =>
          let source_variants := Atlas.get_tiles_for_base atlas (Tile.base_tile_id source_tile) in
          let target_variants := Atlas.get_tiles_for_base atlas (Tile.base_tile_id target_tile) in
          let source_transform := Tile.transform source_tile in
          let target_transform := Tile.transform target_tile in
          propagate_rule_loop atlas rule source_transform target_transform target_variants
            source_variants []
      | _, _ => Returns atlas []
      end
  end.

(** The [for rule in manual_rules] loop of [propagate_all_rules]. *)
Fixpoint propagate_all_loop (atlas : Atlas.t) (manual_rules : list nat) (total_new : Z)
    : outcome Atlas.t Z :=
  match manual_rules with
  | [] => Returns atlas total_new
  | rule :: rest =>
      match propagate_rule atlas rule with
      | Raises atlas1 e => Raises atlas1 e
      | Returns atlas1 new_rules =>
          propagate_all_loop atlas1 rest (total_new + Z.of_nat (length new_rules))
      end
  end.

(** [propagate_all_rules(atlas)].  [manual_rules] holds references to the
    manual rule objects; [remove_auto_rules] rebuilds [atlas.rules] as
    the list of exactly these objects in the same order, so the k-th
    manual rule is then the object at position k. *)
Definition propagate_all_rules (atlas : Atlas.t) : outcome Atlas.t Z :=
  let manual_rules :=
    seq 0 (length (filter AdjacencyRule.is_manual (Atlas.rules atlas))) in
  let '(atlas1, _) := Atlas.remove_auto_rules atlas in
  propagate_all_loop atlas1 manual_rules 0.

(** The list [transforms_to_create] that [ensure_tile_variants_for_rule]
    builds from the settings. *)
Definition transforms_to_create (settings : Settings.t) : list Transform.t :=
  (if Settings.auto_propagate_rotations settings
   then [Transform.Build 90 false false; Transform.Build 180 false false;
         Transform.Build 270 false false]
   else []) ++
  (if Settings.auto_propagate_mirrors settings
   then [Transform.Build 0 true false; Transform.Build 0 false true]
   else []) ++
  (if Settings.auto_propagate_rotations settings && Settings.auto_propagate_mirrors settings
   then (rot ← [90; 180; 270];
         [Transform.Build rot true false; Transform.Build rot false true]) ++
        [Transform.Build 0 true true] ++
        (rot ← [90; 180; 270]; [Transform.Build rot true true])
   else []).

(** The identifier that [ensure_tile_variants_for_rule] looks up:
    [f"{base_id}_{t.suffix}" if t.suffix else base_id]. *)
Definition ensured_id (base_id : string) (t : Transform.t) : string :=
  if decide (Transform.suffix t <> "") then base_id +:+ "_" +:+ Transform.suffix t
  else base_id.

(** The body of [for t in transforms_to_create]. *)
Definition ensure_variant (base_id : string) (acc : Atlas.t * list Tile.t) (t : Transform.t)
    : Atlas.t * list Tile.t :=
  let '(atlas, new_tiles) := acc in
  let tile_id := ensured_id base_id t in
  match Atlas.get_tile atlas tile_id with
  | Some _ => (atlas, new_tiles)
  | None =>
      let '(atlas1, new_tile) :=
        Atlas.add_tile_variant atlas base_id (Transform.rotation t) (Transform.flip_x t)
                               (Transform.flip_y t) in
      (atlas1, new_tiles ++ [new_tile])
  end.

(** [ensure_tile_variants_for_rule(atlas, rule)]; of the rule only
    [tile_id] and [neighbor_id] are read, before anything is changed. *)
Definition ensure_tile_variants_for_rule (atlas : Atlas.t) (rule : AdjacencyRule.t)
    : Atlas.t * list Tile.t :=
  match Atlas.get_tile atlas (AdjacencyRule.tile_id rule),
        Atlas.get_tile atlas (AdjacencyRule.neighbor_id rule) with
  | Some source_tile, Some target_tile =>
      let transforms := transforms_to_create (Atlas.settings atlas) in
      foldl (fun acc base_id => foldl (ensure_variant base_id) acc transforms)
            (atlas, [])
            [Tile.base_tile_id source_tile; Tile.base_tile_id target_tile]
  | _, _ => (atlas, [])
  end.

(** The structural invariants of an atlas: each rule names a tile and a
    neighbour that [get_tile] finds, and no two rules have the same key. *)
Definition rules_resolve (atlas : Atlas.t) : Prop :=
  forall r, r ∈ Atlas.rules atlas ->
    is_Some (Atlas.get_tile atlas (AdjacencyRule.tile_id r)) /\
    is_Some (Atlas.get_tile atlas (AdjacencyRule.neighbor_id r)).

Definition unique_keys (atlas : Atlas.t) : Prop :=
  NoDup (AdjacencyRule.key <$> Atlas.rules atlas).

(** A rule derived from [r0], the rule between the tiles [st] and [tg]
    of the atlas [a]: marked auto, with the weight of [r0], on a sibling
    of the source tile other than the tile of [r0], towards a sibling of
    the target tile. *)
Definition derived (a : Atlas.t) (r0 : AdjacencyRule.t) (st tg : Tile.t)
    (r' : AdjacencyRule.t) : Prop :=
  AdjacencyRule.auto_generated r' = true /\
  AdjacencyRule.weight r' = AdjacencyRule.weight r0 /\
  exists sv tv,
    sv ∈ Atlas.tiles a /\ Tile.base_tile_id sv = Tile.base_tile_id st /\
    Tile.id sv <> AdjacencyRule.tile_id r0 /\
    tv ∈ Atlas.tiles a /\ Tile.base_tile_id tv = Tile.base_tile_id tg /\
    AdjacencyRule.tile_id r' = Tile.id sv /\ AdjacencyRule.neighbor_id r' = Tile.id tv.

(** What holds during the loop of [propagate_rule]: the propagated rule
    is still at its place and the rules reported so far are derived. *)
Definition loop_inv (a : Atlas.t) (rule : nat) (r0 : AdjacencyRule.t) (st tg : Tile.t)
    (ak : Atlas.t) (new_rules : list nat) : Prop :=
  Atlas.rules ak !! rule = Some r0 /\
  forall i, i ∈ new_rules -> exists r', Atlas.rules ak !! i = Some r' /\ derived a r0 st tg r'.

(** Two atlases with the same variants and the same rules, and two
    outcomes that end alike on such atlases. *)
Definition same_data (x y : Atlas.t) : Prop :=
  Atlas.tiles x = Atlas.tiles y /\ Atlas.rules x = Atlas.rules y.

Definition same_outcome {A : Type} (o1 o2 : outcome Atlas.t A) : Prop :=
  match o1, o2 with
  | Returns x v, Returns y w => same_data x y /\ v = w
  | Raises x e, Raises y e' => same_data x y /\ e = e'
  | _, _ => False
  end.

(* ===================================================================== *)
(** ** wfc_viewer/src/core/tile.py *)
(* ===================================================================== *)

Module TileVariant.
(** The cached pixmap is rendering state and is left out. *)
Record t : Type := Build {
  id : string;
  base_tile_id : string;
  rotation : Z;
  flip_x : bool;
  flip_y : bool;
  enabled : bool
}.
End TileVariant.

Module Rule.
Record t : Type := Build {
  tile : string;
  side : Side;
  neighbor : string;
  weight : Q;
  auto : bool
}.

Definition opposite_side (self : t) : Side :=
  match side self with top => bottom | bottom => top | left => right | right => left end.
End Rule.

Module TileAtlas.
(** [tiles] is the dictionary from variant id to variant.  An inner
    dictionary whose keys are exactly the four sides is a function on
    [Side].  [version], [settings] and [base_tiles] (images) play no
    part in the solver and are left out. *)
Record t : Type := Build {
  tiles : gmap string TileVariant.t;
  rules : list Rule.t;
  _adjacency : gmap string (Side -> gmap string Q);
  _reverse_adjacency : Side -> gmap string (gset string)
}.

(** The body of [for rule in self.rules] in [build_adjacency_lookup]. *)
Definition index_rule (acc : gmap string (Side -> gmap string Q) * (Side -> gmap string (gset string)))
    (rule : Rule.t) : gmap string (Side -> gmap string Q) * (Side -> gmap string (gset string)) :=
  let '(adjacency, reverse_adjacency) := acc in
  let adjacency1 :=
    match adjacency !! Rule.tile rule with
    | None => <[Rule.tile rule := fun _ => ∅]> adjacency
    | Some _ => adjacency
    end in
  let adjacency2 :=
    alter (fun sides s =>
             if decide (s = Rule.side rule)
             then <[Rule.neighbor rule := Rule.weight rule]> (sides s)
             else sides s) (Rule.tile rule) adjacency1 in
  let reverse1 := fun s =>
    if decide (s = Rule.side rule) then
      match reverse_adjacency s !! Rule.neighbor rule with
      | None => <[Rule.neighbor rule := ∅]> (reverse_adjacency s)
      | Some _ => reverse_adjacency s
      end
    else reverse_adjacency s in
  let reverse2 := fun s =>
    if decide (s = Rule.side rule) then
      alter (fun tls => tls ∪ {[Rule.tile rule]}) (Rule.neighbor rule) (reverse1 s)
    else reverse1 s in
  (adjacency2, reverse2).

Definition build_adjacency_lookup (self : t) : t :=
  let '(adjacency, reverse_adjacency) :=
    foldl index_rule (∅, fun _ => ∅) (rules self) in
  Build (tiles self) (rules self) adjacency reverse_adjacency.

Definition get_valid_neighbors (self : t) (tile_id : string) (side : Side) : gmap string Q :=
  match _adjacency self !! tile_id with
  | None => ∅
  | Some sides => sides side
  end.

Definition get_tiles_allowing_neighbor (self : t) (side : Side) (neighbor_id : string)
    : gset string :=
  default ∅ (_reverse_adjacency self side !! neighbor_id).

Definition can_be_neighbor (self : t) (tile_id : string) (side : Side) (neighbor_id : string)
    : bool :=
  bool_decide (is_Some (get_valid_neighbors self tile_id side !! neighbor_id)).

Definition get_enabled_tile_ids (self : t) : gset string :=
  list_to_set (TileVariant.id <$> filter (fun v => TileVariant.enabled v = true)
                                         (snd <$> map_to_list (tiles self))).

(** The truth value of an [Optional[str]]: [None] and the empty string
    are false. *)
Definition truthy (v : option string) : bool :=
  match v with
  | None => false
  | Some id => negb (bool_decide (id = ""))
  end.

(** [get_valid_tiles_for_position(neighbors)], the dictionary
    [neighbors] as the list of its items. *)
Definition get_valid_tiles_for_position (self : t) (neighbors : list (Side * option string))
    : gset string :=
  let enabled := get_enabled_tile_ids self in
  if negb (existsb truthy (snd <$> neighbors)) then enabled
  else
    foldl (fun valid '(side, neighbor_id) =>
             match neighbor_id with
             | None => valid
             | Some neighbor_id0 =>
                 let opposite :=
                   match side with
                   | top => bottom | bottom => top | left => right | right => left
                   end in
                 let allowed_by_neighbor := dom (get_valid_neighbors self neighbor_id0 opposite) in
                 valid ∩ allowed_by_neighbor
             end)
          enabled neighbors.

(** What the two tables say, read as relations on (tile, side,
    neighbor). *)
Definition in_adjacency (adj : gmap string (Side -> gmap string Q))
    (tile : string) (side : Side) (neighbor : string) : Prop :=
  exists sides, adj !! tile = Some sides /\ is_Some (sides side !! neighbor).

Definition in_reverse (rev : Side -> gmap string (gset string))
    (tile : string) (side : Side) (neighbor : string) : Prop :=
  exists tls, rev side !! neighbor = Some tls /\ tile ∈ tls.

(** The weight that the forward table holds for (tile, side,
    neighbor), if any. *)
Definition adjacency_weight (adj : gmap string (Side -> gmap string Q))
    (tile : string) (side : Side) (neighbor : string) : option Q :=
  sides ← adj !! tile; sides side !! neighbor.

(** The directed rule (tile, side, neighbor) is among the rules. *)
Definition has_rule (rules0 : list Rule.t) (tile : string) (side : Side) (neighbor : string)
    : Prop :=
  exists r, r ∈ rules0 /\ Rule.tile r = tile /\ Rule.side r = side /\ Rule.neighbor r = neighbor.

End TileAtlas.

(* ===================================================================== *)
(** ** wfc_viewer/src/core/wfc_engine.py *)
(* ===================================================================== *)

Inductive EngineState : Type := IDLE | RUNNING | PAUSED | FINISHED | CONTRADICTION.

#[global] Instance EngineState_eq_dec : EqDecision EngineState.
Proof. solve_decision. Defined.

Module CellState.
Record t : Type := Build {
  x : Z;
  y : Z;
  possibilities : gset string;
  collapsed_tile : option string;
  locked : bool
}.

Definition is_collapsed (self : t) : bool :=
  match collapsed_tile self with Some _ => true | None => false end.

Definition entropy (self : t) : nat :=
  if is_collapsed self then 0%nat else size (possibilities self).

Definition set_possibilities (self : t) (p : gset string) : t :=
  Build (x self) (y self) p (collapsed_tile self) (locked self).

Definition set_collapsed_tile (self : t) (c : option string) : t :=
  Build (x self) (y self) (possibilities self) c (locked self).

Definition set_locked (self : t) (l : bool) : t :=
  Build (x self) (y self) (possibilities self) (collapsed_tile self) l.
End CellState.

(** The Qt signals of [WFCEngine], as the values a listener receives. *)
Inductive Signal : Type :=
| cell_collapsed (x y : Z) (tile_id : string)
| cell_updated (x y : Z)
| contradiction_found (x y : Z)
| state_changed (s : EngineState)
| finished (success : bool)
| progress_updated (collapsed total : Z).

(** The inline dictionary [{'left': 'right', 'right': 'left', 'top':
    'bottom', 'bottom': 'top'}[side]] of the engine. *)
Definition opposite (side : Side) : Side :=
  match side with left => right | right => left | top => bottom | bottom => top end.

Definition side_name (side : Side) : string :=
  match side with top => "top" | right => "right" | bottom => "bottom" | left => "left" end.

Module WFCEngine.
(** [cells] is the dictionary keyed by [(x, y)].  [timer_active] is
    whether the QTimer is running.  [emitted] records the signals in
    the order of emission. *)
Record t : Type := Build {
  atlas : option TileAtlas.t;
  width : Z;
  height : Z;
  cells : gmap (Z * Z) CellState.t;
  _state : EngineState;
  timer_active : bool;
  _step_delay : Z;
  _collapsed_count : Z;
  _total_cells : Z;
  emitted : list Signal
}.

(** [WFCEngine()]. *)
Definition init : t := Build None 0 0 ∅ IDLE false 50 0 0 [].

Definition set_cells (self : t) (c : gmap (Z * Z) CellState.t) : t :=
  Build (atlas self) (width self) (height self) c (_state self) (timer_active self)
        (_step_delay self) (_collapsed_count self) (_total_cells self) (emitted self).

Definition set_cell (self : t) (pos : Z * Z) (c : CellState.t) : t :=
  set_cells self (<[pos := c]> (cells self)).

Definition set_collapsed_count (self : t) (n : Z) : t :=
  Build (atlas self) (width self) (height self) (cells self) (_state self) (timer_active self)
        (_step_delay self) n (_total_cells self) (emitted self).

Definition emit (self : t) (s : Signal) : t :=
  Build (atlas self) (width self) (height self) (cells self) (_state self) (timer_active self)
        (_step_delay self) (_collapsed_count self) (_total_cells self) (emitted self ++ [s]).

Definition timer_stop (self : t) : t :=
  Build (atlas self) (width self) (height self) (cells self) (_state self) false
        (_step_delay self) (_collapsed_count self) (_total_cells self) (emitted self).

Definition state (self : t) : EngineState := _state self.

(** The setter of the [state] property. *)
Definition set_state (self : t) (value : EngineState) : t :=
  if decide (_state self <> value) then
    emit (Build (atlas self) (width self) (height self) (cells self) value (timer_active self)
                (_step_delay self) (_collapsed_count self) (_total_cells self) (emitted self))
         (state_changed value)
  else self.

(** Keys of the grid in the order [initialize] inserts them; as nothing
    else inserts or deletes a key, it is the iteration order of
    [self.cells]. *)
Definition positions (width height : Z) : list (Z * Z) :=
  y ← seqZ 0 height; x ← seqZ 0 width; [(x, y)].

Definition items (self : t) : list ((Z * Z) * CellState.t) :=
  omap (fun pos => (fun c => (pos, c)) <$> cells self !! pos)
       (positions (width self) (height self)).

Definition _get_neighbors (self : t) (x y : Z) : list (Z * Z) :=
  omap (fun '(dx, dy) =>
          let nx := x + dx in
          let ny := y + dy in
          if decide (0 <= nx < width self /\ 0 <= ny < height self)
          then Some (nx, ny) else None)
       [(-1, 0); (1, 0); (0, -1); (0, 1)].

Definition _get_neighbors_with_sides (self : t) (x y : Z) : list (Z * Z * Side) :=
  omap (fun '(dx, dy, side) =>
          let nx := x + dx in
          let ny := y + dy in
          if decide (0 <= nx < width self /\ 0 <= ny < height self)
          then Some (nx, ny, side) else None)
       [(-1, 0, left); (1, 0, right); (0, -1, top); (0, 1, bottom)].

Definition get_cell (self : t) (x y : Z) : option CellState.t :=
  cells self !! (x, y).

(** One turn of [for nx, ny, side in self._get_neighbors_with_sides(x,
    y)] in the recalculation of the valid set. *)
Definition constrain (atlas0 : TileAtlas.t) (self : t) (valid : gset string)
    (n : Z * Z * Side) : gset string :=
  let '(nx, ny, side) := n in
  match cells self !! (nx, ny) with
  | None => valid
  | Some neighbor =>
      match CellState.collapsed_tile neighbor with
      | None => valid
      | Some neighbor_tile =>
          let opposite0 := opposite side in
          let neighbor_allows :=
            dom (TileAtlas.get_valid_neighbors atlas0 neighbor_tile opposite0) in
          let i_allow := TileAtlas.get_tiles_allowing_neighbor atlas0 side neighbor_tile in
          (valid ∩ neighbor_allows) ∩ i_allow
      end
  end.

(** The recalculation that [_step], [_propagate] and
    [get_valid_tiles_for_cell] each spell out: the enabled tiles cut
    down by every collapsed neighbour. *)
Definition valid_tiles (atlas0 : TileAtlas.t) (self : t) (x y : Z) : gset string :=
  foldl (constrain atlas0 self) (TileAtlas.get_enabled_tile_ids atlas0)
        (_get_neighbors_with_sides self x y).

Definition get_valid_tiles_for_cell (self : t) (x y : Z) : gset string :=
  match atlas self with
  | None => ∅
  | Some atlas0 => valid_tiles atlas0 self x y
  end.

(** The neighbours that the two [queue.append] loops of [_propagate]
    add: those that have a cell which is not collapsed. *)
Definition uncollapsed_neighbors (self : t) (x y : Z) : list (Z * Z) :=
  omap (fun '(nx, ny, _) =>
          match cells self !! (nx, ny) with
          | Some neighbor =>
              if CellState.is_collapsed neighbor then None else Some (nx, ny)
          | None => None
          end)
       (_get_neighbors_with_sides self x y).

(** The [while queue] loop of [_propagate].  [None] when [fuel] turns of
    the loop did not empty the queue. *)
Fixpoint _propagate_loop (fuel : nat) (self : t) (queue : list (Z * Z))
    : option (outcome t unit) :=
  match fuel with
  | O => None
  | S fuel' =>
      match queue with
      | [] => Some (Returns self tt)
      | (x, y) :: queue' =>
          match cells self !! (x, y) with
          | None => _propagate_loop fuel' self queue'
          | Some cell =>
              if CellState.is_collapsed cell then _propagate_loop fuel' self queue'
              else
                match atlas self with
                | None => Some (Raises self AttributeError)
                | Some atlas0 =>
                    let valid := valid_tiles atlas0 self x y in
                    if decide (valid <> CellState.possibilities cell) then
                      let cell1 := CellState.set_possibilities cell valid in
                      let s1 := emit (set_cell self (x, y) cell1) (cell_updated x y) in
                      if decide (size valid = 0%nat) then Some (Returns s1 tt)
                      else if decide (size valid = 1%nat) then
                        match elements valid with
                        | [] => Some (Raises s1 StopIteration)
                        | tile :: _ =>
                            let cell2 := CellState.set_collapsed_tile cell1 (Some tile) in
                            let s2 := set_cell s1 (x, y) cell2 in
                            let s3 := set_collapsed_count s2 (_collapsed_count s2 + 1) in
                            let s4 := emit s3 (cell_collapsed x y tile) in
                            let s5 := emit s4 (progress_updated (_collapsed_count s4)
                                                                (_total_cells s4)) in
                            _propagate_loop fuel' s5 (queue' ++ uncollapsed_neighbors s5 x y)
                        end
                      else _propagate_loop fuel' s1 (queue' ++ uncollapsed_neighbors s1 x y)
                    else _propagate_loop fuel' self queue'
                end
          end
      end
  end.

(** The cells that are not collapsed, and among them those whose
    possibilities differ from the recalculated valid set. *)
Definition uncollapsed_cells (self : t) : gset (Z * Z) :=
  dom (filter (fun pc => CellState.is_collapsed (snd pc) = false) (cells self)).

Definition stale_cells (self : t) : gset (Z * Z) :=
  dom (filter (fun pc =>
                 CellState.is_collapsed (snd pc) = false /\
                 get_valid_tiles_for_cell self (fst (fst pc)) (snd (fst pc))
                   <> CellState.possibilities (snd pc))
              (cells self)).

(** The four positions next to [(x, y)], inside the bounds or not. *)
Definition around (x y : Z) : gset (Z * Z) :=
  list_to_set [(x - 1, y); (x + 1, y); (x, y - 1); (x, y + 1)].

(** A number of turns within which the loop of [_propagate] ends: a turn
    either shortens the queue, or makes a stale cell valid and adds at
    most four entries, or collapses a cell, makes at most four cells
    stale and adds at most four entries. *)
Definition propagate_fuel (self : t) (queue : list (Z * Z)) : nat :=
  (16 * size (uncollapsed_cells self) + 4 * size (stale_cells self) + length queue + 1)%nat.

(** [_propagate(start_x, start_y)].  The loop is given [propagate_fuel]
    turns, within which it ends ([_propagate_loop_terminates] below), so
    the last branch is never taken. *)
Definition _propagate (self : t) (start_x start_y : Z) : outcome t unit :=
  let queue := uncollapsed_neighbors self start_x start_y in
  match _propagate_loop (propagate_fuel self queue) self queue with
  | Some o => o
  | None => Returns self tt
  end.

(** What one turn of the loop of [_propagate] does to the engine when it
    changes it: the possibilities of an uncollapsed cell are replaced by
    the recalculated valid set, and when that set is a singleton the
    cell is collapsed to its element as well. *)
Inductive propagate_step : t -> t -> Prop :=
| ps_update (s : t) (x y : Z) (cell : CellState.t) (a : TileAtlas.t) :
    cells s !! (x, y) = Some cell ->
    CellState.collapsed_tile cell = None ->
    atlas s = Some a ->
    propagate_step s
      (emit (set_cell s (x, y) (CellState.set_possibilities cell (valid_tiles a s x y)))
            (cell_updated x y))
| ps_collapse (s : t) (x y : Z) (cell : CellState.t) (a : TileAtlas.t) (tile : string) :
    cells s !! (x, y) = Some cell ->
    CellState.collapsed_tile cell = None ->
    atlas s = Some a ->
    valid_tiles a s x y = {[tile]} ->
    propagate_step s
      (let cell1 := CellState.set_possibilities cell (valid_tiles a s x y) in
       let s1 := emit (set_cell s (x, y) cell1) (cell_updated x y) in
       let cell2 := CellState.set_collapsed_tile cell1 (Some tile) in
       let s2 := set_cell s1 (x, y) cell2 in
       let s3 := set_collapsed_count s2 (_collapsed_count s2 + 1) in
       let s4 := emit s3 (cell_collapsed x y tile) in
       emit s4 (progress_updated (_collapsed_count s4) (_total_cells s4))).

(** The invariant of a cell and of the grid. *)
Definition cell_inv (c : CellState.t) : Prop :=
  (forall tile, CellState.collapsed_tile c = Some tile ->
                CellState.possibilities c = {[tile]}) /\
  (CellState.locked c = true -> is_Some (CellState.collapsed_tile c)).

Definition grid_inv (self : t) : Prop :=
  forall pos c, cells self !! pos = Some c -> cell_inv c.

(** Every position inside the bounds has a cell. *)
Definition grid_full (self : t) : Prop :=
  forall x y, 0 <= x < width self -> 0 <= y < height self ->
              is_Some (cells self !! (x, y)).

(** The tile [T] agrees with every collapsed neighbour of the cell
    [(x, y)]: for the neighbour tile [N] on side [S], the rules
    [(T, S, N)] and [(N, opposite(S), T)] are both among [rules0]. *)
Definition admissible (rules0 : list Rule.t) (self : t) (x y : Z) (T : string) : Prop :=
  forall nx ny side nb N,
    (nx, ny, side) ∈ _get_neighbors_with_sides self x y ->
    cells self !! (nx, ny) = Some nb ->
    CellState.collapsed_tile nb = Some N ->
    TileAtlas.has_rule rules0 T side N /\
    TileAtlas.has_rule rules0 N (opposite side) T.

(** [initialize(atlas, width, height)]. *)
Definition initialize (self : t) (atlas0 : TileAtlas.t) (width0 height0 : Z) : t :=
  let s1 := Build (Some atlas0) width0 height0 ∅ (_state self) (timer_active self)
                  (_step_delay self) 0 (width0 * height0) (emitted self) in
  let enabled_tiles := TileAtlas.get_enabled_tile_ids atlas0 in
  let s2 := set_cells s1
    (foldl (fun c '(x, y) => <[(x, y) := CellState.Build x y enabled_tiles None false]> c)
           (cells s1) (positions width0 height0)) in
  let s3 := set_state s2 IDLE in
  emit s3 (progress_updated 0 (_total_cells s3)).

(** The statements of [lock_cell] before the call of [_propagate]. *)
Definition lock_cell_collapse (self : t) (x y : Z) (cell : CellState.t) (tile_id : string) : t :=
  let cell1 := CellState.set_collapsed_tile cell (Some tile_id) in
  let cell2 := CellState.set_locked cell1 true in
  let cell3 := CellState.set_possibilities cell2 {[tile_id]} in
  let s1 := set_cell self (x, y) cell3 in
  let s2 :=
    if negb (CellState.is_collapsed cell3)
       || bool_decide (CellState.collapsed_tile cell3 <> Some tile_id)
    then set_collapsed_count s1 (_collapsed_count s1 + 1)
    else s1 in
  let s3 := emit s2 (cell_collapsed x y tile_id) in
  emit s3 (progress_updated (_collapsed_count s3) (_total_cells s3)).

Definition lock_cell (self : t) (x y : Z) (tile_id : string) : outcome t unit :=
  match cells self !! (x, y) with
  | None => Returns self tt
  | Some cell => _propagate (lock_cell_collapse self x y cell tile_id) x y
  end.

(** The loop [for nx, ny in self._get_neighbors(x, y)] of [unlock_cell]. *)
Fixpoint unlock_repropagate (self : t) (neighbors : list (Z * Z)) : outcome t unit :=
  match neighbors with
  | [] => Returns self tt
  | (nx, ny) :: rest =>
      match cells self !! (nx, ny) with
      | None => Raises self KeyError
      | Some neighbor =>
          if CellState.is_collapsed neighbor then
            match _propagate self nx ny with
            | Raises s1 e => Raises s1 e
            | Returns s1 _ => unlock_repropagate s1 rest
            end
          else unlock_repropagate self rest
      end
  end.

Definition unlock_cell (self : t) (x y : Z) : outcome t unit :=
  match cells self !! (x, y) with
  | None => Returns self tt
  | Some cell =>
      let was_collapsed := CellState.is_collapsed cell in
      let was_contradiction := bool_decide (size (CellState.possibilities cell) = 0%nat) in
      let cell1 := CellState.set_locked cell false in
      let cell2 := CellState.set_collapsed_tile cell1 None in
      match atlas self with
      | None => Raises (set_cell self (x, y) cell2) AttributeError
      | Some atlas0 =>
          let cell3 := CellState.set_possibilities cell2 (TileAtlas.get_enabled_tile_ids atlas0) in
          let s1 := set_cell self (x, y) cell3 in
          let s2 := if was_collapsed
                    then set_collapsed_count s1 (_collapsed_count s1 - 1) else s1 in
          let s3 :=
            if was_collapsed || was_contradiction then
              if bool_decide (state s2 = FINISHED \/ state s2 = CONTRADICTION)
              then set_state s2 IDLE else s2
            else s2 in
          let s4 := emit s3 (cell_updated x y) in
          let s5 := emit s4 (progress_updated (_collapsed_count s4) (_total_cells s4)) in
          unlock_repropagate s5 (_get_neighbors s5 x y)
      end
  end.

(** The loop [for (x, y), tile_id in locked_cells.items()] of [reset].
    [lock_cell] takes a [str]; the entry of a locked cell that has no
    tile carries [None], which is reported as a [TypeError]. *)
Fixpoint reset_restore (self : t) (locked_cells : list ((Z * Z) * option string))
    : outcome t unit :=
  match locked_cells with
  | [] => Returns self tt
  | ((x, y), None) :: _ => Raises self TypeError
  | ((x, y), Some tile_id) :: rest =>
      match lock_cell self x y tile_id with
      | Raises s1 e => Raises s1 e
      | Returns s1 _ => reset_restore s1 rest
      end
  end.

Definition reset (self : t) : outcome t unit :=
  match atlas self with
  | None => Returns self tt
  | Some atlas0 =>
      let s1 := timer_stop self in
      let locked_cells :=
        omap (fun '(pos, cell) =>
                if CellState.locked cell then Some (pos, CellState.collapsed_tile cell)
                else None) (items s1) in
      let s2 := initialize s1 atlas0 (width s1) (height s1) in
      reset_restore s2 locked_cells
  end.

Definition clear_all (self : t) : t :=
  match atlas self with
  | None => self
  | Some atlas0 =>
      let s1 := timer_stop self in
      initialize s1 atlas0 (width s1) (height s1)
  end.

(** The scan of [_step]: [inl pos] when the early return at an empty
    cell is taken, else the candidates.  [min_entropy] is [None] for
    [float('inf')]. *)
Fixpoint scan (cell_items : list ((Z * Z) * CellState.t)) (min_entropy : option nat)
    (candidates : list (Z * Z)) : (Z * Z) + list (Z * Z) :=
  match cell_items with
  | [] => inr candidates
  | (pos, cell) :: rest =>
      if CellState.is_collapsed cell then scan rest min_entropy candidates
      else
        let entropy := CellState.entropy cell in
        if decide (entropy = 0%nat) then inl pos
        else if match min_entropy with
                | None => true
                | Some m => bool_decide (entropy < m)%nat
                end
        then scan rest (Some entropy) [pos]
        else if bool_decide (Some entropy = min_entropy)
        then scan rest min_entropy (candidates ++ [pos])
        else scan rest min_entropy candidates
  end.

(** The two exits of [_step] on a contradiction at [(x, y)]. *)
Definition contradiction_at (self : t) (x y : Z) : t :=
  let s1 := timer_stop self in
  let s2 := set_state s1 CONTRADICTION in
  let s3 := emit s2 (contradiction_found x y) in
  emit s3 (finished false).

(** [random.choice(seq)], its outcome fixed by the number [r] drawn from
    the generator; [None] stands for the [IndexError] on an empty
    sequence. *)
Definition random_choice {A : Type} (r : nat) (l : list A) : option A :=
  l !! (r mod length l)%nat.

(** [_step()], with the numbers [r1] and [r2] that the two calls of
    [random.choice] draw. *)
Definition _step (self : t) (r1 r2 : nat) : outcome t unit :=
  match scan (items self) None [] with
  | inl (x, y) => Returns (contradiction_at self x y) tt
  | inr [] =>
      let s1 := timer_stop self in
      let s2 := set_state s1 FINISHED in
      Returns (emit s2 (finished true)) tt
  | inr candidates =>
      match random_choice r1 candidates with
      | None => Raises self IndexError
      | Some (x, y) =>
          match cells self !! (x, y) with
          | None => Raises self KeyError
          | Some cell =>
              match atlas self with
              | None => Raises self AttributeError
              | Some atlas0 =>
                  let valid_now := valid_tiles atlas0 self x y in
                  if decide (valid_now = ∅) then Returns (contradiction_at self x y) tt
                  else
                    match random_choice r2 (elements valid_now) with
                    | None => Raises self IndexError
                    | Some tile_id =>
                        let cell1 := CellState.set_collapsed_tile cell (Some tile_id) in
                        let cell2 := CellState.set_possibilities cell1 {[tile_id]} in
                        let s1 := set_cell self (x, y) cell2 in
                        let s2 := set_collapsed_count s1 (_collapsed_count s1 + 1) in
                        let s3 := emit s2 (cell_collapsed x y tile_id) in
                        let s4 := emit s3 (progress_updated (_collapsed_count s3)
                                                            (_total_cells s3)) in
                        _propagate s4 x y
                    end
              end
          end
      end
  end.

Definition timer_start (self : t) : t :=
  Build (atlas self) (width self) (height self) (cells self) (_state self) true
        (_step_delay self) (_collapsed_count self) (_total_cells self) (emitted self).

Definition set_step_delay (self : t) (d : Z) : t :=
  Build (atlas self) (width self) (height self) (cells self) (_state self) (timer_active self)
        d (_collapsed_count self) (_total_cells self) (emitted self).

(** [set_speed(delay_ms)].  The interval of the timer is not part of the
    state, so [setInterval] leaves it as it is. *)
Definition set_speed (self : t) (delay_ms : Z) : t :=
  let s1 := set_step_delay self (Z.max 1 delay_ms) in
  if timer_active s1 then s1 else s1.

(** [start()]. *)
Definition start (self : t) : t :=
  if bool_decide (state self = FINISHED \/ state self = CONTRADICTION) then self
  else timer_start (set_state self RUNNING).

(** [pause()]. *)
Definition pause (self : t) : t :=
  if bool_decide (state self = RUNNING) then set_state (timer_stop self) PAUSED
  else self.

(** [step()], with the numbers that [_step] draws. *)
Definition step (self : t) (r1 r2 : nat) : outcome t unit :=
  if bool_decide (state self = FINISHED \/ state self = CONTRADICTION) then Returns self tt
  else _step self r1 r2.

(** The timer runs only in the state RUNNING. *)
Definition timer_ok (self : t) : Prop :=
  timer_active self = true -> state self = RUNNING.

(** Inside the bounds, every collapsed cell has, for each collapsed
    neighbour, the rule from its tile on that side to the tile of the
    neighbour. *)
Definition consistent (rules0 : list Rule.t) (self : t) : Prop :=
  forall x y c T nx ny side nb N,
    0 <= x < width self -> 0 <= y < height self ->
    cells self !! (x, y) = Some c -> CellState.collapsed_tile c = Some T ->
    (nx, ny, side) ∈ _get_neighbors_with_sides self x y ->
    cells self !! (nx, ny) = Some nb -> CellState.collapsed_tile nb = Some N ->
    TileAtlas.has_rule rules0 T side N.

(** The atlas, the bounds and the keys of the grid. *)
Definition same_frame (self self' : t) : Prop :=
  atlas self' = atlas self /\ width self' = width self /\ height self' = height self /\
  dom (cells self') = dom (cells self).

(** What propagation leaves of a cell: the coordinates and the locked
    flag, and the whole cell when it is collapsed. *)
Definition keeps_cell (c c' : CellState.t) : Prop :=
  CellState.x c' = CellState.x c /\ CellState.y c' = CellState.y c /\
  CellState.locked c' = CellState.locked c /\
  (CellState.is_collapsed c = true -> c' = c).

Definition keeps_cells (self self' : t) : Prop :=
  forall pos c, cells self !! pos = Some c ->
    exists c', cells self' !! pos = Some c' /\ keeps_cell c c'.

(** The message appended by [validate_grid]. *)
Definition violation (x y : Z) (tile_id neighbor_tile : string) (side : Side) : string :=
  "(" +:+ pretty x +:+ "," +:+ pretty y +:+ ") '" +:+ tile_id +:+ "' does not allow '"
      +:+ neighbor_tile +:+ "' on " +:+ side_name side.

Definition validate_grid (self : t) : list string :=
  match atlas self with
  | None => ["No atlas loaded"]
  | Some atlas0 =>
      '(x, y) ← positions (width self) (height self);
      match get_cell self x y with
      | None => []
      | Some cell =>
          match CellState.collapsed_tile cell with
          | None => []
          | Some tile_id =>
              '(nx, ny, side) ← _get_neighbors_with_sides self x y;
              match get_cell self nx ny with
              | None => []
              | Some neighbor =>
                  match CellState.collapsed_tile neighbor with
                  | None => []
                  | Some neighbor_tile =>
                      let allowed := TileAtlas.get_valid_neighbors atlas0 tile_id side in
                      if decide (allowed !! neighbor_tile = None)
                      then [violation x y tile_id neighbor_tile side]
                      else []
                  end
              end
          end
      end
  end.

End WFCEngine.

(* ===================================================================== *)
(** ** The atlases and grids of the scenarios *)
(* ===================================================================== *)

(** The atlas of the example: the bases A and B, each with its identity
    variant and its vertical flip, and the manual rule (A, right, B). *)
Definition atlas_fy : Atlas.t :=
  Atlas.Build "1.0" (Settings.Build true true) []
    [Tile.Build "A" "A" 0 false false true; Tile.Build "A_fy" "A" 0 false true true;
     Tile.Build "B" "B" 0 false false true; Tile.Build "B_fy" "B" 0 false true true]
    [AdjacencyRule.Build "A" right "B" (inject_Z 100) false] None false.

(** A variant of the solver that is its own base tile, and a rule of
    weight 100. *)
Definition variant (id : string) : TileVariant.t :=
  TileVariant.Build id id 0 false false true.

Definition rule100 (tile : string) (side : Side) (neighbor : string) : Rule.t :=
  Rule.Build tile side neighbor (inject_Z 100) false.

(** An atlas as the loader builds it: the tiles and rules are filled in
    and the lookup tables are built. *)
Definition load_atlas (variants : list TileVariant.t) (rules : list Rule.t) : TileAtlas.t :=
  TileAtlas.build_adjacency_lookup
    (TileAtlas.Build (list_to_map ((fun v => (TileVariant.id v, v)) <$> variants))
                     rules ∅ (fun _ => ∅)).

(** Scenario S5: the variants X and Y with the rules (X, right, X) and
    (X, left, X); a grid of two cells in a row, (0,0) locked to Y, and
    one step, which finds the contradiction at (1,0). *)
Definition atlas_S5 : TileAtlas.t :=
  load_atlas [variant "X"; variant "Y"] [rule100 "X" right "X"; rule100 "X" left "X"].

Definition grid_S5 : WFCEngine.t :=
  let e0 := WFCEngine.initialize WFCEngine.init atlas_S5 2 1 in
  let e1 := final_state (WFCEngine.lock_cell e0 0 0 "Y") in
  final_state (WFCEngine._step e1 0 0).

(** The same on a grid of three cells in a row: the contradiction is at
    (1,0) and the cell (2,0) keeps both possibilities. *)
Definition grid_S5_wide : WFCEngine.t :=
  let e0 := WFCEngine.initialize WFCEngine.init atlas_S5 3 1 in
  let e1 := final_state (WFCEngine.lock_cell e0 0 0 "Y") in
  final_state (WFCEngine._step e1 0 0).

(** The tiles and rules of scenario S5 before the lookup tables are
    built. *)
Definition atlas_S5_raw : TileAtlas.t :=
  TileAtlas.Build (list_to_map ((fun v => (TileVariant.id v, v)) <$> [variant "X"; variant "Y"]))
                  [rule100 "X" right "X"; rule100 "X" left "X"] ∅ (fun _ => ∅).


Definition grid_YX : WFCEngine.t :=
  let e0 := WFCEngine.initialize WFCEngine.init atlas_S5 2 1 in
  let e1 := final_state (WFCEngine.lock_cell e0 0 0 "Y") in
  final_state (WFCEngine.lock_cell e1 1 0 "X").

(** The atlas of scenario S3 with a second manual rule, which is the
    rule that propagation derives from the first. *)
Definition atlas_clash : Atlas.t :=
  Atlas.Build "1.0" (Settings.Build true true) []
    [Tile.Build "A" "A" 0 false false true; Tile.Build "A_r90" "A" 90 false false true;
     Tile.Build "B" "B" 0 false false true; Tile.Build "B_r90" "B" 90 false false true]
    [AdjacencyRule.Build "A" right "B" (inject_Z 100) false;
     AdjacencyRule.Build "A_r90" bottom "B_r90" (inject_Z 50) false] None false.

(** The atlas of scenario S3. *)
Definition atlas_S3 : Atlas.t :=
  Atlas.Build "1.0" (Settings.Build true true) []
    [Tile.Build "A" "A" 0 false false true; Tile.Build "A_r90" "A" 90 false false true;
     Tile.Build "B" "B" 0 false false true; Tile.Build "B_r90" "B" 90 false false true]
    [AdjacencyRule.Build "A" right "B" (inject_Z 100) false] None false.

(** Scenario S4: the variants X and Y with the rules (X, s, X) and
    (Y, s, Y) on all four sides; a grid of 3 by 3 with (0,0) locked to
    X. *)
Definition atlas_S4 : TileAtlas.t :=
  load_atlas [variant "X"; variant "Y"]
    (s ← SIDES; [rule100 "X" s "X"; rule100 "Y" s "Y"]).

Definition grid_S4 : WFCEngine.t :=
  final_state (WFCEngine.lock_cell (WFCEngine.initialize WFCEngine.init atlas_S4 3 3) 0 0 "X").

(* ===================================================================== *)
(** ** wfc_viewer/src/core/tm_saver.py *)
(* ===================================================================== *)

Module CellData.
Record t : Type := Build {
  x : Z;
  y : Z;
  tile_id : option string;
  locked : bool;
  possibilities : gset string
}.
End CellData.

Module GridState.
Record t : Type := Build {
  width : Z;
  height : Z;
  source_tr : string;
  cells : gmap (Z * Z) CellData.t
}.

Definition set_cells (self : t) (c : gmap (Z * Z) CellData.t) : t :=
  Build (width self) (height self) (source_tr self) c.

Definition get_cell (self : t) (x y : Z) : option CellData.t :=
  if decide (0 <= x < width self /\ 0 <= y < height self)
  then cells self !! (x, y)
  else None.

Definition set_cell (self : t) (x y : Z) (tile_id : option string) (locked : bool) : t :=
  if decide (0 <= x < width self /\ 0 <= y < height self)
  then set_cells self (<[(x, y) := CellData.Build x y tile_id locked ∅]> (cells self))
  else self.

Definition clear_cell (self : t) (x y : Z) : t :=
  match cells self !! (x, y) with
  | Some cell =>
      set_cells self
        (<[(x, y) := CellData.Build (CellData.x cell) (CellData.y cell) None false ∅]>
           (cells self))
  | None => self
  end.

Definition is_complete (self : t) : bool :=
  forallb (fun '(x, y) =>
             match get_cell self x y with
             | None => false
             | Some cell =>
                 match CellData.tile_id cell with
                 | None => false
                 | Some _ => true
                 end
             end)
          (y ← seqZ 0 (height self); x ← seqZ 0 (width self); [(x, y)]).
End GridState.

(* ===================================================================== *)
(** * Properties *)
(* ===================================================================== *)

(** ** Transform *)

Section TransformLaws.

Import Transform.

Example get_all_transforms_length : length (get_all_transforms true) = 16%nat.
Proof. vm_compute. reflexivity. Qed.

(** A property that holds of each of the sixteen values can be used at
    any of them. *)
Lemma all_transforms_ind (P : Transform.t -> Prop) :
  Forall P (get_all_transforms true) ->
  forall t, t ∈ get_all_transforms true -> P t.
Proof. intros HP t Ht. rewrite Forall_forall in HP. auto. Qed.

Lemma normalize_clears_flip_y (t : Transform.t) : flip_y (normalize t) = false.
Proof. unfold normalize. destruct (flip_y t) eqn:E, (flip_x t); simpl; auto. Qed.

Lemma normalize_canonical_id (t : Transform.t) : flip_y t = false -> normalize t = t.
Proof. destruct t as [r fx fy]. simpl. intros ->. reflexivity. Qed.


Lemma inverse_flip_y (t : Transform.t) : flip_y (inverse t) = false.
Proof.
  unfold inverse.
  destruct (((360 - rotation t) mod 360 =? 90) || ((360 - rotation t) mod 360 =? 270));
    apply normalize_clears_flip_y.
Qed.

(** C4, the claim as stated fails: composing the vertical flip with the
    identity returns the canonical form (180, flip_x), not the vertical
    flip itself. *)
Lemma compose_identity_not_neutral :
  ~ (forall t, t ∈ get_all_transforms true ->
       compose t identity = t /\ compose identity t = t /\
       compose t (inverse t) = identity).
Proof.
  intros H.
  destruct (H (Build 0 false true)) as [H1 _].
  - vm_compute. repeat constructor.
  - vm_compute in H1. discriminate H1.
Qed.

(** C4, amended: for each of the sixteen transforms t, [compose] with the
    identity on either side returns [normalize t], which is t itself
    when t has no vertical flip, and [t.compose(t.inverse())] is the
    identity transform. *)
Theorem compose_identity_inverse (t : Transform.t) :
  t ∈ get_all_transforms true ->
  compose t identity = normalize t /\
  compose identity t = normalize t /\
  (flip_y t = false -> compose t identity = t /\ compose identity t = t) /\
  compose t (inverse t) = identity.
Proof.
  revert t. apply all_transforms_ind.
  apply (bool_decide_unpack _). vm_compute. exact I.
Qed.

Lemma compose_identity_inverse_witness :
  let t := Build 90 true false in
  compose t identity = normalize t /\
  compose identity t = normalize t /\
  (flip_y t = false -> compose t identity = t /\ compose identity t = t) /\
  compose t (inverse t) = identity.
Proof.
  apply (compose_identity_inverse (Build 90 true false)).
  vm_compute. repeat constructor.
Defined.

(** C5: [normalize] is idempotent; two of the sixteen transforms that
    act alike on the four sides have the same normal form; the normal
    forms of the sixteen transforms are exactly eight distinct values,
    each without vertical flip. *)
Theorem normalize_canonical :
  (forall t, normalize (normalize t) = normalize t) /\
  (forall t1 t2,
      t1 ∈ get_all_transforms true -> t2 ∈ get_all_transforms true ->
      (forall s, apply_to_side t1 s = apply_to_side t2 s) ->
      normalize t1 = normalize t2) /\
  (exists canon : list Transform.t,
      NoDup canon /\ length canon = 8%nat /\
      (forall c, c ∈ canon <->
                 exists t, t ∈ get_all_transforms true /\ normalize t = c) /\
      (forall c, c ∈ canon -> flip_y c = false)).
Proof.
  split; [|split].
  - intros t. apply normalize_canonical_id, normalize_clears_flip_y.
  - intros t1 t2 H1 H2 H.
    apply list_elem_of_In in H1. apply list_elem_of_In in H2.
    vm_compute in H1, H2.
    repeat (destruct H1 as [<-|H1]); try contradiction;
      repeat (destruct H2 as [<-|H2]); try contradiction;
      try reflexivity;
      pose proof (H top) as Ht; pose proof (H right) as Hr;
      vm_compute in Ht, Hr; congruence.
  - exists (remove_dups (normalize <$> get_all_transforms true)).
    split; [apply NoDup_remove_dups|].
    split; [vm_compute; reflexivity|].
    split.
    + intros c. rewrite elem_of_remove_dups, list_elem_of_fmap.
      split; intros (t & ? & ?); exists t; auto.
    + intros c. rewrite elem_of_remove_dups, list_elem_of_fmap.
      intros (t & -> & _). apply normalize_clears_flip_y.
Qed.

Lemma normalize_canonical_witness :
  normalize (Build 0 true true) = normalize (Build 180 false false).
Proof.
  apply (proj1 (proj2 normalize_canonical)).
  - vm_compute. repeat constructor.
  - vm_compute. repeat constructor.
  - intros s. destruct s; reflexivity.
Defined.

(** Scenarios S1 and S2 of the specification. *)
Example S1_compose_rotations :
  compose (Build 90 false false) (Build 90 false false) = Build 180 false false.
Proof. reflexivity. Qed.

Example S1_compose_flip_rotation :
  compose (Build 0 true false) (Build 90 false false) = normalize (Build 90 false true) /\
  normalize (Build 90 false true) = Build 270 true false.
Proof. split; reflexivity. Qed.

Example S2_side_rotation :
  apply_to_side (Build 90 false false) top = Ok right /\
  apply_to_side (Build 270 false false) top = Ok left /\
  apply_to_side (Build 0 true false) left = Ok right.
Proof. repeat split; reflexivity. Qed.

(** [inverse_side] undoes [apply_to_side] at each of the sixteen
    transforms. *)
Lemma inverse_side_apply_to_side (t : Transform.t) (s : Side) :
  t ∈ get_all_transforms true ->
  (s' <-! apply_to_side t s ;; inverse_side t s') = Ok s.
Proof.
  revert t. apply all_transforms_ind.
  repeat (apply Forall_cons; split); try apply Forall_nil; destruct s; reflexivity.
Qed.

End TransformLaws.

(** ** Rule propagation: the lookup of the target variant *)

Section TargetLookup.

Lemma add_rule_tiles (a : Atlas.t) tile_id side neighbor_id weight auto :
  Atlas.tiles (fst (Atlas.add_rule a tile_id side neighbor_id weight auto)) = Atlas.tiles a.
Proof.
  unfold Atlas.add_rule.
  destruct (list_find _ _) as [[i r]|]; reflexivity.
Qed.

Lemma propagate_rule_step_tiles (a : Atlas.t) rule st tg tvs sv :
  Atlas.tiles (final_state (propagate_rule_step a rule st tg tvs sv)) = Atlas.tiles a.
Proof.
  unfold propagate_rule_step.
  destruct (Atlas.rules a !! rule) as [r|]; [|reflexivity].
  destruct (decide _); [reflexivity|].
  destruct (_transform_side_between _ _ _) as [ns|e]; [|reflexivity].
  destruct (find_target_variant _ _) as [tv|]; [|reflexivity].
  pose proof (add_rule_tiles a (Tile.id sv) ns (Tile.id tv) (AdjacencyRule.weight r) true) as H.
  destruct (Atlas.add_rule _ _ _ _ _ _) as [a1 nr]. exact H.
Qed.

Lemma propagate_rule_loop_tiles (svs : list Tile.t) :
  forall (a : Atlas.t) rule st tg tvs new_rules,
  Atlas.tiles (final_state (propagate_rule_loop a rule st tg tvs svs new_rules)) = Atlas.tiles a.
Proof.
  induction svs as [|sv svs IH]; intros a rule st tg tvs new_rules; simpl; [reflexivity|].
  pose proof (propagate_rule_step_tiles a rule st tg tvs sv) as H.
  destruct (propagate_rule_step a rule st tg tvs sv) as [a1 added|a1 e]; simpl in *.
  - rewrite IH. exact H.
  - exact H.
Qed.

Lemma propagate_rule_tiles (a : Atlas.t) (rule : nat) :
  Atlas.tiles (final_state (propagate_rule a rule)) = Atlas.tiles a.
Proof.
  unfold propagate_rule.
  destruct (Atlas.rules a !! rule) as [r|]; [|reflexivity].
  destruct (Atlas.get_tile a _) as [src|]; [|reflexivity].
  destruct (Atlas.get_tile a _) as [tgt|]; [|reflexivity].
  apply propagate_rule_loop_tiles.
Qed.

Lemma find_target_variant_Some tvs target tv :
  find_target_variant tvs target = Some tv ->
  tv ∈ tvs /\ Tile.transform tv = target.
Proof.
  unfold find_target_variant. intros H.
  destruct (list_find _ tvs) as [[i tv']|] eqn:E; simpl in H; [|discriminate].
  injection H as ->.
  apply list_find_Some in E as (Hi & (Hr & Hx & Hy) & _).
  split.
  - eapply list_elem_of_lookup_2; eauto.
  - destruct target as [r fx fy]. unfold Tile.transform. simpl in *. congruence.
Qed.





End TargetLookup.

(** ** The engine: what propagation does to the grid *)

Section PropagateSteps.

Import WFCEngine.

Lemma size_1_elements (X : gset string) (tile : string) (l : list string) :
  size X = 1%nat -> elements X = tile :: l -> X = {[tile]}.
Proof.
  intros Hs He.
  apply size_1_elem_of in Hs as [x Hx]. apply leibniz_equiv in Hx. subst X.
  rewrite elements_singleton in He. congruence.
Qed.

Lemma _propagate_loop_steps (fuel : nat) :
  forall s queue o,
    _propagate_loop fuel s queue = Some o -> rtc propagate_step s (final_state o).
Proof.
  induction fuel as [|fuel IH]; intros s queue o H; simpl in H; [discriminate|].
  destruct queue as [|[x y] queue'].
  { injection H as <-. apply rtc_refl. }
  destruct (cells s !! (x, y)) as [cell|] eqn:Hc; [|eauto].
  destruct (CellState.is_collapsed cell) eqn:Hcol; [eauto|].
  assert (Hnone : CellState.collapsed_tile cell = None).
  { unfold CellState.is_collapsed in Hcol. destruct (CellState.collapsed_tile cell); congruence. }
  destruct (atlas s) as [a|] eqn:Ha.
  2:{ injection H as <-. apply rtc_refl. }
  destruct (decide _) as [Hchg|]; [|eauto].
  destruct (decide (size _ = 0%nat)).
  { injection H as <-. apply rtc_once. simpl. eapply ps_update; eauto. }
  destruct (decide (size _ = 1%nat)) as [H1|].
  - destruct (elements _) as [|tile l] eqn:He.
    + injection H as <-. apply rtc_once. simpl. eapply ps_update; eauto.
    + eapply rtc_l; [|eapply IH; exact H].
      eapply (ps_collapse s x y cell a tile); eauto using size_1_elements.
  - eapply rtc_l; [|eapply IH; exact H].
    eapply ps_update; eauto.
Qed.

Lemma _propagate_steps (s : t) (x y : Z) :
  rtc propagate_step s (final_state (_propagate s x y)).
Proof.
  unfold _propagate.
  destruct (_propagate_loop _ _ _) as [o|] eqn:E.
  - eapply _propagate_loop_steps; eauto.
  - apply rtc_refl.
Qed.

(** The parts of the engine that a step leaves alone. *)
Lemma propagate_step_frame (s s' : t) :
  propagate_step s s' ->
  atlas s' = atlas s /\ width s' = width s /\ height s' = height s /\
  _state s' = _state s /\ _total_cells s' = _total_cells s /\
  timer_active s' = timer_active s /\
  dom (cells s') = dom (cells s) /\
  (exists evs, emitted s' = emitted s ++ evs).
Proof.
  intros H. destruct H as [s x y cell a Hc Hn Ha|s x y cell a tile Hc Hn Ha Hv]; simpl.
  - repeat split; auto.
    + apply dom_insert_lookup_L. eauto.
    + eexists. reflexivity.
  - repeat split; auto.
    + rewrite insert_insert_eq. apply dom_insert_lookup_L. eauto.
    + eexists. rewrite <- !app_assoc. reflexivity.
Qed.

Lemma propagate_steps_frame (s s' : t) :
  rtc propagate_step s s' ->
  atlas s' = atlas s /\ width s' = width s /\ height s' = height s /\
  _state s' = _state s /\ _total_cells s' = _total_cells s /\
  timer_active s' = timer_active s /\
  dom (cells s') = dom (cells s) /\
  (exists evs, emitted s' = emitted s ++ evs).
Proof.
  induction 1 as [s|s s1 s2 H1 _ IH].
  - repeat split; auto. exists []. rewrite app_nil_r. reflexivity.
  - apply propagate_step_frame in H1.
    destruct H1 as (-> & -> & -> & -> & -> & -> & -> & [evs1 ->]) in IH.
    destruct IH as (? & ? & ? & ? & ? & ? & ? & [evs2 ?]).
    repeat split; auto. exists (evs1 ++ evs2). rewrite app_assoc. auto.
Qed.

Lemma propagate_step_inv (s s' : t) :
  propagate_step s s' -> grid_inv s -> grid_inv s'.
Proof.
  intros H Hinv.
  assert (Hcell : forall pos c' c0,
             cell_inv c' ->
             cells s !! pos = Some c0 ->
             forall q c, <[pos := c']> (cells s) !! q = Some c -> cell_inv c).
  { intros pos c' c0 Hc' _ q c Hq.
    destruct (decide (pos = q)) as [->|Hne].
    - rewrite lookup_insert_eq in Hq. congruence.
    - rewrite lookup_insert_ne in Hq by auto. eauto. }
  destruct H as [s x y cell a Hc Hn Ha|s x y cell a tile Hc Hn Ha Hv];
    intros q c Hq; simpl in Hq.
  - eapply Hcell; [|exact Hc|exact Hq].
    destruct (Hinv _ _ Hc) as [_ Hl]. split; simpl.
    + rewrite Hn. discriminate.
    + exact Hl.
  - rewrite insert_insert_eq in Hq.
    eapply Hcell; [|exact Hc|exact Hq].
    destruct (Hinv _ _ Hc) as [_ Hl]. split; simpl.
    + intros tile' [= <-]. exact Hv.
    + eauto.
Qed.

Lemma propagate_steps_inv (s s' : t) :
  rtc propagate_step s s' -> grid_inv s -> grid_inv s'.
Proof. induction 1; eauto using propagate_step_inv. Qed.

End PropagateSteps.

(** ** The engine: initialisation *)

Section Initialize.

Import WFCEngine.

Lemma elem_of_positions (w h x y : Z) :
  (x, y) ∈ positions w h <-> 0 <= x < w /\ 0 <= y < h.
Proof.
  unfold positions. rewrite list_elem_of_bind. split.
  - intros (y' & Hx & Hy). apply list_elem_of_bind in Hx as (x' & Hp & Hx).
    apply list_elem_of_singleton in Hp. injection Hp as -> ->.
    apply elem_of_seqZ in Hx. apply elem_of_seqZ in Hy. lia.
  - intros [Hx Hy]. exists y. split.
    + apply list_elem_of_bind. exists x. split; [apply list_elem_of_singleton; auto|].
      apply elem_of_seqZ. lia.
    + apply elem_of_seqZ. lia.
Qed.

Lemma foldl_insert_lookup (mk : Z -> Z -> CellState.t) (l : list (Z * Z)) :
  forall (m : gmap (Z * Z) CellState.t) (x y : Z),
    foldl (fun c '(x, y) => <[(x, y) := mk x y]> c) m l !! (x, y) =
    if decide ((x, y) ∈ l) then Some (mk x y) else m !! (x, y).
Proof.
  induction l as [|[x0 y0] l IH]; intros m x y; simpl.
  - reflexivity.
  - rewrite IH.
    destruct (decide ((x, y) ∈ l)) as [Hin|Hnin].
    + rewrite decide_True by (apply elem_of_cons; auto). reflexivity.
    + destruct (decide ((x, y) = (x0, y0))) as [[= -> ->]|Hne].
      * rewrite lookup_insert_eq, decide_True by (apply elem_of_cons; auto). reflexivity.
      * rewrite lookup_insert_ne by congruence.
        rewrite decide_False; [reflexivity|].
        intros [?|?]%elem_of_cons; congruence.
Qed.

Lemma set_state_cells (s : t) (v : EngineState) : cells (set_state s v) = cells s.
Proof. unfold set_state. destruct (decide _); reflexivity. Qed.

Lemma set_state_state (s : t) (v : EngineState) : state (set_state s v) = v.
Proof.
  unfold set_state, state. destruct (decide _) as [|H]; simpl; [reflexivity|].
  destruct (decide (_state s = v)); [auto|contradiction].
Qed.

Lemma set_state_atlas (s : t) (v : EngineState) : atlas (set_state s v) = atlas s.
Proof. unfold set_state. destruct (decide _); reflexivity. Qed.

Lemma set_state_width (s : t) (v : EngineState) : width (set_state s v) = width s.
Proof. unfold set_state. destruct (decide _); reflexivity. Qed.

Lemma set_state_height (s : t) (v : EngineState) : height (set_state s v) = height s.
Proof. unfold set_state. destruct (decide _); reflexivity. Qed.

Lemma set_state_frame (s : t) (v : EngineState) :
  atlas (set_state s v) = atlas s /\ width (set_state s v) = width s /\
  height (set_state s v) = height s /\
  _collapsed_count (set_state s v) = _collapsed_count s /\
  _total_cells (set_state s v) = _total_cells s.
Proof. unfold set_state. destruct (decide _); simpl; auto. Qed.

(** After [initialize] the grid has a cell exactly at the positions
    inside the bounds, each with every enabled tile possible. *)
Lemma initialize_cells (e : t) (a : TileAtlas.t) (w h x y : Z) :
  cells (initialize e a w h) !! (x, y) =
  if decide (0 <= x < w /\ 0 <= y < h)
  then Some (CellState.Build x y (TileAtlas.get_enabled_tile_ids a) None false)
  else None.
Proof.
  unfold initialize. simpl. rewrite set_state_cells. simpl.
  rewrite (foldl_insert_lookup
             (fun x y => CellState.Build x y (TileAtlas.get_enabled_tile_ids a) None false)).
  destruct (decide ((x, y) ∈ positions w h)) as [H|H];
    rewrite elem_of_positions in H.
  - rewrite decide_True by auto. reflexivity.
  - rewrite decide_False by auto. apply lookup_empty.
Qed.

Lemma initialize_frame (e : t) (a : TileAtlas.t) (w h : Z) :
  atlas (initialize e a w h) = Some a /\ width (initialize e a w h) = w /\
  height (initialize e a w h) = h /\ state (initialize e a w h) = IDLE.
Proof.
  unfold initialize. simpl. unfold state. simpl.
  repeat split; try apply set_state_frame.
  apply set_state_state.
Qed.

Lemma initialize_inv (e : t) (a : TileAtlas.t) (w h : Z) : grid_inv (initialize e a w h).
Proof.
  intros [x y] c Hc. rewrite initialize_cells in Hc.
  destruct (decide _); [|discriminate]. injection Hc as <-.
  split; simpl; [discriminate|discriminate].
Qed.

Lemma initialize_full (e : t) (a : TileAtlas.t) (w h : Z) : grid_full (initialize e a w h).
Proof.
  intros x y Hx Hy. destruct (initialize_frame e a w h) as (_ & Hw & Hh & _).
  rewrite Hw in Hx. rewrite Hh in Hy.
  rewrite initialize_cells, decide_True by auto. eauto.
Qed.

End Initialize.

(** ** The engine: locking and unlocking *)

Section LockUnlock.

Import WFCEngine.

Lemma _propagate_loop_returns (fuel : nat) :
  forall s queue o a,
    atlas s = Some a ->
    _propagate_loop fuel s queue = Some o -> exists s', o = Returns s' tt.
Proof.
  induction fuel as [|fuel IH]; intros s queue o a Ha H; simpl in H; [discriminate|].
  destruct queue as [|[x y] queue'].
  { injection H as <-. eauto. }
  destruct (cells s !! (x, y)) as [cell|] eqn:Hc; [|eauto].
  destruct (CellState.is_collapsed cell) eqn:Hcol; [eauto|].
  rewrite Ha in H.
  destruct (decide _) as [Hchg|]; [|eauto].
  destruct (decide (size _ = 0%nat)).
  { injection H as <-. eauto. }
  destruct (decide (size _ = 1%nat)) as [H1|].
  - destruct (elements _) as [|tile l] eqn:He.
    + apply size_1_elem_of in H1 as [z Hz]. apply leibniz_equiv in Hz.
      rewrite Hz, elements_singleton in He. discriminate.
    + eapply IH; [|exact H]. exact Ha.
  - eapply IH; [|exact H]. exact Ha.
Qed.

Lemma _propagate_returns (s : t) (x y : Z) (a : TileAtlas.t) :
  atlas s = Some a -> exists s', _propagate s x y = Returns s' tt.
Proof.
  intros Ha. unfold _propagate.
  destruct (_propagate_loop _ _ _) as [o|] eqn:E; [|eauto].
  eapply _propagate_loop_returns; eauto.
Qed.

Lemma unlock_repropagate_steps (nbrs : list (Z * Z)) :
  forall s, rtc propagate_step s (final_state (unlock_repropagate s nbrs)).
Proof.
  induction nbrs as [|[nx ny] rest IH]; intros s; simpl; [apply rtc_refl|].
  destruct (cells s !! (nx, ny)) as [nb|]; [|apply rtc_refl].
  destruct (CellState.is_collapsed nb); [|apply IH].
  pose proof (_propagate_steps s nx ny) as H.
  destruct (_propagate s nx ny) as [s1 []|s1 e]; simpl in *; [|exact H].
  etrans; [exact H|apply IH].
Qed.

Lemma elem_of_get_neighbors (s : t) (x y nx ny : Z) :
  (nx, ny) ∈ _get_neighbors s x y -> 0 <= nx < width s /\ 0 <= ny < height s.
Proof.
  unfold _get_neighbors. rewrite list_elem_of_omap.
  intros ([dx dy] & _ & H). destruct (decide _); [|discriminate].
  injection H as <- <-. auto.
Qed.

Lemma unlock_repropagate_returns (nbrs : list (Z * Z)) :
  forall s a,
    atlas s = Some a ->
    (forall nx ny, (nx, ny) ∈ nbrs -> (nx, ny) ∈ dom (cells s)) ->
    exists s', unlock_repropagate s nbrs = Returns s' tt.
Proof.
  induction nbrs as [|[nx ny] rest IH]; intros s a Ha Hin; simpl; [eauto|].
  assert (Hd : (nx, ny) ∈ dom (cells s)) by (apply Hin; left).
  apply elem_of_dom in Hd as [nb Hnb]. rewrite Hnb.
  assert (Hrest : forall s1, atlas s1 = atlas s -> dom (cells s1) = dom (cells s) ->
                             exists s', unlock_repropagate s1 rest = Returns s' tt).
  { intros s1 Ha1 Hd1. apply (IH s1 a); [congruence|].
    intros nx' ny' H'. rewrite Hd1. apply Hin. right. exact H'. }
  destruct (CellState.is_collapsed nb); [|apply Hrest; reflexivity].
  destruct (_propagate_returns s nx ny a Ha) as [s1 Hs1].
  pose proof (_propagate_steps s nx ny) as Hst. rewrite Hs1 in *. simpl in Hst.
  apply propagate_steps_frame in Hst as (? & _ & _ & _ & _ & _ & ? & _).
  apply Hrest; auto.
Qed.

(** C10: for a cell of the grid, the statements of [lock_cell] before
    the propagation leave the collapsed count as it was, so that the
    [progress_updated] that [lock_cell] emits after its
    [cell_collapsed] carries the count from before the call. *)
Theorem lock_cell_count_not_incremented
    (e : t) (x y : Z) (tile_id : string) (cell : CellState.t) :
  cells e !! (x, y) = Some cell ->
  let e1 := lock_cell_collapse e x y cell tile_id in
  lock_cell e x y tile_id = _propagate e1 x y /\
  _collapsed_count e1 = _collapsed_count e /\
  emitted e1 = emitted e ++ [cell_collapsed x y tile_id;
                             progress_updated (_collapsed_count e) (_total_cells e)] /\
  exists evs,
    emitted (final_state (lock_cell e x y tile_id)) =
    emitted e ++ [cell_collapsed x y tile_id;
                  progress_updated (_collapsed_count e) (_total_cells e)] ++ evs.
Proof.
  intros Hc e1.
  assert (Hguard :
    negb (CellState.is_collapsed
            (CellState.set_possibilities
               (CellState.set_locked (CellState.set_collapsed_tile cell (Some tile_id)) true)
               {[tile_id]}))
    || bool_decide (CellState.collapsed_tile
            (CellState.set_possibilities
               (CellState.set_locked (CellState.set_collapsed_tile cell (Some tile_id)) true)
               {[tile_id]}) <> Some tile_id) = false).
  { simpl. apply bool_decide_eq_false. auto. }
  assert (Hcount : _collapsed_count e1 = _collapsed_count e).
  { subst e1. unfold lock_cell_collapse. rewrite Hguard. reflexivity. }
  assert (Hemit : emitted e1 = emitted e ++ [cell_collapsed x y tile_id;
                    progress_updated (_collapsed_count e) (_total_cells e)]).
  { subst e1. unfold lock_cell_collapse. rewrite Hguard. simpl.
    rewrite <- app_assoc. reflexivity. }
  assert (Hlock : lock_cell e x y tile_id = _propagate e1 x y).
  { unfold lock_cell. rewrite Hc. reflexivity. }
  repeat split; auto.
  rewrite Hlock.
  destruct (propagate_steps_frame _ _ (_propagate_steps e1 x y))
    as (_ & _ & _ & _ & _ & _ & _ & [evs Hevs]).
  exists evs. rewrite Hevs, Hemit, <- app_assoc. reflexivity.
Qed.

Lemma lock_cell_count_not_incremented_witness :
  let e := initialize init atlas_S5 2 1 in
  exists evs,
    emitted (final_state (lock_cell e 0 0 "Y")) =
    emitted e ++ [cell_collapsed 0 0 "Y";
                  progress_updated (_collapsed_count e) (_total_cells e)] ++ evs.
Proof.
  intros e.
  apply (lock_cell_count_not_incremented e 0 0 "Y"
           (CellState.Build 0 0 (TileAtlas.get_enabled_tile_ids atlas_S5) None false)).
  subst e. rewrite initialize_cells. reflexivity.
Defined.

End LockUnlock.

(** ** Precondition failures *)

Section Preconditions.

Import WFCEngine.

(** C8, the claim as stated fails: unlocking the cell (5,5) of a grid of
    two cells raises nothing; the call returns and the engine is as
    before. *)
Lemma unlock_out_of_bounds_returns :
  let e := initialize init atlas_S5 2 1 in
  cells e !! (5, 5) = None /\ unlock_cell e 5 5 = Returns e tt.
Proof.
  intros e. assert (H : cells e !! (5, 5) = None).
  { subst e. rewrite initialize_cells. reflexivity. }
  split; [exact H|]. unfold unlock_cell. rewrite H. reflexivity.
Qed.

(** C8, amended: removing the identity variant of a base tile raises an
    error and leaves the atlas unchanged; unlocking a cell outside the
    grid raises nothing: the call returns and leaves the engine
    unchanged. *)
Theorem precondition_failures :
  (forall (atlas : Atlas.t) (tile_id : string) (tile : Tile.t),
      Atlas.get_tile atlas tile_id = Some tile ->
      Tile.is_original tile = true ->
      Atlas.remove_tile atlas tile_id = Raises atlas ValueError) /\
  (forall (e : t) (x y : Z),
      cells e !! (x, y) = None -> unlock_cell e x y = Returns e tt) /\
  (forall (e : t) (a : TileAtlas.t) (w h x y : Z),
      ~ (0 <= x < w /\ 0 <= y < h) ->
      unlock_cell (initialize e a w h) x y = Returns (initialize e a w h) tt).
Proof.
  split; [|split].
  - intros atlas tile_id tile Hget Horig.
    unfold Atlas.remove_tile. rewrite Hget, Horig. reflexivity.
  - intros e x y H. unfold unlock_cell. rewrite H. reflexivity.
  - intros e a w h x y H. unfold unlock_cell.
    rewrite initialize_cells, decide_False by exact H. reflexivity.
Qed.

Lemma precondition_failures_witness :
  Atlas.remove_tile atlas_fy "A" = Raises atlas_fy ValueError /\
  unlock_cell (initialize init atlas_S5 2 1) 2 0 =
    Returns (initialize init atlas_S5 2 1) tt.
Proof.
  split.
  - apply (proj1 precondition_failures atlas_fy "A" (Tile.Build "A" "A" 0 false false true));
      reflexivity.
  - apply (proj2 (proj2 precondition_failures)). lia.
Defined.

End Preconditions.

(** ** Unlocking in a terminal state *)

Section UnlockRecovery.

Import WFCEngine.

(** C7, the claim as stated fails.  On the grid of three cells, in the
    CONTRADICTION state, unlocking the cell (2,0), which is neither
    collapsed nor empty, leaves the state as it is.  In scenario S5,
    after [unlock_cell(0,0)] the cell (1,0) still has no possibility
    left. *)
Lemma unlock_cell_not_always_idle :
  (state grid_S5_wide = CONTRADICTION /\
   is_Some (cells grid_S5_wide !! (2, 0)) /\
   state (final_state (unlock_cell grid_S5_wide 2 0)) = CONTRADICTION) /\
  (state grid_S5 = CONTRADICTION /\
   CellState.possibilities <$> cells (final_state (unlock_cell grid_S5 0 0)) !! (1, 0)
     = Some ∅ /\
   TileAtlas.get_enabled_tile_ids atlas_S5 <> ∅).
Proof.
  split; [split; [|split]|split; [|split]].
  - vm_compute. reflexivity.
  - vm_compute. eauto.
  - vm_compute. reflexivity.
  - vm_compute. reflexivity.
  - vm_compute. reflexivity.
  - vm_compute. discriminate.
Qed.

(** C7, amended: for a cell of the grid that is collapsed or has no
    possibility left, [unlock_cell] in the state FINISHED or
    CONTRADICTION moves the engine to IDLE, and on a grid that has all
    its cells the call returns; for a cell that is neither, the state
    stays as it is.  From the contradiction of scenario S5,
    [unlock_cell(0,0)] yields the state IDLE with the cell (0,0) back at
    the full set of enabled tiles. *)
Theorem unlock_cell_recovers :
  (forall (e : t) (x y : Z) (cell : CellState.t) (a : TileAtlas.t),
      cells e !! (x, y) = Some cell ->
      atlas e = Some a ->
      CellState.is_collapsed cell = true \/ CellState.possibilities cell = ∅ ->
      state e = FINISHED \/ state e = CONTRADICTION ->
      state (final_state (unlock_cell e x y)) = IDLE /\
      (grid_full e -> exists e', unlock_cell e x y = Returns e' tt /\ state e' = IDLE)) /\
  (forall (e : t) (x y : Z) (cell : CellState.t),
      cells e !! (x, y) = Some cell ->
      CellState.is_collapsed cell = false ->
      CellState.possibilities cell <> ∅ ->
      state (final_state (unlock_cell e x y)) = state e) /\
  (state grid_S5 = CONTRADICTION /\
   state (final_state (unlock_cell grid_S5 0 0)) = IDLE /\
   CellState.possibilities <$> cells (final_state (unlock_cell grid_S5 0 0)) !! (0, 0)
     = Some (TileAtlas.get_enabled_tile_ids atlas_S5)).
Proof.
  split; [|split].
  - intros e x y cell a Hc Ha Hcell Hst.
    assert (Hidle : forall o, o = unlock_cell e x y -> state (final_state o) = IDLE /\
              (grid_full e -> exists e', o = Returns e' tt)).
    { intros o ->. unfold unlock_cell. rewrite Hc, Ha.
      set (s5 := emit (emit _ (cell_updated x y)) _).
      assert (Hs5 : state s5 = IDLE /\ atlas s5 = Some a /\
                    dom (cells s5) = dom (cells e) /\
                    width s5 = width e /\ height s5 = height e).
      { subst s5. unfold state. simpl.
        assert (Hor : CellState.is_collapsed cell
                      || bool_decide (size (CellState.possibilities cell) = 0%nat) = true).
        { destruct Hcell as [->| ->]; [reflexivity|].
          rewrite size_empty, bool_decide_eq_true_2 by reflexivity.
          apply orb_true_r. }
        rewrite Hor.
        assert (Hdom : dom (<[(x, y) :=
                         CellState.set_possibilities
                           (CellState.set_collapsed_tile (CellState.set_locked cell false) None)
                           (TileAtlas.get_enabled_tile_ids a)]> (cells e)) = dom (cells e)).
        { apply dom_insert_lookup_L. eauto. }
        destruct (CellState.is_collapsed cell); simpl;
          (rewrite bool_decide_eq_true_2 by (unfold state in *; simpl; exact Hst));
          (split; [apply set_state_state|]);
          rewrite set_state_cells; simpl;
          repeat split;
          rewrite ?set_state_atlas, ?set_state_width, ?set_state_height; simpl; auto. }
      destruct Hs5 as (Hs & Ha5 & Hd5 & Hw5 & Hh5).
      pose proof (unlock_repropagate_steps (_get_neighbors s5 x y) s5) as Hsteps.
      apply propagate_steps_frame in Hsteps as (_ & _ & _ & Hst' & _).
      split; [unfold state in *; congruence|].
      intros Hfull.
      apply (unlock_repropagate_returns _ s5 a Ha5).
      intros nx ny Hn. apply elem_of_get_neighbors in Hn as [Hx Hy].
      rewrite Hd5. apply elem_of_dom. apply Hfull; congruence. }
    destruct (Hidle _ eq_refl) as [H1 H2]. split; [exact H1|].
    intros Hfull. destruct (H2 Hfull) as [e' He']. exists e'. split; [exact He'|].
    rewrite He' in H1. exact H1.
  - intros e x y cell Hc Hcol Hne.
    unfold unlock_cell. rewrite Hc.
    destruct (atlas e) as [a|]; [|reflexivity].
    rewrite Hcol. simpl.
    rewrite bool_decide_eq_false_2.
    2:{ intros H. apply size_empty_inv in H. apply leibniz_equiv in H. auto. }
    set (s5 := emit (emit _ (cell_updated x y)) _).
    pose proof (unlock_repropagate_steps (_get_neighbors s5 x y) s5) as Hsteps.
    apply propagate_steps_frame in Hsteps as (_ & _ & _ & Hst' & _).
    unfold state. rewrite Hst'. reflexivity.
  - split; [|split]; vm_compute; reflexivity.
Qed.

Lemma unlock_cell_recovers_witness :
  state (final_state (unlock_cell grid_S5 0 0)) = IDLE /\
  state (final_state (unlock_cell grid_S5_wide 2 0)) = state grid_S5_wide.
Proof.
  split.
  - refine (proj1 (proj1 unlock_cell_recovers grid_S5 0 0
              (CellState.Build 0 0 ({["Y"]} : gset string) (Some "Y") true) atlas_S5
              _ _ _ _)).
    + vm_compute. reflexivity.
    + reflexivity.
    + left. reflexivity.
    + right. vm_compute. reflexivity.
  - apply (proj1 (proj2 unlock_cell_recovers) grid_S5_wide 2 0
             (CellState.Build 2 0 (TileAtlas.get_enabled_tile_ids atlas_S5) None false)).
    + vm_compute. reflexivity.
    + reflexivity.
    + vm_compute. discriminate.
Defined.

End UnlockRecovery.

(** ** The cell invariant *)

Section CellInvariant.

Import WFCEngine.

Lemma set_cell_inv (s : t) (pos : Z * Z) (c : CellState.t) :
  grid_inv s -> cell_inv c -> grid_inv (set_cell s pos c).
Proof.
  intros Hs Hc q c' Hq. simpl in Hq.
  destruct (decide (pos = q)) as [->|Hne].
  - rewrite lookup_insert_eq in Hq. congruence.
  - rewrite lookup_insert_ne in Hq by auto. eauto.
Qed.

Lemma grid_inv_cells (s s' : t) : cells s' = cells s -> grid_inv s -> grid_inv s'.
Proof. intros H Hs q c Hq. rewrite H in Hq. eauto. Qed.

Lemma _propagate_inv (s : t) (x y : Z) :
  grid_inv s -> grid_inv (final_state (_propagate s x y)).
Proof. apply propagate_steps_inv, _propagate_steps. Qed.

Lemma lock_cell_inv (s : t) (x y : Z) (tile_id : string) :
  grid_inv s -> grid_inv (final_state (lock_cell s x y tile_id)).
Proof.
  intros Hs. unfold lock_cell.
  destruct (cells s !! (x, y)) as [cell|] eqn:Hc; [|exact Hs].
  apply _propagate_inv.
  unfold lock_cell_collapse.
  eapply grid_inv_cells;
    [|apply (set_cell_inv s (x, y)
               (CellState.set_possibilities
                  (CellState.set_locked (CellState.set_collapsed_tile cell (Some tile_id)) true)
                  {[tile_id]}) Hs)].
  - destruct (_ || _); reflexivity.
  - split; simpl; [intros tile [= <-]; reflexivity|eauto].
Qed.

Lemma unlock_cell_inv (s : t) (x y : Z) :
  grid_inv s -> grid_inv (final_state (unlock_cell s x y)).
Proof.
  intros Hs. unfold unlock_cell.
  destruct (cells s !! (x, y)) as [cell|] eqn:Hc; [|exact Hs].
  destruct (atlas s) as [a|].
  - eapply propagate_steps_inv; [apply unlock_repropagate_steps|].
    eapply grid_inv_cells;
      [|apply (set_cell_inv s (x, y)
                 (CellState.set_possibilities
                    (CellState.set_collapsed_tile (CellState.set_locked cell false) None)
                    (TileAtlas.get_enabled_tile_ids a)) Hs)].
    + simpl.
      destruct (CellState.is_collapsed cell); simpl;
        destruct (bool_decide (size (CellState.possibilities cell) = 0%nat)); simpl;
        try destruct (bool_decide _); rewrite ?set_state_cells; reflexivity.
    + split; simpl; discriminate.
  - simpl. apply set_cell_inv; [exact Hs|]. split; simpl; discriminate.
Qed.

Lemma contradiction_at_cells (s : t) (x y : Z) : cells (contradiction_at s x y) = cells s.
Proof. unfold contradiction_at, emit. simpl. apply (set_state_cells (timer_stop s)). Qed.

Lemma _step_inv (s : t) (r1 r2 : nat) :
  grid_inv s -> grid_inv (final_state (_step s r1 r2)).
Proof.
  intros Hs. unfold _step.
  destruct (scan _ _ _) as [[x y]|candidates].
  { simpl. eapply grid_inv_cells; [apply contradiction_at_cells|exact Hs]. }
  destruct candidates as [|c0 cs].
  { eapply grid_inv_cells; [|exact Hs]. apply (set_state_cells (timer_stop s)). }
  destruct (random_choice r1 _) as [[x y]|]; [|exact Hs].
  destruct (cells s !! (x, y)) as [cell|] eqn:Hc; [|exact Hs].
  destruct (atlas s) as [a|]; [|exact Hs].
  destruct (decide _).
  { simpl. eapply grid_inv_cells; [apply contradiction_at_cells|exact Hs]. }
  destruct (random_choice r2 _) as [tile_id|]; [|exact Hs].
  apply _propagate_inv.
  eapply grid_inv_cells;
    [|apply (set_cell_inv s (x, y)
               (CellState.set_possibilities
                  (CellState.set_collapsed_tile cell (Some tile_id)) {[tile_id]}) Hs)].
  - reflexivity.
  - split; simpl; [intros tile [= <-]; reflexivity|eauto].
Qed.

Lemma reset_restore_inv (locked_cells : list ((Z * Z) * option string)) :
  forall s, grid_inv s -> grid_inv (final_state (reset_restore s locked_cells)).
Proof.
  induction locked_cells as [|[[x y] [tile_id|]] rest IH]; intros s Hs; simpl; auto.
  pose proof (lock_cell_inv s x y tile_id Hs) as H.
  destruct (lock_cell s x y tile_id) as [s1 []|s1 e]; simpl in *; auto.
Qed.

Lemma reset_inv (s : t) : grid_inv s -> grid_inv (final_state (reset s)).
Proof.
  intros Hs. unfold reset. destruct (atlas s) as [a|]; [|exact Hs].
  apply reset_restore_inv, initialize_inv.
Qed.

Lemma clear_all_inv (s : t) : grid_inv s -> grid_inv (clear_all s).
Proof.
  intros Hs. unfold clear_all. destruct (atlas s) as [a|]; [|exact Hs].
  apply initialize_inv.
Qed.

(** C9: each operation of the engine keeps the invariant of the cells:
    a cell with a collapsed tile has exactly that tile as its
    possibilities, and a locked cell has a collapsed tile.  The
    invariant holds of the engine as the operation leaves it, whether
    it returns or raises. *)
Theorem operations_preserve_cell_invariant :
  (forall s a w h, grid_inv (initialize s a w h)) /\
  (forall s x y tile_id, grid_inv s -> grid_inv (final_state (lock_cell s x y tile_id))) /\
  (forall s x y, grid_inv s -> grid_inv (final_state (unlock_cell s x y))) /\
  (forall s r1 r2, grid_inv s -> grid_inv (final_state (_step s r1 r2))) /\
  (forall s x y, grid_inv s -> grid_inv (final_state (_propagate s x y))) /\
  (forall s, grid_inv s -> grid_inv (final_state (reset s))) /\
  (forall s, grid_inv s -> grid_inv (clear_all s)).
Proof.
  repeat apply conj.
  - apply initialize_inv.
  - apply lock_cell_inv.
  - apply unlock_cell_inv.
  - apply _step_inv.
  - apply _propagate_inv.
  - apply reset_inv.
  - apply clear_all_inv.
Qed.

Lemma operations_preserve_cell_invariant_witness :
  grid_inv (final_state (lock_cell (initialize init atlas_S5 2 1) 0 0 "Y")).
Proof.
  apply (proj1 (proj2 operations_preserve_cell_invariant)).
  apply (proj1 operations_preserve_cell_invariant).
Defined.

End CellInvariant.

(** ** The lookup tables of the solver's atlas *)

Section AdjacencyLookup.

Import TileAtlas.

Lemma index_rule_adjacency acc (r : Rule.t) tile side neighbor :
  in_adjacency (fst (index_rule acc r)) tile side neighbor <->
  in_adjacency (fst acc) tile side neighbor \/
  (Rule.tile r = tile /\ Rule.side r = side /\ Rule.neighbor r = neighbor).
Proof.
  destruct acc as [adj rev]. unfold index_rule, in_adjacency. simpl.
  destruct (decide (Rule.tile r = tile)) as [<-|Hne].
  2:{ rewrite lookup_alter_ne by auto.
      assert (Heq : match adj !! Rule.tile r with
                    | Some _ => adj
                    | None => <[Rule.tile r := fun _ => ∅]> adj
                    end !! tile = adj !! tile).
      { destruct (adj !! Rule.tile r); [reflexivity|]. apply lookup_insert_ne; auto. }
      rewrite Heq. split; [auto|]. intros [?|(? & _)]; [auto|contradiction]. }
  rewrite lookup_alter_eq.
  assert (Heq : match adj !! Rule.tile r with
                | Some _ => adj
                | None => <[Rule.tile r := fun _ => ∅]> adj
                end !! Rule.tile r = Some (default (fun _ => ∅) (adj !! Rule.tile r))).
  { destruct (adj !! Rule.tile r) eqn:E; simpl; [exact E|]. apply lookup_insert_eq. }
  rewrite Heq. simpl. split.
  - intros (sides & [= <-] & Hs).
    destruct (decide (side = Rule.side r)) as [->|Hs'].
    + destruct (decide (Rule.neighbor r = neighbor)) as [<-|Hn]; [auto|].
      rewrite lookup_insert_ne in Hs by auto.
      left. destruct (adj !! Rule.tile r) as [sd|]; simpl in Hs.
      * eauto.
      * rewrite lookup_empty in Hs. destruct Hs; discriminate.
    + left. destruct (adj !! Rule.tile r) as [sd|]; simpl in Hs.
      * eauto.
      * rewrite lookup_empty in Hs. destruct Hs; discriminate.
  - intros H. eexists. split; [reflexivity|]. simpl.
    destruct (decide (side = Rule.side r)) as [Hs'|Hs'].
    + subst side. destruct (decide (Rule.neighbor r = neighbor)) as [<-|Hn].
      * rewrite lookup_insert_eq. eauto.
      * rewrite lookup_insert_ne by auto.
        destruct H as [(sides & -> & Hs)|(_ & _ & ?)]; [exact Hs|contradiction].
    + destruct H as [(sides & -> & Hs)|(_ & ? & _)]; [exact Hs|congruence].
Qed.

Lemma index_rule_reverse acc (r : Rule.t) tile side neighbor :
  in_reverse (snd (index_rule acc r)) tile side neighbor <->
  in_reverse (snd acc) tile side neighbor \/
  (Rule.tile r = tile /\ Rule.side r = side /\ Rule.neighbor r = neighbor).
Proof.
  destruct acc as [adj rev]. unfold index_rule, in_reverse. simpl.
  destruct (decide (side = Rule.side r)) as [->|Hs].
  2:{ split; [auto|]. intros [?|(_ & ? & _)]; [auto|congruence]. }
  destruct (decide (Rule.neighbor r = neighbor)) as [<-|Hn].
  2:{ rewrite lookup_alter_ne by auto.
      assert (Heq : match rev (Rule.side r) !! Rule.neighbor r with
                    | Some _ => rev (Rule.side r)
                    | None => <[Rule.neighbor r := ∅]> (rev (Rule.side r))
                    end !! neighbor = rev (Rule.side r) !! neighbor).
      { destruct (rev (Rule.side r) !! Rule.neighbor r); [reflexivity|].
        apply lookup_insert_ne; auto. }
      rewrite Heq. split; [auto|]. intros [?|(_ & _ & ?)]; [auto|contradiction]. }
  rewrite lookup_alter_eq.
  assert (Heq : match rev (Rule.side r) !! Rule.neighbor r with
                | Some _ => rev (Rule.side r)
                | None => <[Rule.neighbor r := ∅]> (rev (Rule.side r))
                end !! Rule.neighbor r
                = Some (default ∅ (rev (Rule.side r) !! Rule.neighbor r))).
  { destruct (rev (Rule.side r) !! Rule.neighbor r) eqn:E; simpl; [exact E|].
    apply lookup_insert_eq. }
  rewrite Heq. simpl. split.
  - intros (tls & [= <-] & Ht). apply elem_of_union in Ht as [Ht|Ht].
    + left. destruct (rev (Rule.side r) !! Rule.neighbor r) as [tl|]; simpl in Ht.
      * eauto.
      * apply not_elem_of_empty in Ht. contradiction.
    + apply elem_of_singleton in Ht. auto.
  - intros H. eexists. split; [reflexivity|]. apply elem_of_union.
    destruct H as [(tls & -> & Ht)|(? & _ & _)].
    + left. exact Ht.
    + right. apply elem_of_singleton. auto.
Qed.

Lemma foldl_index_rule (rules0 : list Rule.t) :
  forall acc tile side neighbor,
    (in_adjacency (fst (foldl index_rule acc rules0)) tile side neighbor <->
     in_adjacency (fst acc) tile side neighbor \/ has_rule rules0 tile side neighbor) /\
    (in_reverse (snd (foldl index_rule acc rules0)) tile side neighbor <->
     in_reverse (snd acc) tile side neighbor \/ has_rule rules0 tile side neighbor).
Proof.
  unfold has_rule.
  induction rules0 as [|r rest IH]; intros acc tile side neighbor; simpl.
  - split; (split; [auto|]); intros [?|(r & Hr & _)]; auto; inversion Hr.
  - destruct (IH (index_rule acc r) tile side neighbor) as [IH1 IH2].
    rewrite IH1, IH2, index_rule_adjacency, index_rule_reverse.
    split; (split;
      [intros [[?|?]|(r' & Hr' & ?)];
         [auto|right; exists r; split; [left|auto]|right; exists r'; split; [right; auto|auto]]
      |intros [?|(r' & Hr' & ?)]; [auto|];
         apply elem_of_cons in Hr' as [->|Hr']; [auto|right; eauto]]).
Qed.

(** After [build_adjacency_lookup], a tile is a key of
    [get_valid_neighbors(tile, side)] exactly when the directed rule is
    among the rules, and the same for the reverse table. *)
Lemma get_valid_neighbors_built (a : TileAtlas.t) tile side neighbor :
  is_Some (get_valid_neighbors (build_adjacency_lookup a) tile side !! neighbor) <->
  has_rule (rules a) tile side neighbor.
Proof.
  unfold build_adjacency_lookup, get_valid_neighbors.
  destruct (foldl_index_rule (rules a) (∅, fun _ => ∅) tile side neighbor) as [H _].
  destruct (foldl index_rule _ _) as [adj rev]. simpl in *.
  split.
  - intros Hs. destruct (proj1 H) as [(sides & Hl & _)|Hr]; [|rewrite lookup_empty in Hl; discriminate|exact Hr].
    unfold in_adjacency. destruct (adj !! tile) as [sides|].
    + eauto.
    + rewrite lookup_empty in Hs. destruct Hs; discriminate.
  - intros Hr. destruct (proj2 H (or_intror Hr)) as (sides & -> & Hs). exact Hs.
Qed.

Lemma get_tiles_allowing_neighbor_built (a : TileAtlas.t) tile side neighbor :
  tile ∈ get_tiles_allowing_neighbor (build_adjacency_lookup a) side neighbor <->
  has_rule (rules a) tile side neighbor.
Proof.
  unfold build_adjacency_lookup, get_tiles_allowing_neighbor.
  destruct (foldl_index_rule (rules a) (∅, fun _ => ∅) tile side neighbor) as [_ H].
  destruct (foldl index_rule _ _) as [adj rev]. simpl in *.
  split.
  - intros Hs. destruct (proj1 H) as [(tls & Hl & _)|Hr]; [|rewrite lookup_empty in Hl; discriminate|exact Hr].
    unfold in_reverse. destruct (rev side !! neighbor) as [tls|]; simpl in Hs.
    + eauto.
    + apply not_elem_of_empty in Hs. contradiction.
  - intros Hr. destruct (proj2 H (or_intror Hr)) as (tls & -> & Hs). exact Hs.
Qed.

Lemma build_adjacency_lookup_rules (a : TileAtlas.t) :
  rules (build_adjacency_lookup a) = rules a.
Proof. unfold build_adjacency_lookup. destruct (foldl _ _ _). reflexivity. Qed.

End AdjacencyLookup.

(** ** The solver's constraint computation *)

Section Constraints.

Import WFCEngine.

(** A tile is in the recalculated valid set exactly when it is enabled
    and, for each collapsed neighbour, passes the two lookups. *)
Lemma elem_of_foldl_constrain (a : TileAtlas.t) (e : t) (l : list (Z * Z * Side)) :
  forall (V : gset string) (T : string),
    T ∈ foldl (constrain a e) V l <->
    T ∈ V /\
    forall nx ny side nb N,
      (nx, ny, side) ∈ l ->
      cells e !! (nx, ny) = Some nb ->
      CellState.collapsed_tile nb = Some N ->
      T ∈ dom (TileAtlas.get_valid_neighbors a N (opposite side)) /\
      T ∈ TileAtlas.get_tiles_allowing_neighbor a side N.
Proof.
  induction l as [|[[nx0 ny0] side0] l IH]; intros V T; simpl.
  - split; [intros H; split; [exact H|]|intros [H _]; exact H].
    intros ? ? ? ? ? Hin. inversion Hin.
  - rewrite IH. split.
    + intros [HV Hl].
      assert (HT : T ∈ V /\
                (forall nb N, cells e !! (nx0, ny0) = Some nb ->
                   CellState.collapsed_tile nb = Some N ->
                   T ∈ dom (TileAtlas.get_valid_neighbors a N (opposite side0)) /\
                   T ∈ TileAtlas.get_tiles_allowing_neighbor a side0 N)).
      { destruct (cells e !! (nx0, ny0)) as [nb0|]; [|split; [exact HV|discriminate]].
        destruct (CellState.collapsed_tile nb0) as [N0|] eqn:E.
        - apply elem_of_intersection in HV as [HV H2].
          apply elem_of_intersection in HV as [HV H1].
          split; [exact HV|]. intros nb N [= <-] HN. rewrite E in HN.
          injection HN as <-. auto.
        - split; [exact HV|]. intros nb N [= <-] HN. congruence. }
      destruct HT as [HT H0]. split; [exact HT|].
      intros nx ny side nb N Hin Hc HN.
      apply elem_of_cons in Hin as [[= -> -> ->]|Hin]; eauto.
    + intros [HV Hall]. split.
      * destruct (cells e !! (nx0, ny0)) as [nb0|] eqn:Hc0; [|exact HV].
        destruct (CellState.collapsed_tile nb0) as [N0|] eqn:E; [|exact HV].
        destruct (Hall nx0 ny0 side0 nb0 N0) as [H1 H2]; auto; [left|].
        apply elem_of_intersection. split; [|exact H2].
        apply elem_of_intersection. split; [exact HV|exact H1].
      * intros nx ny side nb N Hin. apply Hall. right. exact Hin.
Qed.

Lemma elem_of_valid_tiles (a : TileAtlas.t) (e : t) (x y : Z) (T : string) :
  T ∈ valid_tiles a e x y <->
  T ∈ TileAtlas.get_enabled_tile_ids a /\
  forall nx ny side nb N,
    (nx, ny, side) ∈ _get_neighbors_with_sides e x y ->
    cells e !! (nx, ny) = Some nb ->
    CellState.collapsed_tile nb = Some N ->
    T ∈ dom (TileAtlas.get_valid_neighbors a N (opposite side)) /\
    T ∈ TileAtlas.get_tiles_allowing_neighbor a side N.
Proof. apply elem_of_foldl_constrain. Qed.

(** The valid set of a cell depends on the grid only through its
    bounds and the collapsed tiles of the cells. *)
Lemma valid_tiles_ext (a : TileAtlas.t) (e e' : t) (x y : Z) :
  width e' = width e -> height e' = height e ->
  (forall nx ny side, (nx, ny, side) ∈ _get_neighbors_with_sides e x y ->
     (cells e' !! (nx, ny) ≫= CellState.collapsed_tile) =
     (cells e !! (nx, ny) ≫= CellState.collapsed_tile)) ->
  valid_tiles a e' x y = valid_tiles a e x y.
Proof.
  intros Hw Hh Hcells.
  assert (Hn : _get_neighbors_with_sides e' x y = _get_neighbors_with_sides e x y).
  { unfold _get_neighbors_with_sides. rewrite Hw, Hh. reflexivity. }
  unfold valid_tiles. rewrite Hn.
  generalize (TileAtlas.get_enabled_tile_ids a) as V.
  revert Hcells. generalize (_get_neighbors_with_sides e x y) as l.
  induction l as [|[[nx ny] side] l IH]; intros Hcells V; [reflexivity|].
  cbn [foldl].
  assert (Hc : constrain a e' V (nx, ny, side) = constrain a e V (nx, ny, side)).
  { unfold constrain. specialize (Hcells nx ny side (list_elem_of_here _ _)).
    destruct (cells e' !! (nx, ny)) as [c'|], (cells e !! (nx, ny)) as [c|];
      simpl in Hcells; rewrite ?Hcells; try reflexivity.
    - rewrite <- Hcells. reflexivity. }
  rewrite Hc. apply IH. intros nx' ny' side' H.
  apply (Hcells nx' ny' side'). apply list_elem_of_further. exact H.
Qed.

End Constraints.

Section SolverAdjacency.

Import WFCEngine.

Lemma valid_tiles_admissible (a0 : TileAtlas.t) (e : t) (x y : Z) (T : string) :
  T ∈ valid_tiles (TileAtlas.build_adjacency_lookup a0) e x y ->
  admissible (TileAtlas.rules a0) e x y T.
Proof.
  intros H nx ny side nb N Hin Hc HN.
  apply elem_of_valid_tiles in H as [_ H].
  destruct (H nx ny side nb N Hin Hc HN) as [H1 H2].
  apply elem_of_dom, get_valid_neighbors_built in H1.
  apply get_tiles_allowing_neighbor_built in H2. auto.
Qed.




Lemma elem_of_items (e : t) (pos : Z * Z) (c : CellState.t) :
  (pos, c) ∈ items e -> cells e !! pos = Some c.
Proof.
  unfold items. rewrite list_elem_of_omap. intros (p & _ & H).
  destruct (cells e !! p) as [c0|] eqn:E; simpl in H; [|discriminate].
  injection H as -> ->. exact E.
Qed.

Lemma scan_candidates (e : t) (cell_items : list ((Z * Z) * CellState.t)) :
  forall min_entropy candidates cs,
    (forall pc, pc ∈ cell_items -> pc ∈ items e) ->
    (forall p, p ∈ candidates ->
       exists c, cells e !! p = Some c /\ CellState.collapsed_tile c = None) ->
    scan cell_items min_entropy candidates = inr cs ->
    forall p, p ∈ cs -> exists c, cells e !! p = Some c /\ CellState.collapsed_tile c = None.
Proof.
  induction cell_items as [|[pos cell] rest IH]; intros me cands cs Hsub Hc Hscan; simpl in Hscan.
  { injection Hscan as <-. exact Hc. }
  assert (Hrest : forall pc, pc ∈ rest -> pc ∈ items e).
  { intros pc Hpc. apply Hsub. right. exact Hpc. }
  destruct (CellState.is_collapsed cell) eqn:Hcol; [eapply IH; eauto|].
  assert (Hpos : exists c, cells e !! pos = Some c /\ CellState.collapsed_tile c = None).
  { exists cell. split; [apply elem_of_items, Hsub; left|].
    unfold CellState.is_collapsed in Hcol.
    destruct (CellState.collapsed_tile cell); [discriminate|reflexivity]. }
  destruct (decide _); [discriminate|].
  destruct (match me with Some m => _ | None => true end).
  - eapply IH; [exact Hrest| |exact Hscan].
    intros p Hp. apply list_elem_of_singleton in Hp. subst p. exact Hpos.
  - destruct (bool_decide _).
    + eapply IH; [exact Hrest| |exact Hscan].
      intros p Hp. apply elem_of_app in Hp as [Hp|Hp]; [auto|].
      apply list_elem_of_singleton in Hp. subst p. exact Hpos.
    + eapply IH; eauto.
Qed.

Lemma random_choice_elem_of {A : Type} (r : nat) (l : list A) (x : A) :
  random_choice r l = Some x -> x ∈ l.
Proof. unfold random_choice. apply list_elem_of_lookup_2. Qed.



(** Scenario S4 of the specification: the lock of (0,0) to X already
    collapses all nine cells to X, and the next step finishes. *)
Example S4_uniqueness :
  Forall (fun pos => CellState.collapsed_tile <$> cells grid_S4 !! pos = Some (Some "X"))
         (positions 3 3) /\
  state (final_state (_step grid_S4 0 0)) = FINISHED.
Proof. split; [apply (bool_decide_unpack _)|]; vm_compute; [exact I|reflexivity]. Qed.

End SolverAdjacency.

(** ** Validation of the grid *)

Section Validation.

Import WFCEngine.

(** The messages of [validate_grid]: one for each collapsed cell and
    collapsed neighbour for which the lookup does not list the
    neighbour's tile. *)
Lemma elem_of_validate_grid (e : t) (a : TileAtlas.t) (msg : string) :
  atlas e = Some a ->
  msg ∈ validate_grid e <->
  exists x y c T nx ny side nb N,
    (0 <= x < width e /\ 0 <= y < height e) /\
    cells e !! (x, y) = Some c /\ CellState.collapsed_tile c = Some T /\
    (nx, ny, side) ∈ _get_neighbors_with_sides e x y /\
    cells e !! (nx, ny) = Some nb /\ CellState.collapsed_tile nb = Some N /\
    TileAtlas.get_valid_neighbors a T side !! N = None /\
    msg = violation x y T N side.
Proof.
  intros Ha. unfold validate_grid, get_cell. rewrite Ha. rewrite list_elem_of_bind. split.
  - intros ([x y] & Hm & Hpos). apply elem_of_positions in Hpos.
    destruct (cells e !! (x, y)) as [c|] eqn:Hc; [|inversion Hm].
    destruct (CellState.collapsed_tile c) as [T|] eqn:HT; [|inversion Hm].
    apply list_elem_of_bind in Hm as ([[nx ny] side] & Hm & Hn).
    destruct (cells e !! (nx, ny)) as [nb|] eqn:Hnb; [|inversion Hm].
    destruct (CellState.collapsed_tile nb) as [N|] eqn:HN; [|inversion Hm].
    destruct (decide _) as [Hnone|]; [|inversion Hm].
    apply list_elem_of_singleton in Hm.
    exists x, y, c, T, nx, ny, side, nb, N. auto 10.
  - intros (x & y & c & T & nx & ny & side & nb & N & Hpos & Hc & HT & Hn & Hnb & HN & Hnone & ->).
    exists (x, y). split; [|apply elem_of_positions; exact Hpos].
    rewrite Hc, HT. apply list_elem_of_bind. exists (nx, ny, side). split; [|exact Hn].
    rewrite Hnb, HN. rewrite decide_True by exact Hnone.
    apply list_elem_of_singleton. reflexivity.
Qed.



End Validation.

(** ** Propagation of all rules *)

Section PropagateAll.

Lemma same_data_refl (x : Atlas.t) : same_data x x.
Proof. split; reflexivity. Qed.

Lemma same_data_trans (x y z : Atlas.t) : same_data x y -> same_data y z -> same_data x z.
Proof. intros [? ?] [? ?]. split; congruence. Qed.

Lemma add_rule_same (x y : Atlas.t) tile_id side neighbor_id weight auto :
  same_data x y ->
  same_data (fst (Atlas.add_rule x tile_id side neighbor_id weight auto))
            (fst (Atlas.add_rule y tile_id side neighbor_id weight auto)) /\
  snd (Atlas.add_rule x tile_id side neighbor_id weight auto) =
  snd (Atlas.add_rule y tile_id side neighbor_id weight auto).
Proof.
  intros [Ht Hr]. unfold Atlas.add_rule. rewrite Hr.
  destruct (list_find _ _) as [[i r]|]; simpl; (split; [split|]); simpl; congruence.
Qed.

Lemma propagate_rule_step_same (x y : Atlas.t) rule st tg tvs sv :
  same_data x y ->
  same_outcome (propagate_rule_step x rule st tg tvs sv)
               (propagate_rule_step y rule st tg tvs sv).
Proof.
  intros Hxy. pose proof Hxy as [Ht Hr]. unfold propagate_rule_step. rewrite Hr.
  destruct (Atlas.rules y !! rule) as [r|]; [|simpl; auto].
  destruct (decide _); [simpl; auto|].
  destruct (_transform_side_between _ _ _) as [ns|e]; [|simpl; auto].
  destruct (find_target_variant _ _) as [tv|]; [|simpl; auto].
  pose proof (add_rule_same x y (Tile.id sv) ns (Tile.id tv) (AdjacencyRule.weight r) true Hxy)
    as [H1 H2].
  destruct (Atlas.add_rule x _ _ _ _ _) as [x1 i], (Atlas.add_rule y _ _ _ _ _) as [y1 j].
  simpl in *. split; congruence.
Qed.

Lemma propagate_rule_loop_same (svs : list Tile.t) :
  forall (x y : Atlas.t) rule st tg tvs new_rules,
    same_data x y ->
    same_outcome (propagate_rule_loop x rule st tg tvs svs new_rules)
                 (propagate_rule_loop y rule st tg tvs svs new_rules).
Proof.
  induction svs as [|sv svs IH]; intros x y rule st tg tvs new_rules Hxy; simpl.
  - auto.
  - pose proof (propagate_rule_step_same x y rule st tg tvs sv Hxy) as H.
    destruct (propagate_rule_step x rule st tg tvs sv) as [x1 v|x1 e],
             (propagate_rule_step y rule st tg tvs sv) as [y1 w|y1 e']; simpl in H;
      try contradiction.
    + destruct H as [H ->]. apply IH. exact H.
    + exact H.
Qed.

Lemma propagate_rule_same (x y : Atlas.t) (rule : nat) :
  same_data x y -> same_outcome (propagate_rule x rule) (propagate_rule y rule).
Proof.
  intros Hxy. pose proof Hxy as [Ht Hr].
  unfold propagate_rule, Atlas.get_tile, Atlas.get_tiles_for_base. rewrite Hr, Ht.
  destruct (Atlas.rules y !! rule) as [r|]; [|simpl; auto].
  destruct (snd <$> list_find _ _) as [src|]; [|simpl; auto].
  destruct (snd <$> list_find _ _) as [tgt|]; [|simpl; auto].
  apply propagate_rule_loop_same. exact Hxy.
Qed.

Lemma propagate_all_loop_same (manual_rules : list nat) :
  forall (x y : Atlas.t) (total_new : Z),
    same_data x y ->
    same_outcome (propagate_all_loop x manual_rules total_new)
                 (propagate_all_loop y manual_rules total_new).
Proof.
  induction manual_rules as [|rule rest IH]; intros x y total Hxy; simpl.
  - auto.
  - pose proof (propagate_rule_same x y rule Hxy) as H.
    destruct (propagate_rule x rule) as [x1 v|x1 e],
             (propagate_rule y rule) as [y1 w|y1 e']; simpl in H; try contradiction.
    + destruct H as [H ->]. apply IH. exact H.
    + exact H.
Qed.

Lemma remove_auto_rules_data (x : Atlas.t) :
  Atlas.tiles (fst (Atlas.remove_auto_rules x)) = Atlas.tiles x /\
  Atlas.rules (fst (Atlas.remove_auto_rules x)) =
    filter AdjacencyRule.is_manual (Atlas.rules x).
Proof. unfold Atlas.remove_auto_rules. simpl. destruct (0 <? _); simpl; auto. Qed.

(** The outcome of [propagate_all_rules] is determined by the variants
    and the manual rules. *)
Lemma propagate_all_rules_same (x y : Atlas.t) :
  Atlas.tiles x = Atlas.tiles y ->
  filter AdjacencyRule.is_manual (Atlas.rules x) =
  filter AdjacencyRule.is_manual (Atlas.rules y) ->
  same_outcome (propagate_all_rules x) (propagate_all_rules y).
Proof.
  intros Ht Hm. unfold propagate_all_rules. rewrite Hm.
  destruct (remove_auto_rules_data x) as [Hx1 Hx2].
  destruct (remove_auto_rules_data y) as [Hy1 Hy2].
  destruct (Atlas.remove_auto_rules x) as [x1 ?], (Atlas.remove_auto_rules y) as [y1 ?].
  simpl in *. apply propagate_all_loop_same. split; congruence.
Qed.

Lemma propagate_all_loop_tiles (manual_rules : list nat) :
  forall (x : Atlas.t) (total_new : Z),
    Atlas.tiles (final_state (propagate_all_loop x manual_rules total_new)) = Atlas.tiles x.
Proof.
  induction manual_rules as [|rule rest IH]; intros x total; simpl; [reflexivity|].
  pose proof (propagate_rule_tiles x rule) as H.
  destruct (propagate_rule x rule) as [x1 v|x1 e]; simpl in *; [|exact H].
  rewrite IH. exact H.
Qed.

Lemma propagate_all_rules_tiles (x : Atlas.t) :
  Atlas.tiles (final_state (propagate_all_rules x)) = Atlas.tiles x.
Proof.
  unfold propagate_all_rules.
  destruct (remove_auto_rules_data x) as [Hx1 _].
  destruct (Atlas.remove_auto_rules x) as [x1 ?]. simpl in *.
  rewrite propagate_all_loop_tiles. exact Hx1.
Qed.

Lemma add_rule_manual (x : Atlas.t) tile_id side neighbor_id weight (r : AdjacencyRule.t) :
  r ∈ Atlas.rules (fst (Atlas.add_rule x tile_id side neighbor_id weight true)) ->
  AdjacencyRule.is_manual r -> r ∈ Atlas.rules x.
Proof.
  unfold Atlas.add_rule, AdjacencyRule.is_manual.
  destruct (list_find _ _) as [[i rule]|]; simpl; intros Hin Hm.
  - apply list_elem_of_lookup in Hin as [j Hj].
    apply list_lookup_insert_Some in Hj as [(_ & <- & _)|(_ & Hj)].
    + simpl in Hm. discriminate.
    + eapply list_elem_of_lookup_2; eauto.
  - apply elem_of_app in Hin as [Hin|Hin]; [exact Hin|].
    apply list_elem_of_singleton in Hin. subst r. simpl in Hm. discriminate.
Qed.

Lemma propagate_rule_step_manual (x : Atlas.t) rule st tg tvs sv (r : AdjacencyRule.t) :
  r ∈ Atlas.rules (final_state (propagate_rule_step x rule st tg tvs sv)) ->
  AdjacencyRule.is_manual r -> r ∈ Atlas.rules x.
Proof.
  unfold propagate_rule_step.
  destruct (Atlas.rules x !! rule) as [r0|]; [|auto].
  destruct (decide _); [auto|].
  destruct (_transform_side_between _ _ _) as [ns|e]; [|auto].
  destruct (find_target_variant _ _) as [tv|]; [|auto].
  pose proof (add_rule_manual x (Tile.id sv) ns (Tile.id tv) (AdjacencyRule.weight r0) r) as H.
  destruct (Atlas.add_rule x _ _ _ _ _) as [x1 i]. exact H.
Qed.

Lemma propagate_rule_loop_manual (svs : list Tile.t) :
  forall (x : Atlas.t) rule st tg tvs new_rules (r : AdjacencyRule.t),
    r ∈ Atlas.rules (final_state (propagate_rule_loop x rule st tg tvs svs new_rules)) ->
    AdjacencyRule.is_manual r -> r ∈ Atlas.rules x.
Proof.
  induction svs as [|sv svs IH]; intros x rule st tg tvs new_rules r; simpl; [auto|].
  pose proof (propagate_rule_step_manual x rule st tg tvs sv r) as H.
  destruct (propagate_rule_step x rule st tg tvs sv) as [x1 v|x1 e]; simpl in *; [|exact H].
  intros Hin Hm. apply H; [|exact Hm]. eapply IH; eauto.
Qed.

Lemma propagate_rule_manual (x : Atlas.t) (rule : nat) (r : AdjacencyRule.t) :
  r ∈ Atlas.rules (final_state (propagate_rule x rule)) ->
  AdjacencyRule.is_manual r -> r ∈ Atlas.rules x.
Proof.
  unfold propagate_rule.
  destruct (Atlas.rules x !! rule) as [r0|]; [|auto].
  destruct (Atlas.get_tile x _) as [src|]; [|auto].
  destruct (Atlas.get_tile x _) as [tgt|]; [|auto].
  apply propagate_rule_loop_manual.
Qed.

Lemma propagate_all_loop_manual (manual_rules : list nat) :
  forall (x : Atlas.t) (total_new : Z) (r : AdjacencyRule.t),
    r ∈ Atlas.rules (final_state (propagate_all_loop x manual_rules total_new)) ->
    AdjacencyRule.is_manual r -> r ∈ Atlas.rules x.
Proof.
  induction manual_rules as [|rule rest IH]; intros x total r; simpl; [auto|].
  pose proof (propagate_rule_manual x rule r) as H.
  destruct (propagate_rule x rule) as [x1 v|x1 e]; simpl in *; [|exact H].
  intros Hin Hm. apply H; [|exact Hm]. eapply IH; eauto.
Qed.

(** C1: the code fails the claim at [atlas_clash], where both rules are
    manual and the second has the key of the rule derived from the
    first.  [propagate_all_rules] returns 2 although the atlas holds two
    rules before and after the run, so none was created; it marks both
    manual rules auto and overwrites the weight of the second; and the
    second run then deletes both rules and returns 0, so it does not
    reproduce the rules of the first. *)
Theorem propagate_all_reclassifies_manual_rules :
  Atlas.rules atlas_clash =
    [AdjacencyRule.Build "A" right "B" (inject_Z 100) false;
     AdjacencyRule.Build "A_r90" bottom "B_r90" (inject_Z 50) false] /\
  exists once twice : Atlas.t,
    propagate_all_rules atlas_clash = Returns once 2 /\
    Atlas.tiles once = Atlas.tiles atlas_clash /\
    Atlas.rules once =
      [AdjacencyRule.Build "A" right "B" (inject_Z 100) true;
       AdjacencyRule.Build "A_r90" bottom "B_r90" (inject_Z 100) true] /\
    propagate_all_rules once = Returns twice 0 /\
    Atlas.rules twice = [].
Proof.
  split; [reflexivity|].
  eexists. eexists.
  split; [vm_compute; reflexivity|].
  split; [vm_compute; reflexivity|].
  split; [vm_compute; reflexivity|].
  split; [vm_compute; reflexivity|].
  vm_compute. reflexivity.
Qed.

(** X27: the rules that [propagate_all_rules] leaves are determined by
    the variants and the manual rules of the atlas, the variants stay as
    they are, and a rule that is manual afterwards was among the rules
    before; when a run returns and leaves the manual rules as they were,
    a second run returns the same count and leaves the same rules. *)
Theorem propagate_all_determined_by_manual_rules :
  (forall a b : Atlas.t,
      Atlas.tiles a = Atlas.tiles b ->
      filter AdjacencyRule.is_manual (Atlas.rules a) =
      filter AdjacencyRule.is_manual (Atlas.rules b) ->
      Atlas.rules (final_state (propagate_all_rules a)) =
      Atlas.rules (final_state (propagate_all_rules b))) /\
  (forall a : Atlas.t,
      Atlas.tiles (final_state (propagate_all_rules a)) = Atlas.tiles a) /\
  (forall (a : Atlas.t) (r : AdjacencyRule.t),
      r ∈ Atlas.rules (final_state (propagate_all_rules a)) ->
      AdjacencyRule.is_manual r -> r ∈ Atlas.rules a) /\
  (forall (a a1 : Atlas.t) (n : Z),
      propagate_all_rules a = Returns a1 n ->
      filter AdjacencyRule.is_manual (Atlas.rules a1) =
      filter AdjacencyRule.is_manual (Atlas.rules a) ->
      exists a2, propagate_all_rules a1 = Returns a2 n /\
                 Atlas.rules a2 = Atlas.rules a1 /\ Atlas.tiles a2 = Atlas.tiles a1).
Proof.
  split; [|split; [|split]].
  - intros a b Ht Hm. pose proof (propagate_all_rules_same a b Ht Hm) as H.
    destruct (propagate_all_rules a), (propagate_all_rules b); simpl in *;
      try contradiction; apply H.
  - apply propagate_all_rules_tiles.
  - intros a r. unfold propagate_all_rules.
    destruct (remove_auto_rules_data a) as [_ Hr].
    destruct (Atlas.remove_auto_rules a) as [x1 ?]. simpl in *.
    intros Hin Hm. apply propagate_all_loop_manual in Hin; [|exact Hm].
    rewrite Hr in Hin. apply list_elem_of_filter in Hin as [_ Hin]. exact Hin.
  - intros a a1 n Hrun Hm.
    pose proof (propagate_all_rules_tiles a) as Ht. rewrite Hrun in Ht. simpl in Ht.
    pose proof (propagate_all_rules_same a1 a Ht Hm) as H. rewrite Hrun in H.
    destruct (propagate_all_rules a1) as [a2 n2|a2 e]; simpl in H; [|contradiction].
    destruct H as [[H1 H2] ->]. exists a2. auto.
Qed.

Lemma propagate_all_determined_by_manual_rules_witness :
  let a1 := final_state (propagate_all_rules atlas_S3) in
  exists a2, propagate_all_rules a1 = Returns a2 1 /\
             Atlas.rules a2 = Atlas.rules a1 /\ Atlas.tiles a2 = Atlas.tiles a1.
Proof.
  intros a1.
  apply (proj2 (proj2 (proj2 propagate_all_determined_by_manual_rules)) atlas_S3 a1 1).
  - vm_compute. reflexivity.
  - vm_compute. reflexivity.
Defined.

(** Scenario S3 of the specification: after [propagate_all_rules] the
    auto rule (A_r90, bottom, B_r90, 100) exists. *)
Example S3_propagation :
  AdjacencyRule.Build "A_r90" bottom "B_r90" (inject_Z 100) true
    ∈ Atlas.rules (final_state (propagate_all_rules atlas_S3)).
Proof. vm_compute. repeat constructor. Qed.

End PropagateAll.

(** ** The loop of [_propagate] ends *)

Section PropagateTerminates.

Import WFCEngine.

Lemma elem_of_uncollapsed_cells (s : t) (p : Z * Z) :
  p ∈ uncollapsed_cells s <->
  exists c, cells s !! p = Some c /\ CellState.is_collapsed c = false.
Proof.
  unfold uncollapsed_cells. rewrite elem_of_dom. unfold is_Some.
  setoid_rewrite map_lookup_filter_Some. simpl. reflexivity.
Qed.

Lemma elem_of_stale_cells (s : t) (p : Z * Z) :
  p ∈ stale_cells s <->
  exists c, cells s !! p = Some c /\ CellState.is_collapsed c = false /\
            get_valid_tiles_for_cell s (fst p) (snd p) <> CellState.possibilities c.
Proof.
  unfold stale_cells. rewrite elem_of_dom. unfold is_Some.
  setoid_rewrite map_lookup_filter_Some. simpl. reflexivity.
Qed.

Lemma size_around (x y : Z) : size (around x y) = 4%nat.
Proof.
  unfold around. rewrite size_list_to_set; [reflexivity|].
  repeat (apply NoDup_cons; split);
    rewrite ?elem_of_cons, ?elem_of_nil; try apply NoDup_nil; try exact I;
    intros H; repeat destruct H as [H|H]; try (injection H; lia); exact H.
Qed.

Lemma elem_of_around (x y nx ny : Z) :
  (nx, ny) ∈ around x y <->
  (nx = x - 1 /\ ny = y) \/ (nx = x + 1 /\ ny = y) \/
  (nx = x /\ ny = y - 1) \/ (nx = x /\ ny = y + 1).
Proof.
  unfold around. rewrite elem_of_list_to_set, !elem_of_cons, elem_of_nil.
  split.
  - intros [[= -> ->]|[[= -> ->]|[[= -> ->]|[[= -> ->]|[]]]]]; auto.
  - intros [[-> ->]|[[-> ->]|[[-> ->]|[-> ->]]]]; auto.
Qed.

Lemma neighbors_around (s : t) (x y nx ny : Z) (side : Side) :
  (nx, ny, side) ∈ _get_neighbors_with_sides s x y -> (nx, ny) ∈ around x y.
Proof.
  unfold _get_neighbors_with_sides. rewrite list_elem_of_omap.
  intros ([[dx dy] sd] & Hin & H). destruct (decide _) as [Hb|]; [|discriminate].
  clear Hb. injection H as <- <- <-. apply elem_of_around.
  rewrite !elem_of_cons, elem_of_nil in Hin.
  destruct Hin as [[= -> -> _]|[[= -> -> _]|[[= -> -> _]|[[= -> -> _]|[]]]]]; lia.
Qed.

Lemma around_sym (x y nx ny : Z) : (nx, ny) ∈ around x y -> (x, y) ∈ around nx ny.
Proof. rewrite !elem_of_around. lia. Qed.

Lemma around_irrefl (x y : Z) : (x, y) ∉ around x y.
Proof. rewrite elem_of_around. lia. Qed.

Lemma length_omap_le {A B : Type} (f : A -> option B) (l : list A) :
  (length (omap f l) <= length l)%nat.
Proof.
  induction l as [|a l IH]; [reflexivity|].
  change (omap f (a :: l)) with (match f a with Some b => b :: omap f l | None => omap f l end).
  destruct (f a); simpl; lia.
Qed.

Lemma length_uncollapsed_neighbors (s : t) (x y : Z) :
  (length (uncollapsed_neighbors s x y) <= 4)%nat.
Proof.
  unfold uncollapsed_neighbors, _get_neighbors_with_sides.
  etrans; [apply length_omap_le|]. etrans; [apply length_omap_le|]. simpl. lia.
Qed.

(** The valid set of a cell is the same in two grids that differ in one
    cell only, if that cell is not next to it or has the same collapsed
    tile in both. *)
Lemma valid_tiles_insert (a : TileAtlas.t) (s s' : t) (p : Z * Z) (c c' : CellState.t)
    (x y : Z) :
  width s' = width s -> height s' = height s ->
  cells s !! p = Some c -> cells s' = <[p := c']> (cells s) ->
  (p ∉ around x y \/ CellState.collapsed_tile c' = CellState.collapsed_tile c) ->
  valid_tiles a s' x y = valid_tiles a s x y.
Proof.
  intros Hw Hh Hc Hcells Hor. apply valid_tiles_ext; auto.
  intros nx ny side Hin. rewrite Hcells.
  destruct (decide (p = (nx, ny))) as [->|Hne].
  - rewrite lookup_insert_eq, Hc. simpl.
    destruct Hor as [Hnot|Heq]; [|exact Heq].
    exfalso. apply Hnot. eapply neighbors_around; eauto.
  - rewrite lookup_insert_ne by auto. reflexivity.
Qed.

Section OneCell.

Variables (s s' : t) (a : TileAtlas.t) (x y : Z) (c c' : CellState.t).
Hypothesis Ha : atlas s = Some a.
Hypothesis Ha' : atlas s' = Some a.
Hypothesis Hw : width s' = width s.
Hypothesis Hh : height s' = height s.
Hypothesis Hc : cells s !! (x, y) = Some c.
Hypothesis Hcells : cells s' = <[(x, y) := c']> (cells s).
Hypothesis Hn : CellState.is_collapsed c = false.
Hypothesis Hstale : valid_tiles a s x y <> CellState.possibilities c.

Lemma changed_cell_stale : (x, y) ∈ stale_cells s.
Proof.
  apply elem_of_stale_cells. exists c. simpl.
  unfold get_valid_tiles_for_cell. rewrite Ha. auto.
Qed.

Lemma changed_cell_uncollapsed : (x, y) ∈ uncollapsed_cells s.
Proof. apply elem_of_uncollapsed_cells. eauto. Qed.

(** The cell gets the valid set and stays uncollapsed. *)
Lemma measure_update :
  CellState.collapsed_tile c' = CellState.collapsed_tile c ->
  CellState.possibilities c' = valid_tiles a s x y ->
  (size (uncollapsed_cells s') <= size (uncollapsed_cells s))%nat /\
  (size (stale_cells s') + 1 <= size (stale_cells s))%nat.
Proof.
  intros Hcol Hposs.
  assert (Hval : forall qx qy, valid_tiles a s' qx qy = valid_tiles a s qx qy).
  { intros qx qy. eapply valid_tiles_insert; eauto. }
  split.
  - apply subseteq_size. intros q. rewrite !elem_of_uncollapsed_cells, Hcells.
    intros (cq & Hq & Hcq).
    destruct (decide ((x, y) = q)) as [<-|Hne].
    + eauto.
    + rewrite lookup_insert_ne in Hq by auto. eauto.
  - assert (Hsub : stale_cells s' ⊆ stale_cells s ∖ {[(x, y)]}).
    { intros [qx qy]. rewrite elem_of_difference, !elem_of_stale_cells, Hcells.
      unfold get_valid_tiles_for_cell. rewrite Ha, Ha'. simpl.
      intros (cq & Hq & Hcq & Hsq). rewrite Hval in Hsq.
      destruct (decide ((x, y) = (qx, qy))) as [[= <- <-]|Hne].
      - rewrite lookup_insert_eq in Hq. injection Hq as <-. congruence.
      - rewrite lookup_insert_ne in Hq by auto.
        split; [eauto|]. rewrite elem_of_singleton. congruence. }
    apply subseteq_size in Hsub.
    rewrite size_difference, size_singleton in Hsub
      by (apply singleton_subseteq_l, changed_cell_stale).
    pose proof (subseteq_size {[(x, y)]} (stale_cells s)
                  ltac:(apply singleton_subseteq_l, changed_cell_stale)) as H1.
    rewrite size_singleton in H1. lia.
Qed.

(** The cell is collapsed. *)
Lemma measure_collapse :
  CellState.is_collapsed c' = true ->
  (size (uncollapsed_cells s') + 1 <= size (uncollapsed_cells s))%nat /\
  (size (stale_cells s') <= size (stale_cells s) + 3)%nat.
Proof.
  intros Hcol. split.
  - assert (Hsub : uncollapsed_cells s' ⊆ uncollapsed_cells s ∖ {[(x, y)]}).
    { intros q. rewrite elem_of_difference, !elem_of_uncollapsed_cells, Hcells.
      intros (cq & Hq & Hcq).
      destruct (decide ((x, y) = q)) as [<-|Hne].
      - rewrite lookup_insert_eq in Hq. injection Hq as <-. congruence.
      - rewrite lookup_insert_ne in Hq by auto.
        split; [eauto|]. rewrite elem_of_singleton. congruence. }
    apply subseteq_size in Hsub.
    rewrite size_difference, size_singleton in Hsub
      by (apply singleton_subseteq_l, changed_cell_uncollapsed).
    pose proof (subseteq_size {[(x, y)]} (uncollapsed_cells s)
                  ltac:(apply singleton_subseteq_l, changed_cell_uncollapsed)) as H1.
    rewrite size_singleton in H1. lia.
  - assert (Hsub : stale_cells s' ⊆ (stale_cells s ∖ {[(x, y)]}) ∪ around x y).
    { intros [qx qy]. rewrite elem_of_union, elem_of_difference, !elem_of_stale_cells, Hcells.
      unfold get_valid_tiles_for_cell. rewrite Ha, Ha'. simpl.
      intros (cq & Hq & Hcq & Hsq).
      destruct (decide ((x, y) = (qx, qy))) as [[= <- <-]|Hne].
      { rewrite lookup_insert_eq in Hq. injection Hq as <-. congruence. }
      rewrite lookup_insert_ne in Hq by auto.
      destruct (decide ((qx, qy) ∈ around x y)) as [Hin|Hnin]; [right; exact Hin|].
      left. split; [|rewrite elem_of_singleton; congruence].
      exists cq. split; [exact Hq|]. split; [exact Hcq|].
      rewrite <- (valid_tiles_insert a s s' (x, y) c c' qx qy); auto.
      left. intros Hin. apply Hnin. apply around_sym. exact Hin. }
    apply subseteq_size in Hsub.
    rewrite size_union_alt in Hsub.
    assert (H2 : (size (around x y ∖ (stale_cells s ∖ {[(x, y)]})) <= size (around x y))%nat).
    { apply subseteq_size. intros q Hq. apply elem_of_difference in Hq as [Hq _]. exact Hq. }
    rewrite size_around in H2.
    rewrite size_difference, size_singleton in Hsub
      by (apply singleton_subseteq_l, changed_cell_stale).
    pose proof (subseteq_size {[(x, y)]} (stale_cells s)
                  ltac:(apply singleton_subseteq_l, changed_cell_stale)) as H1.
    rewrite size_singleton in H1. lia.
Qed.

End OneCell.

(** The loop of [_propagate] empties its queue, or leaves by its
    [return], within [propagate_fuel] turns. *)
Lemma _propagate_loop_terminates (fuel : nat) :
  forall s queue,
    (propagate_fuel s queue <= fuel)%nat -> is_Some (_propagate_loop fuel s queue).
Proof.
  unfold propagate_fuel.
  induction fuel as [|fuel IH]; intros s queue Hfuel; [lia|].
  simpl. destruct queue as [|[x y] queue']; [eauto|].
  simpl in Hfuel.
  assert (Hskip : is_Some (_propagate_loop fuel s queue')) by (apply IH; lia).
  destruct (cells s !! (x, y)) as [cell|] eqn:Hc; [|exact Hskip].
  destruct (CellState.is_collapsed cell) eqn:Hcol; [exact Hskip|].
  destruct (atlas s) as [a|] eqn:Ha; [|eauto].
  destruct (decide _) as [Hchg|]; [|exact Hskip].
  destruct (decide (size _ = 0%nat)); [eauto|].
  set (cell1 := CellState.set_possibilities cell (valid_tiles a s x y)).
  set (s1 := emit (set_cell s (x, y) cell1) (cell_updated x y)).
  destruct (decide (size _ = 1%nat)).
  - destruct (elements _) as [|tile l]; [eauto|].
    set (s5 := emit _ _).
    destruct (measure_collapse s s5 a x y cell
                (CellState.set_collapsed_tile cell1 (Some tile))) as [HU HS]; auto.
    { subst s5 s1. simpl. apply insert_insert_eq. }
    pose proof (length_uncollapsed_neighbors s5 x y).
    apply IH. rewrite length_app. lia.
  - destruct (measure_update s s1 a x y cell cell1) as [HU HS]; auto.
    pose proof (length_uncollapsed_neighbors s1 x y).
    apply IH. rewrite length_app. lia.
Qed.

(** [_propagate] runs its loop to the end. *)
Lemma _propagate_terminates (s : t) (x y : Z) :
  exists o, _propagate_loop (propagate_fuel s (uncollapsed_neighbors s x y)) s
              (uncollapsed_neighbors s x y) = Some o /\
            _propagate s x y = o.
Proof.
  destruct (_propagate_loop_terminates _ s (uncollapsed_neighbors s x y) (le_n _)) as [o Ho].
  exists o. split; [exact Ho|]. unfold _propagate. rewrite Ho. reflexivity.
Qed.

End PropagateTerminates.

(* ===================================================================== *)
(** * Further properties of the code *)
(* ===================================================================== *)

(** ** Transform: sides *)

Section TransformSides.

Import Transform.

Lemma mod_90_cases (r : Z) :
  r mod 90 = 0 ->
  r mod 360 = 0 \/ r mod 360 = 90 \/ r mod 360 = 180 \/ r mod 360 = 270.
Proof. intros H. Z.div_mod_to_equations. lia. Qed.

Lemma mod_360_not_90 (r : Z) :
  r mod 90 <> 0 ->
  r mod 360 <> 0 /\ r mod 360 <> 90 /\ r mod 360 <> 180 /\ r mod 360 <> 270.
Proof. intros H. Z.div_mod_to_equations. lia. Qed.

(** The side that a transform sends a side to depends on the rotation
    only through its remainder modulo 360. *)
Lemma apply_to_side_mod (r : Z) (fx fy : bool) (s : Side) :
  apply_to_side (Build r fx fy) s = apply_to_side (Build (r mod 360) fx fy) s.
Proof.
  unfold apply_to_side, rotate_side. simpl.
  destruct (r =? 0) eqn:E0; simpl.
  - apply Z.eqb_eq in E0. subst r. reflexivity.
  - rewrite Z.mod_mod by lia.
    destruct (r mod 360 =? 0) eqn:E; simpl; [|reflexivity].
    apply Z.eqb_eq in E. rewrite E. simpl. destruct s; reflexivity.
Qed.

Lemma inverse_side_mod (r : Z) (fx fy : bool) (s : Side) :
  inverse_side (Build r fx fy) s = inverse_side (Build (r mod 360) fx fy) s.
Proof.
  unfold inverse_side, SIDES, inverse_side_loop.
  rewrite !(apply_to_side_mod r). reflexivity.
Qed.

Lemma canonical_rotation_in_all (r : Z) (fx fy : bool) :
  r mod 90 = 0 -> Build (r mod 360) fx fy ∈ get_all_transforms true.
Proof.
  intros H. destruct (mod_90_cases r H) as [-> | [-> | [-> | ->]]];
    destruct fx, fy; vm_compute; repeat constructor.
Qed.

(** X1: for a transform whose rotation is a multiple of 90,
    [apply_to_side] returns a side, [inverse_side] returns the side that
    is sent to the given one, and the two undo each other in both
    orders. *)
Theorem side_round_trip (t : Transform.t) (s : Side) :
  rotation t mod 90 = 0 ->
  (exists s', apply_to_side t s = Ok s' /\ inverse_side t s' = Ok s) /\
  (exists s0, inverse_side t s = Ok s0 /\ apply_to_side t s0 = Ok s).
Proof.
  destruct t as [r fx fy]. simpl. intros H.
  rewrite (apply_to_side_mod r), (inverse_side_mod r).
  setoid_rewrite (apply_to_side_mod r). setoid_rewrite (inverse_side_mod r).
  destruct (mod_90_cases r H) as [-> | [-> | [-> | ->]]];
    destruct fx, fy, s; split; eexists; split; reflexivity.
Qed.

Lemma side_round_trip_witness :
  (exists s', apply_to_side (Build 450 true false) top = Ok s' /\
              inverse_side (Build 450 true false) s' = Ok top) /\
  (exists s0, inverse_side (Build 450 true false) top = Ok s0 /\
              apply_to_side (Build 450 true false) s0 = Ok top).
Proof. apply (side_round_trip (Build 450 true false) top). reflexivity. Defined.

(** X2: for a transform whose rotation is not a multiple of 90, both
    [apply_to_side] and [inverse_side] raise ValueError, at every
    side. *)
Theorem side_of_invalid_rotation (t : Transform.t) (s : Side) :
  rotation t mod 90 <> 0 ->
  apply_to_side t s = Raise ValueError /\ inverse_side t s = Raise ValueError.
Proof.
  destruct t as [r fx fy]. simpl. intros H.
  assert (Hany : forall s', apply_to_side (Build r fx fy) s' = Raise ValueError).
  { intros s'. unfold apply_to_side, rotate_side, _ROTATION_MAP. simpl.
    destruct (mod_360_not_90 r H) as (H0 & H1 & H2 & H3).
    assert (r <> 0) by (intros ->; apply H; reflexivity).
    rewrite (proj2 (Z.eqb_neq r 0)) by auto. simpl.
    rewrite (proj2 (Z.eqb_neq _ 0)), (proj2 (Z.eqb_neq _ 90)),
            (proj2 (Z.eqb_neq _ 180)), (proj2 (Z.eqb_neq _ 270)) by auto.
    reflexivity. }
  split; [apply Hany|].
  unfold inverse_side, SIDES, inverse_side_loop. rewrite Hany. reflexivity.
Qed.

Lemma side_of_invalid_rotation_witness :
  apply_to_side (Build 45 false false) left = Raise ValueError /\
  inverse_side (Build 45 false false) left = Raise ValueError.
Proof. apply (side_of_invalid_rotation (Build 45 false false) left). discriminate. Defined.

(** X3: on the sixteen transforms, [compose] and [inverse] are the
    composition and the inverse of the actions on the sides: the
    composed transform sends a side where the second sends the image
    under the first, and the inverse sends the image back. *)
Theorem compose_acts_on_sides (t u : Transform.t) (s : Side) :
  t ∈ get_all_transforms true -> u ∈ get_all_transforms true ->
  apply_to_side (compose t u) s = (s' <-! apply_to_side t s ;; apply_to_side u s') /\
  (s' <-! apply_to_side t s ;; apply_to_side (inverse t) s') = Ok s.
Proof.
  intros Ht Hu. revert u Hu. revert t Ht.
  apply (all_transforms_ind (fun t => forall u, u ∈ get_all_transforms true -> _)).
  assert (H : Forall (fun t => Forall (fun u =>
              apply_to_side (compose t u) s = (s' <-! apply_to_side t s ;; apply_to_side u s') /\
              (s' <-! apply_to_side t s ;; apply_to_side (inverse t) s') = Ok s)
              (get_all_transforms true)) (get_all_transforms true)).
  { destruct s; apply (bool_decide_unpack _); vm_compute; exact I. }
  eapply Forall_impl; [exact H|]. simpl. intros t Ht u Hu.
  rewrite Forall_forall in Ht. auto.
Qed.

Lemma compose_acts_on_sides_witness :
  apply_to_side (compose (Build 0 true false) (Build 90 false false)) left =
    (s' <-! apply_to_side (Build 0 true false) left ;; apply_to_side (Build 90 false false) s') /\
  (s' <-! apply_to_side (Build 0 true false) left ;;
   apply_to_side (inverse (Build 0 true false)) s') = Ok left.
Proof.
  apply (compose_acts_on_sides (Build 0 true false) (Build 90 false false) left);
    vm_compute; repeat constructor.
Defined.

(** X4: on the sixteen transforms [compose] is associative, [inverse]
    is an inverse on the left as well, inverting twice gives the normal
    form, and every composite is one of the eight normal forms. *)
Theorem compose_group_laws (t u v : Transform.t) :
  t ∈ get_all_transforms true -> u ∈ get_all_transforms true ->
  v ∈ get_all_transforms true ->
  compose (compose t u) v = compose t (compose u v) /\
  compose (inverse t) t = identity /\
  inverse (inverse t) = normalize t /\
  (compose t u ∈ get_all_transforms true /\ flip_y (compose t u) = false).
Proof.
  intros Ht Hu Hv. revert v Hv. revert u Hu. revert t Ht.
  apply (all_transforms_ind (fun t => forall u, u ∈ get_all_transforms true ->
           forall v, v ∈ get_all_transforms true -> _)).
  assert (H : Forall (fun t => Forall (fun u => Forall (fun v =>
              compose (compose t u) v = compose t (compose u v) /\
              compose (inverse t) t = identity /\
              inverse (inverse t) = normalize t /\
              (compose t u ∈ get_all_transforms true /\ flip_y (compose t u) = false))
              (get_all_transforms true)) (get_all_transforms true)) (get_all_transforms true)).
  { apply (bool_decide_unpack _). vm_compute. exact I. }
  eapply Forall_impl; [exact H|]. simpl. intros t Ht u Hu v Hv.
  rewrite Forall_forall in Ht. specialize (Ht u Hu). rewrite Forall_forall in Ht. auto.
Qed.

Lemma compose_group_laws_witness :
  let t := Build 90 true false in
  let u := Build 0 false true in
  let v := Build 270 true true in
  compose (compose t u) v = compose t (compose u v) /\
  compose (inverse t) t = identity /\
  inverse (inverse t) = normalize t /\
  (compose t u ∈ get_all_transforms true /\ flip_y (compose t u) = false).
Proof.
  apply (compose_group_laws (Build 90 true false) (Build 0 false true) (Build 270 true true));
    vm_compute; repeat constructor.
Defined.

End TransformSides.

(** ** The first element of a list that passes a test *)

Section FirstMatch.

Context {A : Type} (P : A -> Prop) {Pdec : forall x, Decision (P x)}.

Lemma first_cons (x : A) (l : list A) :
  snd <$> list_find P (x :: l) = if decide (P x) then Some x else snd <$> list_find P l.
Proof.
  cbn. destruct (decide (P x)); [reflexivity|].
  destruct (list_find P l) as [[i y]|]; reflexivity.
Qed.

Lemma first_Some (l : list A) (x : A) :
  snd <$> list_find P l = Some x -> x ∈ l /\ P x.
Proof.
  induction l as [|y l IH]; [discriminate|].
  rewrite first_cons. destruct (decide (P y)).
  - intros [= ->]. split; [left|assumption].
  - intros H. destruct (IH H). split; [right|]; assumption.
Qed.

Lemma first_None (l : list A) :
  snd <$> list_find P l = None <-> forall x, x ∈ l -> ~ P x.
Proof.
  induction l as [|y l IH].
  - split; [intros _ x Hx; inversion Hx|reflexivity].
  - rewrite first_cons. destruct (decide (P y)) as [Hy|Hy].
    + split; [discriminate|]. intros H. exfalso. apply (H y); [left|exact Hy].
    + rewrite IH. split.
      * intros H x Hx. apply elem_of_cons in Hx as [->|Hx]; auto.
      * intros H x Hx. apply H. right. exact Hx.
Qed.

Lemma first_is_Some (l : list A) (x : A) :
  x ∈ l -> P x -> is_Some (snd <$> list_find P l).
Proof.
  intros Hx HP. destruct (snd <$> list_find P l) eqn:E; [eauto|].
  exfalso. rewrite first_None in E. exact (E x Hx HP).
Qed.

Lemma first_app (l k : list A) :
  snd <$> list_find P (l ++ k) =
  match snd <$> list_find P l with
  | Some x => Some x
  | None => snd <$> list_find P k
  end.
Proof.
  induction l as [|y l IH]; [reflexivity|].
  rewrite <- app_comm_cons, !first_cons. destruct (decide (P y)); [reflexivity|exact IH].
Qed.

(** Filtering by a test that every match passes does not change the
    first match. *)
Lemma first_filter (Q : A -> Prop) {Qdec : forall x, Decision (Q x)} (l : list A) :
  (forall x, P x -> Q x) ->
  snd <$> list_find P (filter Q l) = snd <$> list_find P l.
Proof.
  intros HPQ. induction l as [|y l IH]; [reflexivity|].
  rewrite filter_cons, first_cons. destruct (decide (Q y)) as [Hq|Hq].
  - rewrite first_cons. destruct (decide (P y)); [reflexivity|exact IH].
  - destruct (decide (P y)) as [Hp|]; [exfalso; auto|exact IH].
Qed.

(** Replacing an element that fails the test by one that fails it does
    not change the first match. *)
Lemma first_insert_other (l : list A) (i : nat) (x z : A) :
  l !! i = Some z -> ~ P z -> ~ P x ->
  snd <$> list_find P (<[i := x]> l) = snd <$> list_find P l.
Proof.
  revert i. induction l as [|y l IH]; intros i Hi Hz Hx; [reflexivity|].
  destruct i as [|i]; simpl in Hi.
  - injection Hi as ->. cbn [insert list_insert]. rewrite !first_cons.
    destruct (decide (P x)), (decide (P z)); try contradiction. reflexivity.
  - change (<[S i := x]> (y :: l)) with (y :: <[i := x]> l).
    rewrite !first_cons. destruct (decide (P y)); [reflexivity|]. eauto.
Qed.

End FirstMatch.

(** ** The rules of the atlas: insert, look up, remove *)

Section AtlasRules.

Lemma has_key_key (t : string) (s : Side) (n : string) (r : AdjacencyRule.t) :
  AdjacencyRule.has_key t s n r <-> AdjacencyRule.key r = (t, s, n).
Proof.
  unfold AdjacencyRule.has_key, AdjacencyRule.key. split.
  - intros (-> & -> & ->). reflexivity.
  - intros [= -> -> ->]. auto.
Qed.

(** X6: [add_rule] followed by [get_rule] at the same key returns the
    rule with the given weight and flag; the rules at other keys are
    found as before; the list grows by one exactly when the key was
    new; and if no two rules shared a key before, none do after. *)
Theorem add_rule_get_rule (a : Atlas.t) (t : string) (s : Side) (n : string)
    (w : Q) (au : bool) :
  let a1 := fst (Atlas.add_rule a t s n w au) in
  Atlas.get_rule a1 t s n = Some (AdjacencyRule.Build t s n w au) /\
  (forall t' s' n', (t', s', n') <> (t, s, n) ->
     Atlas.get_rule a1 t' s' n' = Atlas.get_rule a t' s' n') /\
  length (Atlas.rules a1) =
    match Atlas.get_rule a t s n with
    | Some _ => length (Atlas.rules a)
    | None => S (length (Atlas.rules a))
    end /\
  Atlas.tiles a1 = Atlas.tiles a /\
  (unique_keys a -> unique_keys a1).
Proof.
  unfold Atlas.add_rule, Atlas.get_rule, unique_keys.
  destruct (list_find (AdjacencyRule.has_key t s n) (Atlas.rules a)) as [[i rule]|] eqn:E;
    simpl.
  - apply list_find_Some in E as (Hi & (Ht & Hs & Hn) & Hfirst).
    assert (Hupd : AdjacencyRule.update rule w au = AdjacencyRule.Build t s n w au).
    { unfold AdjacencyRule.update. rewrite Ht, Hs, Hn. reflexivity. }
    rewrite Hupd. split; [|split; [|split; [|split]]].
    + replace (list_find _ _) with (Some (i, AdjacencyRule.Build t s n w au)); [reflexivity|].
      symmetry. apply list_find_Some. split; [|split].
      * apply list_lookup_insert_eq. eapply lookup_lt_Some; eauto.
      * repeat split.
      * intros j y Hj Hlt. rewrite list_lookup_insert_ne in Hj by lia. eauto.
    + intros t' s' n' Hne. apply (first_insert_other _ _ i _ rule); auto.
      * rewrite has_key_key. unfold AdjacencyRule.key. rewrite Ht, Hs, Hn. congruence.
      * rewrite has_key_key. unfold AdjacencyRule.key. simpl. congruence.
    + apply length_insert.
    + reflexivity.
    + rewrite list_fmap_insert. unfold AdjacencyRule.key at 1. simpl.
      rewrite list_insert_id; [auto|].
      rewrite list_lookup_fmap, Hi. unfold AdjacencyRule.key. simpl. congruence.
  - assert (Hnone : forall r, r ∈ Atlas.rules a -> ~ AdjacencyRule.has_key t s n r).
    { apply list_find_None in E. rewrite Forall_forall in E. exact E. }
    split; [|split; [|split; [|split]]].
    + rewrite first_app. rewrite E. simpl. rewrite decide_True by (repeat split). reflexivity.
    + intros t' s' n' Hne. rewrite first_app.
      destruct (snd <$> list_find _ (Atlas.rules a)); [reflexivity|].
      rewrite first_cons, decide_False; [reflexivity|].
      rewrite has_key_key. unfold AdjacencyRule.key. simpl. congruence.
    + rewrite length_app. simpl. lia.
    + reflexivity.
    + intros Hnd. rewrite fmap_app. apply NoDup_app. split; [exact Hnd|]. split.
      * intros k Hk Hk'. apply list_elem_of_singleton in Hk'. subst k.
        apply list_elem_of_fmap in Hk as (r & Hr & Hin).
        apply (Hnone r Hin). apply has_key_key. symmetry. exact Hr.
      * apply NoDup_singleton.
Qed.

Lemma add_rule_get_rule_witness :
  unique_keys atlas_S3 /\
  unique_keys (fst (Atlas.add_rule atlas_S3 "B" left "A" (inject_Z 50) true)) /\
  Atlas.get_rule (fst (Atlas.add_rule atlas_S3 "B" left "A" (inject_Z 50) true))
    "A" right "B" = Atlas.get_rule atlas_S3 "A" right "B".
Proof.
  assert (Hnd : unique_keys atlas_S3).
  { unfold unique_keys. simpl. apply NoDup_singleton. }
  destruct (add_rule_get_rule atlas_S3 "B" left "A" (inject_Z 50) true)
    as (_ & Hother & _ & _ & Hkeys).
  split; [exact Hnd|]. split; [exact (Hkeys Hnd)|].
  apply Hother. discriminate.
Defined.

(** X7: [remove_rule] removes the rule at its key and leaves the rules
    at other keys to be found as before; [remove_auto_rules] leaves
    exactly the manual rules, returns how many rules it dropped, and
    when called again drops nothing and changes nothing. *)
Theorem remove_rule_and_auto_rules (a : Atlas.t) :
  (forall t s n,
     Atlas.get_rule (Atlas.remove_rule a t s n) t s n = None /\
     forall t' s' n', (t', s', n') <> (t, s, n) ->
       Atlas.get_rule (Atlas.remove_rule a t s n) t' s' n' = Atlas.get_rule a t' s' n') /\
  (let a1 := fst (Atlas.remove_auto_rules a) in
   Atlas.rules a1 = filter AdjacencyRule.is_manual (Atlas.rules a) /\
   (forall r, r ∈ Atlas.rules a1 -> AdjacencyRule.auto_generated r = false) /\
   snd (Atlas.remove_auto_rules a) =
     Z.of_nat (length (filter (fun r => ~ AdjacencyRule.is_manual r) (Atlas.rules a))) /\
   Atlas.remove_auto_rules a1 = (a1, 0)).
Proof.
  split.
  - intros t s n. unfold Atlas.remove_rule, Atlas.get_rule. simpl. split.
    + apply first_None. intros r Hr. apply list_elem_of_filter in Hr as [Hr _]. exact Hr.
    + intros t' s' n' Hne. apply first_filter.
      intros r Hr Hk. apply has_key_key in Hr. apply has_key_key in Hk. congruence.
  - assert (Hlen : forall l : list AdjacencyRule.t,
              (length l = length (filter AdjacencyRule.is_manual l) +
                          length (filter (fun r => ~ AdjacencyRule.is_manual r) l))%nat).
    { induction l as [|r l IH]; [reflexivity|].
      rewrite !filter_cons. destruct (decide (AdjacencyRule.is_manual r)); simpl.
      - rewrite decide_False by auto. lia.
      - rewrite decide_True by auto. simpl. lia. }
    assert (Hrules : Atlas.rules (fst (Atlas.remove_auto_rules a)) =
                     filter AdjacencyRule.is_manual (Atlas.rules a))
      by apply remove_auto_rules_data.
    cbv zeta. split; [exact Hrules|]. split; [|split].
    + intros r Hr. rewrite Hrules in Hr. apply list_elem_of_filter in Hr as [Hr _]. exact Hr.
    + unfold Atlas.remove_auto_rules. simpl. rewrite (Hlen (Atlas.rules a)) at 1. lia.
    + destruct (Atlas.remove_auto_rules a) as [a1 k] eqn:E. simpl in *.
      assert (Hidem : filter AdjacencyRule.is_manual
                        (filter AdjacencyRule.is_manual (Atlas.rules a)) =
                      filter AdjacencyRule.is_manual (Atlas.rules a)).
      { rewrite list_filter_filter. apply list_filter_iff. intros r. tauto. }
      assert (Hset : Atlas.set_rules a1 (filter AdjacencyRule.is_manual (Atlas.rules a1)) = a1).
      { rewrite Hrules, Hidem. destruct a1. unfold Atlas.set_rules. simpl in *.
        rewrite Hrules. reflexivity. }
      unfold Atlas.remove_auto_rules. cbv zeta. rewrite Hset, Z.sub_diag. reflexivity.
Qed.

Lemma remove_rule_and_auto_rules_witness :
  Atlas.get_rule (Atlas.remove_rule atlas_S3 "B" left "A") "A" right "B" =
  Atlas.get_rule atlas_S3 "A" right "B".
Proof.
  destruct (remove_rule_and_auto_rules atlas_S3) as [Hrem _].
  destruct (Hrem "B" left "A") as [_ Hother].
  apply Hother. discriminate.
Defined.

End AtlasRules.

(** ** Tiles of the atlas: identifiers, creation, removal *)

Section AtlasTiles.

Lemma parts_nonempty_join (r : Z) (fx fy : bool) :
  Transform.parts r fx fy <> [] -> join "_" (Transform.parts r fx fy) <> "".
Proof.
  unfold Transform.parts.
  destruct (negb (r =? 0)), fx, fy; cbv [app join String.append];
    intros H; first [congruence|discriminate].
Qed.

Lemma create_id_transform_suffix (base_id : string) (r : Z) (fx fy : bool) :
  ensured_id base_id (Transform.Build r fx fy) = Tile.create_id base_id r fx fy /\
  Tile.create_id base_id r fx fy =
    base_id +:+ Tile.transform_suffix (Tile.from_base base_id r fx fy) /\
  Tile.transform (Tile.from_base base_id r fx fy) = Transform.Build r fx fy /\
  Tile.create_id base_id 0 false false = base_id.
Proof.
  assert (Hnil : forall b : string, b +:+ "" = b).
  { induction b as [|c b IH]; [reflexivity|].
    change (String c (b +:+ "") = String c b). rewrite IH. reflexivity. }
  unfold ensured_id, Transform.suffix, Tile.transform_suffix, Tile.create_id. simpl.
  pose proof (parts_nonempty_join r fx fy) as Hne.
  destruct (Transform.parts r fx fy) as [|p ps] eqn:E.
  - rewrite decide_False by (intros H; apply H; reflexivity). rewrite Hnil. auto.
  - rewrite decide_True by (apply Hne; discriminate).
    auto.
Qed.

(** X5: the three places that print an identifier agree: the id that
    [ensure_tile_variants_for_rule] looks up is [Tile.create_id], which
    is the base id followed by [Tile.transform_suffix], and the id of
    the identity variant is the base id itself. *)
Theorem tile_ids_agree (base_id : string) (r : Z) (fx fy : bool) :
  ensured_id base_id (Transform.Build r fx fy) = Tile.create_id base_id r fx fy /\
  Tile.create_id base_id r fx fy =
    base_id +:+ Tile.transform_suffix (Tile.from_base base_id r fx fy) /\
  Tile.transform (Tile.from_base base_id r fx fy) = Transform.Build r fx fy /\
  Tile.create_id base_id 0 false false = base_id.
Proof.
  unfold ensured_id, Transform.suffix, Tile.transform_suffix, Tile.create_id. simpl.
  pose proof (parts_nonempty_join r fx fy) as Hne.
  destruct (Transform.parts r fx fy) as [|p ps] eqn:E.
  - rewrite decide_False by (intros H; apply H; reflexivity).
    assert (Hnil : forall b : string, b +:+ "" = b).
    { induction b as [|c b IH]; [reflexivity|].
      change (String c (b +:+ "") = String c b). rewrite IH. reflexivity. }
    rewrite Hnil. auto.
  - rewrite decide_True by (apply Hne; discriminate). auto.
Qed.

Lemma get_tile_app (a : Atlas.t) (extra : list Tile.t) (id : string) :
  Atlas.get_tile (Atlas.set_tiles a (Atlas.tiles a ++ extra)) id =
  match Atlas.get_tile a id with
  | Some t => Some t
  | None => snd <$> list_find (fun t => Tile.id t = id) extra
  end.
Proof. unfold Atlas.get_tile. simpl. apply first_app. Qed.

(** X8: [add_tile_variant] returns a tile with the identifier of the
    requested variant that [get_tile] then finds under it; it keeps the
    tiles that were there, in place, and the rules; and calling it again
    with the same arguments changes nothing and returns the same
    tile. *)
Theorem add_tile_variant_idempotent (a : Atlas.t) (base_id : string) (r : Z) (fx fy : bool) :
  let a1 := fst (Atlas.add_tile_variant a base_id r fx fy) in
  let tile := snd (Atlas.add_tile_variant a base_id r fx fy) in
  Tile.id tile = Tile.create_id base_id r fx fy /\
  Atlas.get_tile a1 (Tile.create_id base_id r fx fy) = Some tile /\
  Atlas.tiles a `prefix_of` Atlas.tiles a1 /\
  Atlas.rules a1 = Atlas.rules a /\
  Atlas.add_tile_variant a1 base_id r fx fy = (a1, tile).
Proof.
  unfold Atlas.add_tile_variant.
  destruct (Atlas.get_tile a (Tile.create_id base_id r fx fy)) as [existing|] eqn:E; simpl.
  - split; [|split; [|split; [|split]]]; auto.
    + apply first_Some in E as [_ E]. exact E.
    + rewrite E. reflexivity.
  - assert (Hget : Atlas.get_tile
                     (Atlas.set_modified
                        (Atlas.set_tiles a (Atlas.tiles a ++ [Tile.from_base base_id r fx fy]))
                        true) (Tile.create_id base_id r fx fy)
                   = Some (Tile.from_base base_id r fx fy)).
    { change (Atlas.get_tile (Atlas.set_tiles a (Atlas.tiles a ++ [Tile.from_base base_id r fx fy]))
                (Tile.create_id base_id r fx fy) = Some (Tile.from_base base_id r fx fy)).
      rewrite get_tile_app, E. rewrite first_cons, decide_True by reflexivity. reflexivity. }
    split; [|split; [|split; [|split]]]; auto.
    + apply prefix_app_r. reflexivity.
    + rewrite Hget. reflexivity.
Qed.

(** X9: [add_base_tile] raises ValueError and changes nothing when a
    base tile with the same id exists; otherwise it adds the base tile
    and its identity variant, whose id is the base id, keeps the tiles
    and rules that were there, and adding a base tile with this id again
    raises. *)
Theorem add_base_tile_once (a : Atlas.t) (bt : BaseTile.t) :
  (is_Some (Atlas.get_base_tile a (BaseTile.id bt)) ->
   Atlas.add_base_tile a bt = Raises a ValueError) /\
  (Atlas.get_base_tile a (BaseTile.id bt) = None ->
   exists a1, Atlas.add_base_tile a bt = Returns a1 tt /\
     Atlas.get_base_tile a1 (BaseTile.id bt) = Some bt /\
     Tile.Build (BaseTile.id bt) (BaseTile.id bt) 0 false false true ∈ Atlas.tiles a1 /\
     Atlas.tiles a `prefix_of` Atlas.tiles a1 /\
     Atlas.rules a1 = Atlas.rules a /\
     forall bt', BaseTile.id bt' = BaseTile.id bt ->
                 Atlas.add_base_tile a1 bt' = Raises a1 ValueError).
Proof.
  unfold Atlas.add_base_tile. split.
  - intros [x ->]. reflexivity.
  - intros Hnone. rewrite Hnone. eexists. split; [reflexivity|].
    assert (Hget : Atlas.get_base_tile
              (Atlas.set_modified
                 (Atlas.set_tiles (Atlas.set_base_tiles a (Atlas.base_tiles a ++ [bt]))
                    (Atlas.tiles (Atlas.set_base_tiles a (Atlas.base_tiles a ++ [bt])) ++
                     [Tile.from_base (BaseTile.id bt) 0 false false])) true)
              (BaseTile.id bt) = Some bt).
    { unfold Atlas.get_base_tile in *. simpl. rewrite first_app, Hnone.
      rewrite first_cons, decide_True by reflexivity. reflexivity. }
    split; [exact Hget|]. split; [|split; [|split]].
    + simpl. apply elem_of_app. right. apply list_elem_of_singleton.
      unfold Tile.from_base. rewrite (proj2 (proj2 (proj2 (create_id_transform_suffix _ 0 false false)))).
      reflexivity.
    + simpl. apply prefix_app_r. reflexivity.
    + reflexivity.
    + intros bt' Hid. rewrite Hid, Hget. reflexivity.
Qed.

Lemma add_base_tile_once_witness :
  let bt := BaseTile.Build "C" "tiles/C.png" 16 16 in
  exists a1, Atlas.add_base_tile atlas_S3 bt = Returns a1 tt /\
     Atlas.get_base_tile a1 "C" = Some bt /\
     Tile.Build "C" "C" 0 false false true ∈ Atlas.tiles a1 /\
     Atlas.tiles atlas_S3 `prefix_of` Atlas.tiles a1 /\
     Atlas.rules a1 = Atlas.rules atlas_S3 /\
     forall bt', BaseTile.id bt' = "C" -> Atlas.add_base_tile a1 bt' = Raises a1 ValueError.
Proof.
  apply (proj2 (add_base_tile_once atlas_S3 (BaseTile.Build "C" "tiles/C.png" 16 16))).
  reflexivity.
Defined.

Example create_id_r90_fx : Tile.create_id "grass" 90 true false = "grass_r90_fx".
Proof. vm_compute. reflexivity. Qed.

(** X10: after [remove_tile] returns, no tile has the removed id, no
    rule names it as tile or neighbour, the rules that name it nowhere
    are all kept, tiles with other ids are found as before, and an atlas
    whose rules all resolved still has that property. *)
Theorem remove_tile_cascades (a a1 : Atlas.t) (tile_id : string) :
  Atlas.remove_tile a tile_id = Returns a1 tt ->
  Atlas.get_tile a1 tile_id = None /\
  (forall r, r ∈ Atlas.rules a1 <->
     r ∈ Atlas.rules a /\ AdjacencyRule.tile_id r <> tile_id /\
     AdjacencyRule.neighbor_id r <> tile_id) /\
  (forall id', id' <> tile_id -> Atlas.get_tile a1 id' = Atlas.get_tile a id') /\
  (rules_resolve a -> rules_resolve a1).
Proof.
  unfold Atlas.remove_tile.
  destruct (match Atlas.get_tile a tile_id with
            | Some tl => Tile.is_original tl
            | None => false
            end); [discriminate|].
  intros [= <-].
  assert (Hget : forall id', id' <> tile_id ->
            Atlas.get_tile
              (Atlas.set_tiles a (filter (fun t => Tile.id t <> tile_id) (Atlas.tiles a))) id'
            = Atlas.get_tile a id').
  { intros id' Hne. unfold Atlas.get_tile. simpl. apply first_filter. intros t. congruence. }
  assert (Hrules : forall r,
            r ∈ filter (fun r => AdjacencyRule.tile_id r <> tile_id /\
                                 AdjacencyRule.neighbor_id r <> tile_id) (Atlas.rules a) <->
            r ∈ Atlas.rules a /\ AdjacencyRule.tile_id r <> tile_id /\
            AdjacencyRule.neighbor_id r <> tile_id).
  { intros r. rewrite list_elem_of_filter. tauto. }
  split; [|split; [|split]].
  - unfold Atlas.get_tile. simpl. apply first_None.
    intros t Ht. apply list_elem_of_filter in Ht as [Ht _]. exact Ht.
  - exact Hrules.
  - exact Hget.
  - intros Hres r Hr. simpl in Hr. apply Hrules in Hr as (Hr & Ht & Hn).
    destruct (Hres r Hr) as [H1 H2].
    change (is_Some (Atlas.get_tile (Atlas.set_tiles a
               (filter (fun t => Tile.id t <> tile_id) (Atlas.tiles a)))
               (AdjacencyRule.tile_id r)) /\
            is_Some (Atlas.get_tile (Atlas.set_tiles a
               (filter (fun t => Tile.id t <> tile_id) (Atlas.tiles a)))
               (AdjacencyRule.neighbor_id r))).
    rewrite !Hget by auto. auto.
Qed.

Lemma remove_tile_cascades_witness :
  let a1 := final_state (Atlas.remove_tile atlas_S3 "B_r90") in
  Atlas.get_tile a1 "B_r90" = None /\
  (forall r, r ∈ Atlas.rules a1 <->
     r ∈ Atlas.rules atlas_S3 /\ AdjacencyRule.tile_id r <> "B_r90" /\
     AdjacencyRule.neighbor_id r <> "B_r90") /\
  (forall id', id' <> "B_r90" -> Atlas.get_tile a1 id' = Atlas.get_tile atlas_S3 id') /\
  (rules_resolve atlas_S3 -> rules_resolve a1).
Proof. apply (remove_tile_cascades atlas_S3 _ "B_r90"). reflexivity. Defined.

(** X11: after [remove_base_tile] the base tile and all its variants
    are gone, the tiles of other bases are kept, no rule names a removed
    variant, and an atlas whose rules all resolved still has that
    property. *)
Theorem remove_base_tile_cascades (a : Atlas.t) (base_id : string) :
  let a1 := Atlas.remove_base_tile a base_id in
  Atlas.get_base_tile a1 base_id = None /\
  Atlas.get_tiles_for_base a1 base_id = [] /\
  (forall t, t ∈ Atlas.tiles a1 <-> t ∈ Atlas.tiles a /\ Tile.base_tile_id t <> base_id) /\
  (forall r t, r ∈ Atlas.rules a1 -> t ∈ Atlas.tiles a -> Tile.base_tile_id t = base_id ->
     AdjacencyRule.tile_id r <> Tile.id t /\ AdjacencyRule.neighbor_id r <> Tile.id t) /\
  (rules_resolve a -> rules_resolve a1).
Proof.
  unfold Atlas.remove_base_tile. cbv zeta. simpl.
  set (removed := list_to_set (Tile.id <$> filter (fun t => Tile.base_tile_id t = base_id)
                                               (Atlas.tiles a)) : gset string).
  assert (Hremoved : forall id, id ∈ removed <->
            exists t, t ∈ Atlas.tiles a /\ Tile.base_tile_id t = base_id /\ Tile.id t = id).
  { intros id. subst removed. rewrite elem_of_list_to_set, list_elem_of_fmap.
    split.
    - intros (t & -> & Ht). apply list_elem_of_filter in Ht as [? ?]. eauto.
    - intros (t & Ht & Hb & <-). exists t. split; [reflexivity|].
      apply list_elem_of_filter. auto. }
  split; [|split; [|split; [|split]]].
  - unfold Atlas.get_base_tile. simpl. apply first_None.
    intros bt Hbt. apply list_elem_of_filter in Hbt as [Hbt _]. exact Hbt.
  - unfold Atlas.get_tiles_for_base. simpl.
    destruct (filter _ (filter _ _)) as [|t l] eqn:E; [reflexivity|].
    assert (Ht : t ∈ t :: l) by left. rewrite <- E in Ht.
    apply list_elem_of_filter in Ht as [Hb Ht].
    apply list_elem_of_filter in Ht as [Hnb _]. contradiction.
  - intros t. rewrite list_elem_of_filter. tauto.
  - intros r t Hr Ht Hb. apply list_elem_of_filter in Hr as [[H1 H2] _].
    split; intros Heq; [apply H1|apply H2]; apply Hremoved; eauto.
  - intros Hres r Hr. apply list_elem_of_filter in Hr as [[H1 H2] Hr].
    destruct (Hres r Hr) as [[t1 Ht1] [t2 Ht2]].
    unfold Atlas.get_tile in *. simpl.
    apply first_Some in Ht1 as [Hin1 Hid1]. apply first_Some in Ht2 as [Hin2 Hid2].
    split.
    + apply (first_is_Some _ _ t1); [|exact Hid1].
      apply list_elem_of_filter. split; [|exact Hin1].
      intros Hb. apply H1. apply Hremoved. eauto.
    + apply (first_is_Some _ _ t2); [|exact Hid2].
      apply list_elem_of_filter. split; [|exact Hin2].
      intros Hb. apply H2. apply Hremoved. eauto.
Qed.

Lemma remove_base_tile_cascades_witness :
  rules_resolve (Atlas.remove_base_tile atlas_S3 "B").
Proof.
  apply (proj2 (proj2 (proj2 (proj2 (remove_base_tile_cascades atlas_S3 "B"))))).
  intros r Hr. apply list_elem_of_singleton in Hr. subst r. vm_compute. eauto.
Defined.

End AtlasTiles.

(** ** Rule propagation: what the derived rules are *)

Section PropagationClosure.

(** Where [add_rule] leaves the rule, and that it leaves the others. *)
Lemma add_rule_lookup (a : Atlas.t) (t : string) (s : Side) (n : string) (w : Q) (au : bool) :
  let a1 := fst (Atlas.add_rule a t s n w au) in
  let i := snd (Atlas.add_rule a t s n w au) in
  Atlas.rules a1 !! i = Some (AdjacencyRule.Build t s n w au) /\
  (forall j, j <> i -> Atlas.rules a1 !! j = Atlas.rules a !! j) /\
  (forall r, Atlas.rules a !! i = Some r -> AdjacencyRule.has_key t s n r).
Proof.
  unfold Atlas.add_rule.
  destruct (list_find _ _) as [[i rule]|] eqn:E; simpl.
  - apply list_find_Some in E as (Hi & (Ht & Hs & Hn) & _).
    split; [|split].
    + rewrite list_lookup_insert_eq by (eapply lookup_lt_Some; eauto).
      unfold AdjacencyRule.update. rewrite Ht, Hs, Hn. reflexivity.
    + intros j Hj. apply list_lookup_insert_ne. auto.
    + intros r Hr. assert (r = rule) by congruence. subst r. repeat split; auto.
  - split; [|split].
    + rewrite lookup_app_r by lia. rewrite Nat.sub_diag. reflexivity.
    + intros j Hj. destruct (decide (j < length (Atlas.rules a))%nat).
      * apply lookup_app_l. lia.
      * rewrite !lookup_ge_None_2; [reflexivity|lia|rewrite length_app; simpl; lia].
    + intros r Hr. apply lookup_lt_Some in Hr. lia.
Qed.

Lemma add_rule_elem_of (a : Atlas.t) (t : string) (s : Side) (n : string) (w : Q) (au : bool)
    (r : AdjacencyRule.t) :
  r ∈ Atlas.rules (fst (Atlas.add_rule a t s n w au)) ->
  r ∈ Atlas.rules a \/ r = AdjacencyRule.Build t s n w au.
Proof.
  intros Hr. apply list_elem_of_lookup in Hr as [j Hj].
  destruct (add_rule_lookup a t s n w au) as (Hi & Hother & _). cbv zeta in *.
  destruct (decide (j = snd (Atlas.add_rule a t s n w au))) as [->|Hne].
  - right. congruence.
  - left. rewrite Hother in Hj by auto. eapply list_elem_of_lookup_2; eauto.
Qed.

Section OneRule.

Variables (a : Atlas.t) (rule : nat) (r0 : AdjacencyRule.t) (st tg : Tile.t).

Lemma propagate_rule_step_inv (ak : Atlas.t) (new_rules : list nat) (stf tgf : Transform.t)
    (tvs : list Tile.t) (sv : Tile.t) (a1 : Atlas.t) (added : option nat) :
  (forall tv, tv ∈ tvs -> tv ∈ Atlas.tiles a /\ Tile.base_tile_id tv = Tile.base_tile_id tg) ->
  sv ∈ Atlas.tiles a -> Tile.base_tile_id sv = Tile.base_tile_id st ->
  loop_inv a rule r0 st tg ak new_rules ->
  propagate_rule_step ak rule stf tgf tvs sv = Returns a1 added ->
  loop_inv a rule r0 st tg a1 (new_rules ++ match added with Some i => [i] | None => [] end).
Proof.
  intros Htvs Hsv Hbase [Hr0 Hnew]. unfold propagate_rule_step. rewrite Hr0.
  assert (Hsame : loop_inv a rule r0 st tg ak (new_rules ++ [])).
  { rewrite app_nil_r. split; assumption. }
  destruct (decide _) as [|Hne]; [intros [= <- <-]; exact Hsame|].
  destruct (_transform_side_between _ _ _) as [ns|e]; [|discriminate].
  destruct (find_target_variant _ _) as [tv|] eqn:Etv; [|intros [= <- <-]; exact Hsame].
  apply find_target_variant_Some in Etv as [Htv _]. destruct (Htvs tv Htv) as [Htv1 Htv2].
  pose proof (add_rule_lookup ak (Tile.id sv) ns (Tile.id tv) (AdjacencyRule.weight r0) true)
    as (Hi & Hother & Hkey).
  destruct (Atlas.add_rule ak _ _ _ _ _) as [a2 i]. cbv zeta in *. simpl in *.
  intros [= <- <-].
  assert (Hi_ne : rule <> i).
  { intros ->. destruct (Hkey r0 Hr0) as (Ht & _). congruence. }
  assert (Hgood : derived a r0 st tg (AdjacencyRule.Build (Tile.id sv) ns (Tile.id tv)
                             (AdjacencyRule.weight r0) true)).
  { split; [reflexivity|]. split; [reflexivity|]. exists sv, tv. simpl. auto 10. }
  split.
  - rewrite Hother by auto. exact Hr0.
  - intros j Hj. destruct (decide (j = i)) as [->|Hji]; [eauto|].
    rewrite Hother by auto. apply Hnew.
    apply elem_of_app in Hj as [Hj|Hj]; [exact Hj|].
    apply list_elem_of_singleton in Hj. contradiction.
Qed.

Lemma propagate_rule_loop_inv (stf tgf : Transform.t) (tvs svs : list Tile.t) :
  (forall tv, tv ∈ tvs -> tv ∈ Atlas.tiles a /\ Tile.base_tile_id tv = Tile.base_tile_id tg) ->
  (forall sv, sv ∈ svs -> sv ∈ Atlas.tiles a /\ Tile.base_tile_id sv = Tile.base_tile_id st) ->
  forall ak new_rules a1 out,
    loop_inv a rule r0 st tg ak new_rules ->
    propagate_rule_loop ak rule stf tgf tvs svs new_rules = Returns a1 out ->
    loop_inv a rule r0 st tg a1 out.
Proof.
  intros Htvs. induction svs as [|sv svs IH]; intros Hsvs ak new_rules a1 out Hinv; simpl.
  - intros [= <- <-]. exact Hinv.
  - destruct (propagate_rule_step ak rule stf tgf tvs sv) as [a2 added|a2 e] eqn:E;
      [|discriminate].
    destruct (Hsvs sv ltac:(apply list_elem_of_here)) as [Hsv Hb].
    apply IH.
    + intros sv' Hsv'. apply Hsvs. apply list_elem_of_further. exact Hsv'.
    + eapply propagate_rule_step_inv; eauto.
Qed.

End OneRule.

(** X12: when [propagate_rule] returns, each rule it reports is in the
    atlas, is marked auto, has the weight of the propagated rule, sits
    on a variant of the source tile's base other than the source tile
    and points to a variant of the target tile's base; and the
    propagated rule itself is left as it was. *)
Theorem propagate_rule_closure (a a1 : Atlas.t) (rule : nat) (new_rules : list nat)
    (r0 : AdjacencyRule.t) (st tg : Tile.t) :
  Atlas.rules a !! rule = Some r0 ->
  Atlas.get_tile a (AdjacencyRule.tile_id r0) = Some st ->
  Atlas.get_tile a (AdjacencyRule.neighbor_id r0) = Some tg ->
  propagate_rule a rule = Returns a1 new_rules ->
  Atlas.rules a1 !! rule = Some r0 /\
  forall i, i ∈ new_rules ->
    exists r', Atlas.rules a1 !! i = Some r' /\ derived a r0 st tg r'.
Proof.
  intros Hr0 Hst Htg. unfold propagate_rule. rewrite Hr0, Hst, Htg.
  apply propagate_rule_loop_inv.
  - intros tv Htv. apply list_elem_of_filter in Htv as [? ?]. auto.
  - intros sv Hsv. apply list_elem_of_filter in Hsv as [? ?]. auto.
  - split; [exact Hr0|]. intros i Hi. inversion Hi.
Qed.

Lemma propagate_rule_closure_witness :
  let a1 := final_state (propagate_rule atlas_S3 0) in
  Atlas.rules a1 !! 0%nat = Some (AdjacencyRule.Build "A" right "B" (inject_Z 100) false) /\
  forall i, i ∈ [1%nat] ->
    exists r', Atlas.rules a1 !! i = Some r' /\
      derived atlas_S3 (AdjacencyRule.Build "A" right "B" (inject_Z 100) false)
        (Tile.Build "A" "A" 0 false false true) (Tile.Build "B" "B" 0 false false true) r'.
Proof.
  apply (propagate_rule_closure atlas_S3 _ 0 [1%nat]); reflexivity.
Defined.

(** X13: [propagate_all_rules] keeps the rules resolving: if each rule
    of the atlas names a tile and a neighbour that exist, so does each
    rule afterwards, whether the call returns or raises. *)
Theorem propagate_all_keeps_rules_resolving (a : Atlas.t) :
  rules_resolve a -> rules_resolve (final_state (propagate_all_rules a)).
Proof.
  assert (Hstep : forall ak rule stf tgf tvs sv,
            (forall tv, tv ∈ tvs -> tv ∈ Atlas.tiles ak) -> sv ∈ Atlas.tiles ak ->
            rules_resolve ak ->
            rules_resolve (final_state (propagate_rule_step ak rule stf tgf tvs sv))).
  { intros ak rule stf tgf tvs sv Htvs Hsv Hres.
    pose proof (propagate_rule_step_tiles ak rule stf tgf tvs sv) as Htiles.
    unfold propagate_rule_step in *.
    destruct (Atlas.rules ak !! rule) as [r0|]; [|exact Hres].
    destruct (decide _); [exact Hres|].
    destruct (_transform_side_between _ _ _) as [ns|e]; [|exact Hres].
    destruct (find_target_variant _ _) as [tv|] eqn:Etv; [|exact Hres].
    apply find_target_variant_Some in Etv as [Htv _]. apply Htvs in Htv.
    pose proof (add_rule_elem_of ak (Tile.id sv) ns (Tile.id tv) (AdjacencyRule.weight r0) true)
      as Hel.
    destruct (Atlas.add_rule ak _ _ _ _ _) as [a2 i]. simpl in *.
    intros r Hr. unfold Atlas.get_tile. rewrite Htiles.
    destruct (Hel r Hr) as [Hold| ->]; [apply Hres; exact Hold|].
    simpl. split; [apply (first_is_Some _ _ sv)|apply (first_is_Some _ _ tv)]; auto. }
  assert (Hloop : forall svs ak rule stf tgf tvs nr,
            (forall tv, tv ∈ tvs -> tv ∈ Atlas.tiles ak) ->
            (forall sv, sv ∈ svs -> sv ∈ Atlas.tiles ak) ->
            rules_resolve ak ->
            rules_resolve (final_state (propagate_rule_loop ak rule stf tgf tvs svs nr))).
  { induction svs as [|sv svs IH]; intros ak rule stf tgf tvs nr Htvs Hsvs Hres; simpl;
      [exact Hres|].
    pose proof (Hstep ak rule stf tgf tvs sv Htvs (Hsvs sv ltac:(apply list_elem_of_here)) Hres)
      as H1.
    pose proof (propagate_rule_step_tiles ak rule stf tgf tvs sv) as Ht.
    destruct (propagate_rule_step ak rule stf tgf tvs sv) as [a2 added|a2 e]; simpl in *;
      [|exact H1].
    apply IH; [| |exact H1]; intros x Hx; rewrite Ht; auto.
    apply Hsvs. apply list_elem_of_further. exact Hx. }
  assert (Hrule : forall ak rule, rules_resolve ak ->
            rules_resolve (final_state (propagate_rule ak rule))).
  { intros ak rule Hres. unfold propagate_rule.
    destruct (Atlas.rules ak !! rule) as [r0|]; [|exact Hres].
    destruct (Atlas.get_tile ak _) as [src|]; [|exact Hres].
    destruct (Atlas.get_tile ak _) as [tgt|]; [|exact Hres].
    apply Hloop; [| |exact Hres]; intros x Hx;
      apply list_elem_of_filter in Hx as [_ Hx]; exact Hx. }
  assert (Hall : forall rules0 ak total, rules_resolve ak ->
            rules_resolve (final_state (propagate_all_loop ak rules0 total))).
  { induction rules0 as [|rule rest IH]; intros ak total Hres; simpl; [exact Hres|].
    pose proof (Hrule ak rule Hres) as H1.
    destruct (propagate_rule ak rule) as [a2 nr|a2 e]; simpl in *; [|exact H1].
    apply IH. exact H1. }
  intros Hres. unfold propagate_all_rules.
  destruct (remove_auto_rules_data a) as [Ht Hr].
  destruct (Atlas.remove_auto_rules a) as [a1 k]. simpl in *.
  apply Hall. intros r Hin. rewrite Hr in Hin. apply list_elem_of_filter in Hin as [_ Hin].
  unfold Atlas.get_tile. rewrite Ht. apply Hres. exact Hin.
Qed.

Lemma propagate_all_keeps_rules_resolving_witness :
  rules_resolve (final_state (propagate_all_rules atlas_S3)).
Proof.
  apply (propagate_all_keeps_rules_resolving atlas_S3).
  intros r Hr. apply list_elem_of_singleton in Hr. subst r. vm_compute. eauto.
Defined.

End PropagationClosure.

(** ** Creating the variants that propagation needs *)

Section EnsureVariants.

Lemma get_tile_prefix (a a' : Atlas.t) (id : string) (t : Tile.t) :
  Atlas.tiles a `prefix_of` Atlas.tiles a' ->
  Atlas.get_tile a id = Some t -> Atlas.get_tile a' id = Some t.
Proof.
  intros [k Hk] Hget. unfold Atlas.get_tile in *. rewrite Hk, first_app, Hget. reflexivity.
Qed.

Lemma ensure_variant_spec (base_id : string) (ak : Atlas.t) (nt : list Tile.t)
    (tr : Transform.t) :
  let a2 := fst (ensure_variant base_id (ak, nt) tr) in
  let nt2 := snd (ensure_variant base_id (ak, nt) tr) in
  Atlas.tiles ak `prefix_of` Atlas.tiles a2 /\
  Atlas.rules a2 = Atlas.rules ak /\ Atlas.settings a2 = Atlas.settings ak /\
  Atlas.base_tiles a2 = Atlas.base_tiles ak /\
  is_Some (Atlas.get_tile a2 (ensured_id base_id tr)) /\
  (forall t, t ∈ nt2 -> t ∈ nt \/ (t ∈ Atlas.tiles a2 /\ t ∉ Atlas.tiles ak)) /\
  (nt `prefix_of` nt2).
Proof.
  unfold ensure_variant.
  destruct (Atlas.get_tile ak (ensured_id base_id tr)) as [t0|] eqn:E; simpl.
  { rewrite E. repeat split; eauto. }
  destruct tr as [r fx fy]. simpl.
  pose proof (add_tile_variant_idempotent ak base_id r fx fy) as (Hid & Hget & Hpre & Hr & _).
  rewrite (proj1 (create_id_transform_suffix base_id r fx fy)) in *.
  unfold Atlas.add_tile_variant in *. rewrite E in *. simpl in *.
  split; [exact Hpre|]. split; [reflexivity|]. split; [reflexivity|]. split; [reflexivity|].
  split; [rewrite Hget; eauto|]. split; [|apply prefix_app_r; reflexivity].
  intros t Ht. apply elem_of_app in Ht as [Ht|Ht]; [left; exact Ht|].
  apply list_elem_of_singleton in Ht. subst t. right. split.
  - apply elem_of_app. right. apply list_elem_of_here.
  - intros Hin. unfold Atlas.get_tile in E. rewrite first_None in E.
    apply (E _ Hin). reflexivity.
Qed.

Lemma ensure_fold_spec (base_id : string) (ts : list Transform.t) :
  forall (ak : Atlas.t) (nt : list Tile.t),
    let a2 := fst (foldl (ensure_variant base_id) (ak, nt) ts) in
    let nt2 := snd (foldl (ensure_variant base_id) (ak, nt) ts) in
    Atlas.tiles ak `prefix_of` Atlas.tiles a2 /\
    Atlas.rules a2 = Atlas.rules ak /\ Atlas.settings a2 = Atlas.settings ak /\
    Atlas.base_tiles a2 = Atlas.base_tiles ak /\
    (forall tr, tr ∈ ts -> is_Some (Atlas.get_tile a2 (ensured_id base_id tr))) /\
    (forall t, t ∈ nt2 -> t ∈ nt \/ (t ∈ Atlas.tiles a2 /\ t ∉ Atlas.tiles ak)) /\
    (nt `prefix_of` nt2).
Proof.
  induction ts as [|tr ts IH]; intros ak nt; cbn [foldl].
  - simpl. repeat split; auto. intros tr Htr. inversion Htr.
  - pose proof (ensure_variant_spec base_id ak nt tr) as (Hp1 & Hr1 & Hs1 & Hb1 & Hg1 & Hn1 & Hq1).
    destruct (ensure_variant base_id (ak, nt) tr) as [a1 nt1]. cbv zeta in *. simpl in *.
    destruct (IH a1 nt1) as (Hp2 & Hr2 & Hs2 & Hb2 & Hg2 & Hn2 & Hq2).
    split; [etrans; eauto|]. split; [congruence|]. split; [congruence|].
    split; [congruence|]. split; [|split; [|etrans; eauto]].
    + intros tr' Htr'. apply elem_of_cons in Htr' as [->|Htr']; [|auto].
      destruct Hg1 as [t0 Ht0]. exists t0. eapply get_tile_prefix; eauto.
    + intros t Ht. destruct (Hn2 t Ht) as [Hin|[Hin Hnot]].
      * destruct (Hn1 t Hin) as [?|[Hin1 Hnot1]]; [auto|]. right. split; [|exact Hnot1].
        destruct Hp2 as [k ->]. apply elem_of_app. auto.
      * right. split; [exact Hin|]. intros Hak. apply Hnot.
        destruct Hp1 as [k ->]. apply elem_of_app. auto.
Qed.

(** X14: [ensure_tile_variants_for_rule] keeps every variant, rule and
    base tile of the atlas; the tiles it reports are in the atlas
    afterwards and were not before; when the two tiles of the rule
    exist, afterwards each identifier asked for by the settings, on the
    bases of both tiles, resolves; and with both settings off it asks
    for none. *)
Theorem ensure_variants_creates_missing (a : Atlas.t) (rule : AdjacencyRule.t) :
  let a1 := fst (ensure_tile_variants_for_rule a rule) in
  let new_tiles := snd (ensure_tile_variants_for_rule a rule) in
  Atlas.tiles a `prefix_of` Atlas.tiles a1 /\
  Atlas.rules a1 = Atlas.rules a /\
  Atlas.base_tiles a1 = Atlas.base_tiles a /\
  (forall t, t ∈ new_tiles -> t ∈ Atlas.tiles a1 /\ t ∉ Atlas.tiles a) /\
  (forall st tg tr,
     Atlas.get_tile a (AdjacencyRule.tile_id rule) = Some st ->
     Atlas.get_tile a (AdjacencyRule.neighbor_id rule) = Some tg ->
     tr ∈ transforms_to_create (Atlas.settings a) ->
     is_Some (Atlas.get_tile a1 (Tile.create_id (Tile.base_tile_id st) (Transform.rotation tr)
                                   (Transform.flip_x tr) (Transform.flip_y tr))) /\
     is_Some (Atlas.get_tile a1 (Tile.create_id (Tile.base_tile_id tg) (Transform.rotation tr)
                                   (Transform.flip_x tr) (Transform.flip_y tr)))) /\
  (Settings.auto_propagate_rotations (Atlas.settings a) = false ->
   Settings.auto_propagate_mirrors (Atlas.settings a) = false ->
   transforms_to_create (Atlas.settings a) = []).
Proof.
  assert (Hid : forall b tr, Tile.create_id b (Transform.rotation tr) (Transform.flip_x tr)
                               (Transform.flip_y tr) = ensured_id b tr).
  { intros b [r fx fy]. symmetry. apply create_id_transform_suffix. }
  unfold ensure_tile_variants_for_rule.
  destruct (Atlas.get_tile a (AdjacencyRule.tile_id rule)) as [st|] eqn:Est.
  2:{ simpl. split; [reflexivity|]. split; [reflexivity|]. split; [reflexivity|].
      split; [intros t Ht; inversion Ht|].
      split; [intros st' tg' tr Hs Ht; congruence|].
      intros H1 H2. unfold transforms_to_create. rewrite H1, H2. reflexivity. }
  destruct (Atlas.get_tile a (AdjacencyRule.neighbor_id rule)) as [tg|] eqn:Etg.
  2:{ simpl. split; [reflexivity|]. split; [reflexivity|]. split; [reflexivity|].
      split; [intros t Ht; inversion Ht|].
      split; [intros st' tg' tr Hs Ht; congruence|].
      intros H1 H2. unfold transforms_to_create. rewrite H1, H2. reflexivity. }
  cbn [foldl].
  pose proof (ensure_fold_spec (Tile.base_tile_id st) (transforms_to_create (Atlas.settings a))
                a []) as (Hp1 & Hr1 & Hs1 & Hb1 & Hg1 & Hn1 & _).
  destruct (foldl (ensure_variant (Tile.base_tile_id st)) (a, [])
              (transforms_to_create (Atlas.settings a))) as [a1 nt1].
  cbv zeta in *. simpl in Hp1, Hr1, Hs1, Hb1, Hg1, Hn1.
  pose proof (ensure_fold_spec (Tile.base_tile_id tg) (transforms_to_create (Atlas.settings a))
                a1 nt1) as (Hp2 & Hr2 & Hs2 & Hb2 & Hg2 & Hn2 & _).
  destruct (foldl (ensure_variant (Tile.base_tile_id tg)) (a1, nt1)
              (transforms_to_create (Atlas.settings a))) as [a2 nt2].
  cbv zeta in *. simpl in *.
  split; [etrans; eauto|]. split; [congruence|]. split; [congruence|].
  split; [|split].
  - intros t Ht. destruct (Hn2 t Ht) as [Hin|[Hin Hnot]].
    + destruct (Hn1 t Hin) as [Hnil|[Hin1 Hnot1]]; [inversion Hnil|].
      split; [|exact Hnot1]. destruct Hp2 as [k ->]. apply elem_of_app. auto.
    + split; [exact Hin|]. intros Ha. apply Hnot.
      destruct Hp1 as [k ->]. apply elem_of_app. auto.
  - intros st' tg' tr [= <-] [= <-] Htr. rewrite !Hid. split; [|auto].
    destruct (Hg1 tr Htr) as [t0 Ht0]. exists t0. eapply get_tile_prefix; eauto.
  - intros H1 H2. unfold transforms_to_create. rewrite H1, H2. reflexivity.
Qed.

Lemma ensure_variants_creates_missing_witness :
  let a1 := fst (ensure_tile_variants_for_rule atlas_S3
                   (AdjacencyRule.Build "A" right "B" (inject_Z 100) false)) in
  is_Some (Atlas.get_tile a1 (Tile.create_id "A" 0 false true)) /\
  is_Some (Atlas.get_tile a1 (Tile.create_id "B" 0 false true)).
Proof.
  refine (proj1 (proj2 (proj2 (proj2 (proj2 (ensure_variants_creates_missing atlas_S3
            (AdjacencyRule.Build "A" right "B" (inject_Z 100) false))))))
            (Tile.Build "A" "A" 0 false false true) (Tile.Build "B" "B" 0 false false true)
            (Transform.Build 0 false true) _ _ _).
  - reflexivity.
  - reflexivity.
  - vm_compute. repeat constructor.
Defined.

End EnsureVariants.

(** ** The lookup tables: weights and the two directions *)

Section LookupTables.

Import TileAtlas.

Lemma index_rule_weight acc (r : Rule.t) tile side neighbor :
  adjacency_weight (fst (index_rule acc r)) tile side neighbor =
  if decide (Rule.tile r = tile /\ Rule.side r = side /\ Rule.neighbor r = neighbor)
  then Some (Rule.weight r)
  else adjacency_weight (fst acc) tile side neighbor.
Proof.
  destruct acc as [adj rev]. unfold index_rule, adjacency_weight. simpl.
  destruct (decide (Rule.tile r = tile)) as [<-|Hne].
  2:{ rewrite lookup_alter_ne by auto.
      rewrite decide_False by tauto.
      destruct (adj !! Rule.tile r); [reflexivity|].
      rewrite lookup_insert_ne by auto. reflexivity. }
  rewrite lookup_alter_eq.
  assert (Heq : match adj !! Rule.tile r with
                | Some _ => adj
                | None => <[Rule.tile r := fun _ => ∅]> adj
                end !! Rule.tile r = Some (default (fun _ => ∅) (adj !! Rule.tile r))).
  { destruct (adj !! Rule.tile r) eqn:E; simpl; [exact E|]. apply lookup_insert_eq. }
  rewrite Heq. simpl.
  destruct (decide (side = Rule.side r)) as [Hs|Hs].
  - subst side. destruct (decide (Rule.neighbor r = neighbor)) as [<-|Hn].
    + rewrite lookup_insert_eq, decide_True by auto. reflexivity.
    + rewrite lookup_insert_ne by auto. rewrite decide_False by tauto.
      destruct (adj !! Rule.tile r); reflexivity.
  - rewrite decide_False by (intros (_ & ? & _); congruence).
    destruct (adj !! Rule.tile r); reflexivity.
Qed.

Lemma foldl_index_rule_fst_app acc (l1 l2 : list Rule.t) :
  foldl index_rule acc (l1 ++ l2) = foldl index_rule (foldl index_rule acc l1) l2.
Proof. apply foldl_app. Qed.

Lemma foldl_index_rule_weight_keep (l : list Rule.t) :
  forall acc tile side neighbor,
    (forall r, r ∈ l ->
       ~ (Rule.tile r = tile /\ Rule.side r = side /\ Rule.neighbor r = neighbor)) ->
    adjacency_weight (fst (foldl index_rule acc l)) tile side neighbor =
    adjacency_weight (fst acc) tile side neighbor.
Proof.
  induction l as [|r l IH]; intros acc tile side neighbor Hno; [reflexivity|].
  cbn [foldl]. rewrite IH.
  - rewrite index_rule_weight, decide_False; [reflexivity|]. apply Hno. left.
  - intros r' Hr'. apply Hno. right. exact Hr'.
Qed.

Lemma get_valid_neighbors_weight (a : TileAtlas.t) tile side neighbor :
  get_valid_neighbors a tile side !! neighbor =
  adjacency_weight (_adjacency a) tile side neighbor.
Proof.
  unfold get_valid_neighbors, adjacency_weight.
  destruct (_adjacency a !! tile); simpl; [reflexivity|apply lookup_empty].
Qed.

(** X15: after [build_adjacency_lookup] the two tables agree with the
    rules and with each other: [can_be_neighbor(T, s, N)] holds exactly
    when the rule (T, s, N) is among the rules, exactly when T is in
    [get_tiles_allowing_neighbor(s, N)]; and the weight kept for a key
    is the weight of the last rule with that key. *)
Theorem lookup_tables_agree (a0 : TileAtlas.t) (tile : string) (side : Side)
    (neighbor : string) :
  let a := build_adjacency_lookup a0 in
  (can_be_neighbor a tile side neighbor = true <->
   has_rule (rules a0) tile side neighbor) /\
  (tile ∈ get_tiles_allowing_neighbor a side neighbor <->
   can_be_neighbor a tile side neighbor = true) /\
  (forall l1 r l2,
     rules a0 = l1 ++ r :: l2 ->
     Rule.tile r = tile -> Rule.side r = side -> Rule.neighbor r = neighbor ->
     (forall r', r' ∈ l2 ->
        ~ (Rule.tile r' = tile /\ Rule.side r' = side /\ Rule.neighbor r' = neighbor)) ->
     get_valid_neighbors a tile side !! neighbor = Some (Rule.weight r)) /\
  tiles a = tiles a0 /\ rules a = rules a0.
Proof.
  cbv zeta.
  assert (Hcan : can_be_neighbor (build_adjacency_lookup a0) tile side neighbor = true <->
                 has_rule (rules a0) tile side neighbor).
  { unfold can_be_neighbor. rewrite bool_decide_eq_true. apply get_valid_neighbors_built. }
  split; [exact Hcan|]. split; [|split; [|split]].
  - rewrite Hcan. apply get_tiles_allowing_neighbor_built.
  - intros l1 r l2 Hrules Ht Hs Hn Hlast.
    rewrite get_valid_neighbors_weight. unfold build_adjacency_lookup.
    destruct (foldl index_rule (∅, fun _ => ∅) (rules a0)) as [adj rev] eqn:E. simpl.
    change adj with (fst (adj, rev)). rewrite <- E, Hrules.
    rewrite foldl_index_rule_fst_app. cbn [foldl].
    rewrite foldl_index_rule_weight_keep by exact Hlast.
    rewrite index_rule_weight, decide_True by auto. reflexivity.
  - unfold build_adjacency_lookup. destruct (foldl _ _ _). reflexivity.
  - apply build_adjacency_lookup_rules.
Qed.

Lemma lookup_tables_agree_witness :
  get_valid_neighbors
    (build_adjacency_lookup
       (TileAtlas.Build ∅ [Rule.Build "X" right "X" (inject_Z 30) false;
                           Rule.Build "X" right "X" (inject_Z 70) false] ∅ (fun _ => ∅)))
    "X" right !! "X" = Some (inject_Z 70).
Proof.
  apply (proj1 (proj2 (proj2 (lookup_tables_agree
           (TileAtlas.Build ∅ [Rule.Build "X" right "X" (inject_Z 30) false;
                               Rule.Build "X" right "X" (inject_Z 70) false] ∅ (fun _ => ∅))
           "X" right "X")))
         [Rule.Build "X" right "X" (inject_Z 30) false]
         (Rule.Build "X" right "X" (inject_Z 70) false) []); try reflexivity.
  intros r' Hr'. inversion Hr'.
Defined.

End LookupTables.

(** ** What the operations of the engine leave alone *)

Section EngineFrame.

Import WFCEngine.

Lemma set_state_timer (s : t) (v : EngineState) :
  timer_active (set_state s v) = timer_active s.
Proof. unfold set_state. destruct (decide _); reflexivity. Qed.

Lemma same_frame_refl (s : t) : same_frame s s.
Proof. repeat apply conj; reflexivity. Qed.

Lemma same_frame_trans (s1 s2 s3 : t) :
  same_frame s1 s2 -> same_frame s2 s3 -> same_frame s1 s3.
Proof.
  intros (H1 & H2 & H3 & H4) (G1 & G2 & G3 & G4).
  repeat apply conj; congruence.
Qed.

Lemma same_frame_cells (s s' : t) :
  atlas s' = atlas s -> width s' = width s -> height s' = height s ->
  cells s' = cells s -> same_frame s s'.
Proof. intros H1 H2 H3 H4. repeat apply conj; congruence. Qed.

Lemma same_frame_insert (s s' : t) (pos : Z * Z) (c c' : CellState.t) :
  atlas s' = atlas s -> width s' = width s -> height s' = height s ->
  cells s !! pos = Some c -> cells s' = <[pos := c']> (cells s) -> same_frame s s'.
Proof.
  intros H1 H2 H3 Hc H4. repeat apply conj; try congruence.
  rewrite H4. apply dom_insert_lookup_L. eauto.
Qed.

Lemma propagate_steps_same_frame (s s' : t) : rtc propagate_step s s' -> same_frame s s'.
Proof.
  intros H. destruct (propagate_steps_frame _ _ H) as (H1 & H2 & H3 & _ & _ & _ & H4 & _).
  repeat apply conj; assumption.
Qed.

Lemma contradiction_at_frame (s : t) (x y : Z) :
  same_frame s (contradiction_at s x y).
Proof.
  apply same_frame_cells; [| | |apply contradiction_at_cells];
    unfold contradiction_at, emit; simpl.
  - apply (set_state_atlas (timer_stop s)).
  - apply (set_state_width (timer_stop s)).
  - apply (set_state_height (timer_stop s)).
Qed.

Lemma _step_frame (s : t) (r1 r2 : nat) : same_frame s (final_state (_step s r1 r2)).
Proof.
  unfold _step.
  destruct (scan _ _ _) as [[x y]|candidates]; [apply contradiction_at_frame|].
  destruct candidates as [|c0 cs].
  { simpl. apply same_frame_cells.
    - apply (set_state_atlas (timer_stop s)).
    - apply (set_state_width (timer_stop s)).
    - apply (set_state_height (timer_stop s)).
    - apply (set_state_cells (timer_stop s)). }
  destruct (random_choice r1 _) as [[x y]|]; [|apply same_frame_refl].
  destruct (cells s !! (x, y)) as [cell|] eqn:Hc; [|apply same_frame_refl].
  destruct (atlas s) as [a|] eqn:Ha; [|apply same_frame_refl].
  destruct (decide _) as [|Hne]; [apply contradiction_at_frame|].
  destruct (random_choice r2 _) as [tile_id|] eqn:Hr2; [|apply same_frame_refl].
  eapply same_frame_trans; [|apply propagate_steps_same_frame, _propagate_steps].
  apply (same_frame_insert s _ (x, y) cell
           (CellState.set_possibilities
              (CellState.set_collapsed_tile cell (Some tile_id)) {[tile_id]}));
    auto.
Qed.

Lemma lock_cell_collapse_frame (s : t) (x y : Z) (cell : CellState.t) (tile_id : string) :
  atlas (lock_cell_collapse s x y cell tile_id) = atlas s /\
  width (lock_cell_collapse s x y cell tile_id) = width s /\
  height (lock_cell_collapse s x y cell tile_id) = height s /\
  _state (lock_cell_collapse s x y cell tile_id) = _state s /\
  timer_active (lock_cell_collapse s x y cell tile_id) = timer_active s /\
  cells (lock_cell_collapse s x y cell tile_id) =
    <[(x, y) := CellState.Build (CellState.x cell) (CellState.y cell) {[tile_id]}
                  (Some tile_id) true]> (cells s).
Proof. unfold lock_cell_collapse. destruct (_ || _); repeat apply conj; reflexivity. Qed.

Lemma lock_cell_frame (s : t) (x y : Z) (tile_id : string) :
  same_frame s (final_state (lock_cell s x y tile_id)).
Proof.
  unfold lock_cell. destruct (cells s !! (x, y)) as [cell|] eqn:Hc; [|apply same_frame_refl].
  eapply same_frame_trans; [|apply propagate_steps_same_frame, _propagate_steps].
  destruct (lock_cell_collapse_frame s x y cell tile_id) as (H1 & H2 & H3 & _ & _ & H4).
  eapply same_frame_insert; eauto.
Qed.

(** The engine of [unlock_cell] before the loop over the neighbours. *)
Lemma unlock_cell_unfold (s : t) (x y : Z) (cell : CellState.t) (a : TileAtlas.t) :
  cells s !! (x, y) = Some cell -> atlas s = Some a ->
  exists s5,
    unlock_cell s x y = unlock_repropagate s5 (_get_neighbors s5 x y) /\
    atlas s5 = atlas s /\ width s5 = width s /\ height s5 = height s /\
    timer_active s5 = timer_active s /\
    (state s5 = state s \/
     (state s = FINISHED \/ state s = CONTRADICTION) /\ state s5 = IDLE) /\
    cells s5 = <[(x, y) := CellState.Build (CellState.x cell) (CellState.y cell)
                             (TileAtlas.get_enabled_tile_ids a) None false]> (cells s).
Proof.
  intros Hc Ha. unfold unlock_cell. rewrite Hc, Ha. cbv zeta.
  eexists. split; [reflexivity|]. simpl.
  destruct (CellState.is_collapsed cell); simpl;
    destruct (bool_decide (size (CellState.possibilities cell) = 0%nat)); simpl;
    try (destruct (bool_decide _) eqn:E;
         [apply bool_decide_eq_true in E|]);
    rewrite ?set_state_cells, ?set_state_atlas, ?set_state_width, ?set_state_height;
    repeat apply conj; auto;
    try (right; split; [exact E|]);
    try apply set_state_state;
    try (rewrite set_state_timer; reflexivity).
Qed.

Lemma unlock_cell_frame (s : t) (x y : Z) :
  same_frame s (final_state (unlock_cell s x y)).
Proof.
  destruct (cells s !! (x, y)) as [cell|] eqn:Hc.
  2:{ unfold unlock_cell. rewrite Hc. apply same_frame_refl. }
  destruct (atlas s) as [a|] eqn:Ha.
  - destruct (unlock_cell_unfold s x y cell a Hc Ha) as (s5 & -> & H1 & H2 & H3 & _ & _ & H4).
    eapply same_frame_trans; [|apply propagate_steps_same_frame, unlock_repropagate_steps].
    eapply same_frame_insert; eauto.
  - unfold unlock_cell. rewrite Hc, Ha. simpl.
    eapply same_frame_insert; eauto.
Qed.

End EngineFrame.

(** ** The solver keeps a valid grid valid *)

Section SolverSafety.

Import WFCEngine.

Lemma opposite_opposite (side : Side) : opposite (opposite side) = side.
Proof. destruct side; reflexivity. Qed.

Lemma elem_of_neighbors_with_sides (s : t) (x y nx ny : Z) (side : Side) :
  (nx, ny, side) ∈ _get_neighbors_with_sides s x y <->
  (0 <= nx < width s /\ 0 <= ny < height s) /\
  match side with
  | left => nx = x - 1 /\ ny = y
  | right => nx = x + 1 /\ ny = y
  | top => nx = x /\ ny = y - 1
  | bottom => nx = x /\ ny = y + 1
  end.
Proof.
  unfold _get_neighbors_with_sides. rewrite list_elem_of_omap. split.
  - intros ([[dx dy] sd] & Hin & H). destruct (decide _) as [Hb|]; [|discriminate].
    injection H as <- <- <-. split; [exact Hb|].
    rewrite !elem_of_cons, elem_of_nil in Hin.
    destruct Hin as [[= -> -> ->]|[[= -> -> ->]|[[= -> -> ->]|[[= -> -> ->]|[]]]]]; lia.
  - intros [Hb Hs].
    exists (nx - x, ny - y, side). split.
    + destruct side; destruct Hs as [-> ->]; rewrite !elem_of_cons;
        [do 2 right; left|right; left|do 3 right; left|left]; f_equal; f_equal; lia.
    + replace (x + (nx - x)) with nx by lia. replace (y + (ny - y)) with ny by lia.
      rewrite decide_True by exact Hb. reflexivity.
Qed.

Lemma neighbors_sym (s : t) (x y nx ny : Z) (side : Side) :
  0 <= x < width s -> 0 <= y < height s ->
  (nx, ny, side) ∈ _get_neighbors_with_sides s x y ->
  (x, y, opposite side) ∈ _get_neighbors_with_sides s nx ny.
Proof.
  intros Hx Hy. rewrite !elem_of_neighbors_with_sides.
  intros [_ Hs]. split; [auto|]. destruct side; simpl; lia.
Qed.

Lemma neighbors_with_sides_frame (s s' : t) (x y : Z) :
  width s' = width s -> height s' = height s ->
  _get_neighbors_with_sides s' x y = _get_neighbors_with_sides s x y.
Proof. intros Hw Hh. unfold _get_neighbors_with_sides. rewrite Hw, Hh. reflexivity. Qed.

Lemma validate_grid_consistent (e : t) (a0 : TileAtlas.t) :
  atlas e = Some (TileAtlas.build_adjacency_lookup a0) ->
  validate_grid e = [] <-> consistent (TileAtlas.rules a0) e.
Proof.
  intros Ha. split.
  - intros Hempty x y c T nx ny side nb N Hx Hy Hc HT Hn Hnb HN.
    apply get_valid_neighbors_built.
    destruct (TileAtlas.get_valid_neighbors (TileAtlas.build_adjacency_lookup a0) T side !! N)
      as [w|] eqn:E; [eauto|].
    exfalso.
    assert (Hin : violation x y T N side ∈ validate_grid e).
    { apply (elem_of_validate_grid e _ _ Ha).
      exists x, y, c, T, nx, ny, side, nb, N. auto 10. }
    rewrite Hempty in Hin. inversion Hin.
  - intros Hall. destruct (validate_grid e) as [|msg l] eqn:E; [reflexivity|].
    exfalso.
    assert (Hin : msg ∈ validate_grid e) by (rewrite E; apply list_elem_of_here).
    apply (elem_of_validate_grid e _ _ Ha) in Hin
      as (x & y & c & T & nx & ny & side & nb & N & [Hx Hy] & Hc & HT & Hn & Hnb & HN & Hnone & _).
    pose proof (Hall x y c T nx ny side nb N Hx Hy Hc HT Hn Hnb HN) as Hr.
    apply get_valid_neighbors_built in Hr. rewrite Hnone in Hr. destruct Hr as [? [=]].
Qed.

(** Fewer collapsed cells: consistency is kept. *)
Lemma consistent_anti (rules0 : list Rule.t) (s s' : t) :
  width s' = width s -> height s' = height s ->
  (forall pos c' T, cells s' !! pos = Some c' -> CellState.collapsed_tile c' = Some T ->
     exists c, cells s !! pos = Some c /\ CellState.collapsed_tile c = Some T) ->
  consistent rules0 s -> consistent rules0 s'.
Proof.
  intros Hw Hh Hsub Hs x y c T nx ny side nb N Hx Hy Hc HT Hn Hnb HN.
  rewrite (neighbors_with_sides_frame s s') in Hn by assumption.
  rewrite Hw in Hx. rewrite Hh in Hy.
  destruct (Hsub _ _ _ Hc HT) as (c0 & Hc0 & HT0).
  destruct (Hsub _ _ _ Hnb HN) as (nb0 & Hnb0 & HN0).
  exact (Hs x y c0 T nx ny side nb0 N Hx Hy Hc0 HT0 Hn Hnb0 HN0).
Qed.

Lemma consistent_frame (rules0 : list Rule.t) (s s' : t) :
  width s' = width s -> height s' = height s -> cells s' = cells s ->
  consistent rules0 s -> consistent rules0 s'.
Proof.
  intros Hw Hh Hc. apply consistent_anti; auto.
  intros pos c' T H1 H2. rewrite Hc in H1. eauto.
Qed.

(** One more collapsed cell, with a tile that is admissible there:
    consistency is kept. *)
Lemma consistent_collapse (rules0 : list Rule.t) (s s' : t) (x y : Z) (c' : CellState.t)
    (T : string) :
  width s' = width s -> height s' = height s ->
  cells s' = <[(x, y) := c']> (cells s) ->
  CellState.collapsed_tile c' = Some T ->
  admissible rules0 s x y T ->
  consistent rules0 s -> consistent rules0 s'.
Proof.
  intros Hw Hh Hcells HT' Hadm Hs x1 y1 c1 T1 nx ny side nb N Hx Hy Hc HT Hn Hnb HN.
  rewrite (neighbors_with_sides_frame s s') in Hn by assumption.
  rewrite Hw in Hx. rewrite Hh in Hy. rewrite Hcells in Hc, Hnb.
  assert (Hne : (nx, ny) <> (x1, y1)).
  { intros [= -> ->]. apply neighbors_around in Hn. exact (around_irrefl _ _ Hn). }
  destruct (decide ((x, y) = (x1, y1))) as [[= <- <-]|Hne1].
  - rewrite lookup_insert_eq in Hc. injection Hc as <-.
    rewrite lookup_insert_ne in Hnb by congruence.
    assert (T1 = T) by congruence. subst T1.
    exact (proj1 (Hadm nx ny side nb N Hn Hnb HN)).
  - rewrite lookup_insert_ne in Hc by auto.
    destruct (decide ((x, y) = (nx, ny))) as [[= <- <-]|Hne2].
    + rewrite lookup_insert_eq in Hnb. injection Hnb as <-.
      assert (N = T) by congruence. subst N.
      pose proof (neighbors_sym s x1 y1 x y side Hx Hy Hn) as Hsym.
      destruct (Hadm x1 y1 (opposite side) c1 T1 Hsym Hc HT) as [_ H].
      rewrite opposite_opposite in H. exact H.
    + rewrite lookup_insert_ne in Hnb by auto.
      exact (Hs x1 y1 c1 T1 nx ny side nb N Hx Hy Hc HT Hn Hnb HN).
Qed.

Lemma propagate_step_consistent (a0 : TileAtlas.t) (s s' : t) :
  propagate_step s s' ->
  atlas s = Some (TileAtlas.build_adjacency_lookup a0) ->
  consistent (TileAtlas.rules a0) s -> consistent (TileAtlas.rules a0) s'.
Proof.
  intros Hstep Ha Hs.
  destruct Hstep as [s x y cell a Hc Hn Ha'|s x y cell a tile Hc Hn Ha' Hv].
  - apply (consistent_anti _ s); [reflexivity|reflexivity| |exact Hs].
    intros pos c' T H1 H2. simpl in H1.
    destruct (decide ((x, y) = pos)) as [<-|Hne].
    + rewrite lookup_insert_eq in H1. injection H1 as <-. simpl in H2. congruence.
    + rewrite lookup_insert_ne in H1 by auto. eauto.
  - assert (a = TileAtlas.build_adjacency_lookup a0) by congruence. subst a.
    apply (consistent_collapse _ s _ x y
             (CellState.set_collapsed_tile
                (CellState.set_possibilities cell
                   (valid_tiles (TileAtlas.build_adjacency_lookup a0) s x y)) (Some tile)) tile);
      [reflexivity|reflexivity| | | |exact Hs].
    + simpl. apply insert_insert_eq.
    + reflexivity.
    + apply valid_tiles_admissible. rewrite Hv. apply elem_of_singleton. reflexivity.
Qed.

Lemma propagate_steps_consistent (a0 : TileAtlas.t) (s s' : t) :
  rtc propagate_step s s' ->
  atlas s = Some (TileAtlas.build_adjacency_lookup a0) ->
  consistent (TileAtlas.rules a0) s -> consistent (TileAtlas.rules a0) s'.
Proof.
  induction 1 as [s|s s1 s2 Hstep _ IH]; intros Ha Hs; [exact Hs|].
  apply IH.
  - destruct (propagate_step_frame _ _ Hstep) as [-> _]. exact Ha.
  - eapply propagate_step_consistent; eauto.
Qed.

Lemma _step_consistent (a0 : TileAtlas.t) (s : t) (r1 r2 : nat) :
  atlas s = Some (TileAtlas.build_adjacency_lookup a0) ->
  consistent (TileAtlas.rules a0) s ->
  consistent (TileAtlas.rules a0) (final_state (_step s r1 r2)).
Proof.
  intros Ha Hs. unfold _step.
  assert (Hcontra : forall x y, consistent (TileAtlas.rules a0) (contradiction_at s x y)).
  { intros x y. apply (consistent_frame _ s); [| |apply contradiction_at_cells|exact Hs].
    - unfold contradiction_at, emit. simpl. apply (set_state_width (timer_stop s)).
    - unfold contradiction_at, emit. simpl. apply (set_state_height (timer_stop s)). }
  destruct (scan _ _ _) as [[x y]|candidates]; [apply Hcontra|].
  destruct candidates as [|c0 cs].
  { simpl. apply (consistent_frame _ s); [| | |exact Hs].
    - apply (set_state_width (timer_stop s)).
    - apply (set_state_height (timer_stop s)).
    - apply (set_state_cells (timer_stop s)). }
  destruct (random_choice r1 _) as [[x y]|]; [|exact Hs].
  destruct (cells s !! (x, y)) as [cell|] eqn:Hc; [|exact Hs].
  rewrite Ha. destruct (decide _) as [|Hne]; [apply Hcontra|].
  destruct (random_choice r2 _) as [tile_id|] eqn:Hr2; [|exact Hs].
  eapply propagate_steps_consistent; [apply _propagate_steps|exact Ha|].
  apply (consistent_collapse _ s _ x y
           (CellState.set_possibilities
              (CellState.set_collapsed_tile cell (Some tile_id)) {[tile_id]}) tile_id);
    [reflexivity|reflexivity| | | |exact Hs].
  - reflexivity.
  - reflexivity.
  - apply valid_tiles_admissible. apply random_choice_elem_of in Hr2.
    apply elem_of_elements in Hr2. exact Hr2.
Qed.

Lemma unlock_cell_consistent (a0 : TileAtlas.t) (s : t) (x y : Z) :
  atlas s = Some (TileAtlas.build_adjacency_lookup a0) ->
  consistent (TileAtlas.rules a0) s ->
  consistent (TileAtlas.rules a0) (final_state (unlock_cell s x y)).
Proof.
  intros Ha Hs. unfold unlock_cell.
  destruct (cells s !! (x, y)) as [cell|] eqn:Hc; [|exact Hs].
  rewrite Ha. cbv zeta.
  match goal with
  | |- consistent _ (final_state (unlock_repropagate ?s5 _)) => set (e5 := s5)
  end.
  assert (H5 : atlas e5 = atlas s /\ width e5 = width s /\ height e5 = height s /\
               cells e5 = <[(x, y) := CellState.set_possibilities
                                        (CellState.set_collapsed_tile
                                           (CellState.set_locked cell false) None)
                                        (TileAtlas.get_enabled_tile_ids
                                           (TileAtlas.build_adjacency_lookup a0))]> (cells s)).
  { unfold e5. simpl.
    destruct (CellState.is_collapsed cell); simpl;
      destruct (bool_decide (size (CellState.possibilities cell) = 0%nat)); simpl;
      try destruct (bool_decide _);
      rewrite ?set_state_cells, ?set_state_atlas, ?set_state_width, ?set_state_height;
      auto. }
  destruct H5 as (Ha5 & Hw5 & Hh5 & Hc5).
  eapply propagate_steps_consistent; [apply unlock_repropagate_steps|congruence|].
  apply (consistent_anti _ s); [exact Hw5|exact Hh5| |exact Hs].
  intros pos c' T H1 H2. rewrite Hc5 in H1.
  destruct (decide ((x, y) = pos)) as [<-|Hne].
  - rewrite lookup_insert_eq in H1. injection H1 as <-. discriminate H2.
  - rewrite lookup_insert_ne in H1 by auto. eauto.
Qed.

(** X16: the solver keeps a valid grid valid.  With the atlas loaded,
    the grid that [initialize] or [clear_all] leaves has no violation,
    and when [validate_grid] reports none, it reports none after
    [_step], after [_propagate] and after [unlock_cell], whatever
    [random.choice] draws. *)
Theorem solver_keeps_grid_valid (a0 : TileAtlas.t) (e : t) :
  atlas e = Some (TileAtlas.build_adjacency_lookup a0) ->
  (forall e0 w h,
     validate_grid (initialize e0 (TileAtlas.build_adjacency_lookup a0) w h) = []) /\
  validate_grid (clear_all e) = [] /\
  (validate_grid e = [] ->
   (forall r1 r2, validate_grid (final_state (_step e r1 r2)) = []) /\
   (forall x y, validate_grid (final_state (_propagate e x y)) = []) /\
   (forall x y, validate_grid (final_state (unlock_cell e x y)) = [])).
Proof.
  intros Ha.
  assert (Hinit : forall e0 w h,
            validate_grid (initialize e0 (TileAtlas.build_adjacency_lookup a0) w h) = []).
  { intros e0 w h. apply (validate_grid_consistent _ a0).
    - apply initialize_frame.
    - intros x y c T nx ny side nb N _ _ Hc HT. exfalso.
      rewrite initialize_cells in Hc. destruct (decide _); [|discriminate].
      injection Hc as <-. discriminate HT. }
  split; [exact Hinit|]. split.
  { unfold clear_all. rewrite Ha. apply Hinit. }
  intros Hvalid. apply (validate_grid_consistent _ a0 Ha) in Hvalid.
  assert (Hframe : forall s', rtc propagate_step e s' ->
            atlas s' = Some (TileAtlas.build_adjacency_lookup a0)).
  { intros s' Hs'. destruct (propagate_steps_frame _ _ Hs') as [-> _]. exact Ha. }
  split; [|split].
  - intros r1 r2. apply (validate_grid_consistent _ a0).
    + destruct (_step_frame e r1 r2) as [-> _]. exact Ha.
    + apply _step_consistent; assumption.
  - intros x y. apply (validate_grid_consistent _ a0).
    + apply Hframe, _propagate_steps.
    + eapply propagate_steps_consistent; [apply _propagate_steps|exact Ha|exact Hvalid].
  - intros x y. apply (validate_grid_consistent _ a0).
    + destruct (unlock_cell_frame e x y) as [-> _]. exact Ha.
    + apply unlock_cell_consistent; assumption.
Qed.

Lemma solver_keeps_grid_valid_witness :
  validate_grid (final_state (_step (initialize init atlas_S5 2 1) 0 0)) = [].
Proof.
  refine (proj1 (proj2 (proj2 (solver_keeps_grid_valid atlas_S5_raw
                                 (initialize init atlas_S5 2 1) _)) _) 0%nat 0%nat).
  - reflexivity.
  - vm_compute. reflexivity.
Defined.

End SolverSafety.

(** ** Collapsed cells are final for the solver *)

Section CollapsedCells.

Import WFCEngine.

Lemma keeps_cell_refl (c : CellState.t) : keeps_cell c c.
Proof. repeat apply conj; auto. Qed.

Lemma keeps_cell_trans (c1 c2 c3 : CellState.t) :
  keeps_cell c1 c2 -> keeps_cell c2 c3 -> keeps_cell c1 c3.
Proof.
  intros (H1 & H2 & H3 & H4) (G1 & G2 & G3 & G4).
  repeat apply conj; try congruence.
  intros Hc. pose proof (H4 Hc) as ->. auto.
Qed.

Lemma keeps_cells_refl (s : t) : keeps_cells s s.
Proof. intros pos c Hc. exists c. split; [exact Hc|apply keeps_cell_refl]. Qed.

Lemma keeps_cells_trans (s1 s2 s3 : t) :
  keeps_cells s1 s2 -> keeps_cells s2 s3 -> keeps_cells s1 s3.
Proof.
  intros H G pos c Hc.
  destruct (H pos c Hc) as (c2 & Hc2 & K2).
  destruct (G pos c2 Hc2) as (c3 & Hc3 & K3).
  exists c3. split; [exact Hc3|]. eapply keeps_cell_trans; eauto.
Qed.

Lemma keeps_cells_eq (s s' : t) : cells s' = cells s -> keeps_cells s s'.
Proof. intros H pos c Hc. exists c. rewrite H. split; [exact Hc|apply keeps_cell_refl]. Qed.

Lemma keeps_cells_insert (s s' : t) (pos : Z * Z) (c c' : CellState.t) :
  cells s !! pos = Some c -> cells s' = <[pos := c']> (cells s) -> keeps_cell c c' ->
  keeps_cells s s'.
Proof.
  intros Hc Hs K q cq Hq. rewrite Hs.
  destruct (decide (pos = q)) as [<-|Hne].
  - rewrite lookup_insert_eq. exists c'. split; [reflexivity|]. congruence.
  - rewrite lookup_insert_ne by auto. exists cq. split; [exact Hq|apply keeps_cell_refl].
Qed.

Lemma propagate_step_keeps (s s' : t) : propagate_step s s' -> keeps_cells s s'.
Proof.
  intros Hstep.
  destruct Hstep as [s x y cell a Hc Hn Ha|s x y cell a tile Hc Hn Ha Hv].
  - eapply keeps_cells_insert; [exact Hc|reflexivity|].
    repeat apply conj; try reflexivity.
    unfold CellState.is_collapsed. rewrite Hn. discriminate.
  - eapply keeps_cells_insert; [exact Hc|simpl; apply insert_insert_eq|].
    repeat apply conj; try reflexivity.
    unfold CellState.is_collapsed. rewrite Hn. discriminate.
Qed.

Lemma propagate_steps_keeps (s s' : t) : rtc propagate_step s s' -> keeps_cells s s'.
Proof.
  induction 1 as [s|s s1 s2 Hstep _ IH]; [apply keeps_cells_refl|].
  eapply keeps_cells_trans; [apply propagate_step_keeps; exact Hstep|exact IH].
Qed.

(** The candidates of the scan of [_step] are cells that are not
    collapsed. *)
Lemma _step_candidates (s : t) (cs : list (Z * Z)) (p : Z * Z) :
  scan (items s) None [] = inr cs -> p ∈ cs ->
  exists c, cells s !! p = Some c /\ CellState.collapsed_tile c = None.
Proof.
  intros Hscan Hp.
  apply (scan_candidates s (items s) None [] cs); auto.
  intros q Hq. inversion Hq.
Qed.

Lemma _step_keeps (s : t) (r1 r2 : nat) : keeps_cells s (final_state (_step s r1 r2)).
Proof.
  unfold _step.
  destruct (scan _ _ _) as [[x y]|candidates] eqn:Hscan.
  { apply keeps_cells_eq, contradiction_at_cells. }
  destruct candidates as [|c0 cs].
  { apply keeps_cells_eq. apply (set_state_cells (timer_stop s)). }
  destruct (random_choice r1 _) as [[x y]|] eqn:Hr1; [|apply keeps_cells_refl].
  destruct (cells s !! (x, y)) as [cell|] eqn:Hc; [|apply keeps_cells_refl].
  destruct (atlas s) as [a|] eqn:Ha; [|apply keeps_cells_refl].
  destruct (decide _) as [|Hne].
  { apply keeps_cells_eq, contradiction_at_cells. }
  destruct (random_choice r2 _) as [tile_id|] eqn:Hr2; [|apply keeps_cells_refl].
  eapply keeps_cells_trans; [|apply propagate_steps_keeps, _propagate_steps].
  eapply keeps_cells_insert; [exact Hc|reflexivity|].
  repeat apply conj; try reflexivity.
  apply random_choice_elem_of in Hr1.
  destruct (_step_candidates s _ _ Hscan Hr1) as (c & Hc' & Hnone).
  assert (c = cell) by congruence. subst c.
  unfold CellState.is_collapsed. rewrite Hnone. discriminate.
Qed.

(** X17: the solver never changes a collapsed cell: after [_propagate]
    and after [_step], whatever [random.choice] draws, every cell is
    still there with its coordinates and its locked flag, and a cell
    that was collapsed is the same cell, with its tile and its
    possibilities. *)
Theorem collapsed_cells_are_final (e : t) (pos : Z * Z) (c : CellState.t) :
  cells e !! pos = Some c ->
  (forall x y, exists c',
     cells (final_state (_propagate e x y)) !! pos = Some c' /\ keeps_cell c c') /\
  (forall r1 r2, exists c',
     cells (final_state (_step e r1 r2)) !! pos = Some c' /\ keeps_cell c c').
Proof.
  intros Hc. split.
  - intros x y. exact (propagate_steps_keeps _ _ (_propagate_steps e x y) pos c Hc).
  - intros r1 r2. exact (_step_keeps e r1 r2 pos c Hc).
Qed.

Lemma collapsed_cells_are_final_witness :
  exists c', cells (final_state (_step grid_S4 0 0)) !! (0, 0) = Some c' /\
             keeps_cell (CellState.Build 0 0 ({["X"]} : gset string) (Some "X") true) c'.
Proof.
  refine (proj2 (collapsed_cells_are_final grid_S4 (0, 0)
                   (CellState.Build 0 0 ({["X"]} : gset string) (Some "X") true) _)
            0%nat 0%nat).
  vm_compute. reflexivity.
Defined.

(** X18: when [lock_cell] finds the cell, it leaves it locked and
    collapsed to the tile with the tile as its only possibility,
    whatever the neighbours allow; when [unlock_cell] finds the cell, it
    leaves it unlocked; and either keeps the locked flag of every other
    cell and every other collapsed cell as it is. *)
Theorem lock_unlock_cell_effect (e : t) (x y : Z) (cell : CellState.t) :
  cells e !! (x, y) = Some cell ->
  (forall tile_id,
     cells (final_state (lock_cell e x y tile_id)) !! (x, y) =
       Some (CellState.Build (CellState.x cell) (CellState.y cell) {[tile_id]}
               (Some tile_id) true) /\
     forall pos c, pos <> (x, y) -> cells e !! pos = Some c ->
       exists c', cells (final_state (lock_cell e x y tile_id)) !! pos = Some c' /\
                  keeps_cell c c') /\
  (exists c', cells (final_state (unlock_cell e x y)) !! (x, y) = Some c' /\
              CellState.locked c' = false) /\
  (forall pos c, pos <> (x, y) -> cells e !! pos = Some c ->
     exists c', cells (final_state (unlock_cell e x y)) !! pos = Some c' /\
                keeps_cell c c').
Proof.
  intros Hc. split; [|split].
  - intros tile_id. unfold lock_cell. rewrite Hc.
    destruct (lock_cell_collapse_frame e x y cell tile_id) as (_ & _ & _ & _ & _ & Hcells).
    pose proof (propagate_steps_keeps _ _
                  (_propagate_steps (lock_cell_collapse e x y cell tile_id) x y)) as K.
    split.
    + destruct (K (x, y) (CellState.Build (CellState.x cell) (CellState.y cell) {[tile_id]}
                            (Some tile_id) true)) as (c' & Hc' & _ & _ & _ & Hsame).
      { rewrite Hcells. apply lookup_insert_eq. }
      rewrite Hc', (Hsame eq_refl). reflexivity.
    + intros pos c Hne Hpos. apply K. rewrite Hcells, lookup_insert_ne by auto. exact Hpos.
  - destruct (atlas e) as [a|] eqn:Ha.
    + destruct (unlock_cell_unfold e x y cell a Hc Ha) as (s5 & -> & _ & _ & _ & _ & _ & H5).
      destruct (propagate_steps_keeps _ _ (unlock_repropagate_steps (_get_neighbors s5 x y) s5)
                  (x, y) (CellState.Build (CellState.x cell) (CellState.y cell)
                            (TileAtlas.get_enabled_tile_ids a) None false))
        as (c' & Hc' & _ & _ & Hl & _).
      { rewrite H5. apply lookup_insert_eq. }
      exists c'. split; [exact Hc'|exact Hl].
    + unfold unlock_cell. rewrite Hc, Ha. simpl. rewrite lookup_insert_eq.
      eexists. split; reflexivity.
  - intros pos c Hne Hpos. destruct (atlas e) as [a|] eqn:Ha.
    + destruct (unlock_cell_unfold e x y cell a Hc Ha) as (s5 & -> & _ & _ & _ & _ & _ & H5).
      apply (propagate_steps_keeps _ _ (unlock_repropagate_steps (_get_neighbors s5 x y) s5)).
      rewrite H5, lookup_insert_ne by auto. exact Hpos.
    + unfold unlock_cell. rewrite Hc, Ha. simpl. rewrite lookup_insert_ne by auto.
      exists c. split; [exact Hpos|apply keeps_cell_refl].
Qed.

Lemma lock_unlock_cell_effect_witness :
  cells (final_state (lock_cell grid_S4 1 1 "Y")) !! (1, 1) =
    Some (CellState.Build 1 1 ({["Y"]} : gset string) (Some "Y") true).
Proof.
  refine (proj1 (proj1 (lock_unlock_cell_effect grid_S4 1 1
                          (CellState.Build 1 1 ({["X"]} : gset string) (Some "X") false) _)
                   "Y")).
  vm_compute. reflexivity.
Defined.

End CollapsedCells.

(** ** A step of the solver ends the run or collapses a cell *)

Section StepProgress.

Import WFCEngine.

Lemma is_collapsed_false (c : CellState.t) :
  CellState.is_collapsed c = false <-> CellState.collapsed_tile c = None.
Proof. unfold CellState.is_collapsed. destruct (CellState.collapsed_tile c); split; congruence. Qed.

Lemma scan_inl (l : list ((Z * Z) * CellState.t)) :
  forall m cands p,
    scan l m cands = inl p ->
    exists c, (p, c) ∈ l /\ CellState.collapsed_tile c = None /\
              CellState.possibilities c = ∅.
Proof.
  induction l as [|[pos cell] l IH]; intros m cands p H; simpl in H; [discriminate|].
  assert (Hrec : forall m' cands', scan l m' cands' = inl p ->
            exists c, (p, c) ∈ (pos, cell) :: l /\ CellState.collapsed_tile c = None /\
                      CellState.possibilities c = ∅).
  { intros m' cands' H'. destruct (IH _ _ _ H') as (c & Hin & Hc).
    exists c. split; [right; exact Hin|exact Hc]. }
  destruct (CellState.is_collapsed cell) eqn:Ecol; [eauto|].
  destruct (decide (CellState.entropy cell = 0%nat)) as [H0|H0].
  - injection H as <-. exists cell. split; [left|]. split.
    + apply is_collapsed_false. exact Ecol.
    + unfold CellState.entropy in H0. rewrite Ecol in H0.
      apply leibniz_equiv, size_empty_inv. exact H0.
  - destruct m as [m0|]; [destruct (bool_decide (_ < _)%nat)|]; eauto.
    destruct (bool_decide (_ = _)); eauto.
Qed.

Lemma scan_nil (l : list ((Z * Z) * CellState.t)) :
  forall (m : option nat) cands,
    (m <> None -> cands <> []) ->
    scan l m cands = inr [] ->
    cands = [] /\ forall pc, pc ∈ l -> CellState.is_collapsed (snd pc) = true.
Proof.
  induction l as [|[pos cell] l IH]; intros m cands Hinv H; simpl in H.
  { split; [congruence|]. intros pc Hpc. inversion Hpc. }
  destruct (CellState.is_collapsed cell) eqn:Ecol.
  { destruct (IH _ _ Hinv H) as [Hc Hall]. split; [exact Hc|].
    intros pc Hpc. apply elem_of_cons in Hpc as [->|Hpc]; [exact Ecol|auto]. }
  exfalso.
  destruct (decide (CellState.entropy cell = 0%nat)) as [H0|H0]; [discriminate|].
  assert (Hne : forall (m' : option nat) cands',
            cands' <> [] -> scan l m' cands' = inr [] -> False).
  { intros m' cands' Hc' H'. destruct (IH m' cands' (fun _ => Hc') H') as [Hc _]. auto. }
  destruct m as [m0|].
  - destruct (bool_decide (_ < _)%nat).
    + eapply Hne; [|exact H]. discriminate.
    + destruct (bool_decide (_ = _)).
      * eapply Hne; [|exact H]. destruct cands; discriminate.
      * eapply Hne; [|exact H]. apply Hinv. discriminate.
  - eapply Hne; [|exact H]. discriminate.
Qed.

Lemma items_complete (e : t) (x y : Z) (c : CellState.t) :
  0 <= x < width e -> 0 <= y < height e ->
  cells e !! (x, y) = Some c -> ((x, y), c) ∈ items e.
Proof.
  intros Hx Hy Hc. unfold items. apply list_elem_of_omap.
  exists (x, y). split; [apply elem_of_positions; auto|].
  rewrite Hc. reflexivity.
Qed.

Lemma random_choice_is_Some {A : Type} (r : nat) (l : list A) :
  l <> [] -> is_Some (random_choice r l).
Proof.
  intros Hne. unfold random_choice. apply lookup_lt_is_Some.
  apply Nat.mod_upper_bound. destruct l; [congruence|discriminate].
Qed.

Lemma contradiction_at_state (s : t) (x y : Z) :
  state (contradiction_at s x y) = CONTRADICTION /\
  timer_active (contradiction_at s x y) = false.
Proof.
  unfold contradiction_at, emit. simpl. split.
  - apply (set_state_state (timer_stop s)).
  - apply (set_state_timer (timer_stop s)).
Qed.

(** X19: with the atlas loaded, [_step] returns, whatever
    [random.choice] draws, and it does one of three things: it stops the
    timer in the state CONTRADICTION, with the grid as it was, at a cell
    that is not collapsed and has no possibility or no valid tile; it
    stops the timer in the state FINISHED, with the grid as it was, and
    then every cell inside the bounds is collapsed; or it keeps the
    state and the timer, and the cells that are not collapsed become
    strictly fewer. *)
Theorem _step_progress (e : t) (a : TileAtlas.t) (r1 r2 : nat) :
  atlas e = Some a ->
  exists e', _step e r1 r2 = Returns e' tt /\
    ((state e' = CONTRADICTION /\ timer_active e' = false /\ cells e' = cells e /\
      exists x y c, cells e !! (x, y) = Some c /\ CellState.collapsed_tile c = None /\
                    (CellState.possibilities c = ∅ \/ valid_tiles a e x y = ∅)) \/
     (state e' = FINISHED /\ timer_active e' = false /\ cells e' = cells e /\
      forall x y c, 0 <= x < width e -> 0 <= y < height e ->
                    cells e !! (x, y) = Some c -> CellState.is_collapsed c = true) \/
     (state e' = state e /\ timer_active e' = timer_active e /\
      uncollapsed_cells e' ⊂ uncollapsed_cells e)).
Proof.
  intros Ha.
  pose proof (_step_frame e r1 r2) as Hframe.
  pose proof (_step_keeps e r1 r2) as Hkeeps.
  unfold _step in *.
  destruct (scan (items e) None []) as [[x y]|candidates] eqn:Hscan.
  { eexists. split; [reflexivity|]. left.
    destruct (contradiction_at_state e x y) as [H1 H2].
    split; [exact H1|]. split; [exact H2|]. split; [apply contradiction_at_cells|].
    apply scan_inl in Hscan as (c & Hin & Hn & Hp).
    exists x, y, c. split; [apply elem_of_items; exact Hin|]. auto. }
  destruct candidates as [|c0 cs].
  { eexists. split; [reflexivity|]. right. left.
    split; [apply (set_state_state (timer_stop e))|].
    split; [apply (set_state_timer (timer_stop e))|].
    split; [apply (set_state_cells (timer_stop e))|].
    intros x y c Hx Hy Hc.
    apply scan_nil in Hscan as [_ Hall]; [|congruence].
    exact (Hall _ (items_complete e x y c Hx Hy Hc)). }
  destruct (random_choice_is_Some r1 (c0 :: cs) ltac:(discriminate)) as [[x y] Hr1].
  rewrite Hr1 in *.
  destruct (_step_candidates e _ (x, y) Hscan (random_choice_elem_of _ _ _ Hr1))
    as (cell & Hc & Hnone).
  rewrite Hc, Ha in *.
  destruct (decide (valid_tiles a e x y = ∅)) as [Hv|Hv].
  { eexists. split; [reflexivity|]. left.
    destruct (contradiction_at_state e x y) as [H1 H2].
    split; [exact H1|]. split; [exact H2|]. split; [apply contradiction_at_cells|].
    exists x, y, cell. auto. }
  destruct (random_choice_is_Some r2 (elements (valid_tiles a e x y))) as [tile_id Hr2].
  { intros Hnil. apply Hv. apply leibniz_equiv, elements_empty_inv. rewrite Hnil. reflexivity. }
  rewrite Hr2 in *. cbv zeta in *.
  match goal with
  | |- context [_propagate ?s x y] => set (s4 := s) in *
  end.
  destruct (_propagate_returns s4 x y a Ha) as [e' He'].
  pose proof (_propagate_steps s4 x y) as Hsteps.
  rewrite He' in *. simpl in Hframe, Hkeeps, Hsteps.
  exists e'. split; [reflexivity|]. right. right.
  destruct (propagate_steps_frame _ _ Hsteps) as (_ & _ & _ & Hst & _ & Hti & _ & _).
  split; [exact Hst|]. split; [exact Hti|].
  destruct Hframe as (_ & _ & _ & Hdom).
  assert (Hsub : uncollapsed_cells e' ⊆ uncollapsed_cells e).
  { intros p Hp. apply elem_of_uncollapsed_cells in Hp as (c' & Hc' & Hcol').
    apply elem_of_uncollapsed_cells.
    assert (Hin : p ∈ dom (cells e)) by (rewrite <- Hdom; apply elem_of_dom; eauto).
    apply elem_of_dom in Hin as [c Hpc]. exists c. split; [exact Hpc|].
    destruct (Hkeeps p c Hpc) as (c'' & Hc'' & _ & _ & _ & Hsame).
    assert (c'' = c') by congruence. subst c''.
    destruct (CellState.is_collapsed c) eqn:E; [|reflexivity].
    rewrite (Hsame eq_refl) in Hcol'. congruence. }
  split; [exact Hsub|].
  intros Hback.
  assert (Hxy : (x, y) ∈ uncollapsed_cells e).
  { apply elem_of_uncollapsed_cells. exists cell. split; [exact Hc|].
    apply is_collapsed_false. exact Hnone. }
  apply Hback, elem_of_uncollapsed_cells in Hxy as (c' & Hc' & Hcol').
  destruct (propagate_steps_keeps _ _ Hsteps (x, y)
              (CellState.set_possibilities
                 (CellState.set_collapsed_tile cell (Some tile_id)) {[tile_id]}))
    as (c'' & Hc'' & _ & _ & _ & Hsame).
  { unfold s4. simpl. apply lookup_insert_eq. }
  assert (c'' = c') by congruence. subst c''.
  rewrite (Hsame eq_refl) in Hcol'. discriminate Hcol'.
Qed.

Lemma _step_progress_witness :
  exists e', _step grid_S4 0 0 = Returns e' tt /\ state e' = FINISHED.
Proof.
  destruct (_step_progress grid_S4 atlas_S4 0 0 eq_refl) as (e' & He' & Hcases).
  exists e'. split; [exact He'|].
  assert (Hst : state (final_state (_step grid_S4 0 0)) = FINISHED)
    by (vm_compute; reflexivity).
  rewrite He' in Hst. exact Hst.
Defined.

End StepProgress.

(** ** [reset] keeps the locked cells, [clear_all] drops them *)

Section ResetLocks.

Import WFCEngine.

Lemma lock_cell_spec (s : t) (a : TileAtlas.t) (x y : Z) (cell : CellState.t)
    (tile_id : string) :
  atlas s = Some a -> cells s !! (x, y) = Some cell ->
  exists s1, lock_cell s x y tile_id = Returns s1 tt /\ same_frame s s1 /\
    state s1 = state s /\ timer_active s1 = timer_active s /\
    cells s1 !! (x, y) =
      Some (CellState.Build (CellState.x cell) (CellState.y cell) {[tile_id]}
              (Some tile_id) true) /\
    forall pos c, pos <> (x, y) -> cells s !! pos = Some c ->
      exists c', cells s1 !! pos = Some c' /\ keeps_cell c c'.
Proof.
  intros Ha Hc. unfold lock_cell. rewrite Hc.
  destruct (lock_cell_collapse_frame s x y cell tile_id) as (A1 & A2 & A3 & A4 & A5 & A6).
  destruct (_propagate_returns (lock_cell_collapse s x y cell tile_id) x y a) as [s1 Hs1];
    [congruence|].
  pose proof (_propagate_steps (lock_cell_collapse s x y cell tile_id) x y) as Hsteps.
  rewrite Hs1 in *. simpl in Hsteps.
  pose proof (propagate_steps_keeps _ _ Hsteps) as K.
  destruct (propagate_steps_frame _ _ Hsteps) as (_ & _ & _ & Hst & _ & Hti & _ & _).
  exists s1. split; [reflexivity|]. split; [|split; [|split; [|split]]].
  - eapply same_frame_trans; [|apply propagate_steps_same_frame; exact Hsteps].
    eapply same_frame_insert; eauto.
  - unfold state. congruence.
  - congruence.
  - destruct (K (x, y) (CellState.Build (CellState.x cell) (CellState.y cell) {[tile_id]}
                          (Some tile_id) true)) as (c' & Hc' & _ & _ & _ & Hsame).
    { rewrite A6. apply lookup_insert_eq. }
    rewrite Hc', (Hsame eq_refl). reflexivity.
  - intros pos c Hne Hpos. apply K. rewrite A6, lookup_insert_ne by auto. exact Hpos.
Qed.

Lemma reset_restore_spec (a : TileAtlas.t) (locked_cells : list ((Z * Z) * option string)) :
  forall s,
    atlas s = Some a ->
    (forall pos t, (pos, t) ∈ locked_cells -> is_Some t /\ is_Some (cells s !! pos)) ->
    (forall pos t t', (pos, t) ∈ locked_cells -> (pos, t') ∈ locked_cells -> t = t') ->
    exists s', reset_restore s locked_cells = Returns s' tt /\ same_frame s s' /\
      state s' = state s /\ timer_active s' = timer_active s /\
      forall pos c, cells s !! pos = Some c ->
        exists c', cells s' !! pos = Some c' /\
          (forall T, (pos, Some T) ∈ locked_cells ->
             c' = CellState.Build (CellState.x c) (CellState.y c) {[T]} (Some T) true) /\
          (pos ∉ (fst <$> locked_cells) -> keeps_cell c c').
Proof.
  induction locked_cells as [|[[x y] t0] rest IH]; intros s Ha Hok Hfun.
  { exists s. split; [reflexivity|]. split; [apply same_frame_refl|].
    split; [reflexivity|]. split; [reflexivity|].
    intros pos c Hc. exists c. split; [exact Hc|]. split.
    - intros T HT. inversion HT.
    - intros _. apply keeps_cell_refl. }
  destruct (Hok (x, y) t0 ltac:(left)) as [[T0 ->] [cell Hcell]].
  simpl.
  destruct (lock_cell_spec s a x y cell T0 Ha Hcell)
    as (s1 & -> & F1 & St1 & Ti1 & Hxy & Hother).
  assert (Ha1 : atlas s1 = Some a) by (destruct F1 as [-> _]; exact Ha).
  destruct (IH s1 Ha1) as (s' & Hs' & F' & St' & Ti' & Hcells').
  { intros pos t Hin. destruct (Hok pos t ltac:(right; exact Hin)) as [Ht Hsome].
    split; [exact Ht|]. apply elem_of_dom. destruct F1 as (_ & _ & _ & ->).
    apply elem_of_dom. exact Hsome. }
  { intros pos t t' H1 H2. apply (Hfun pos); right; assumption. }
  exists s'. split; [exact Hs'|]. split; [eapply same_frame_trans; eauto|].
  split; [congruence|]. split; [congruence|].
  intros pos c Hc.
  destruct (decide (pos = (x, y))) as [->|Hne].
  - destruct (Hcells' (x, y) _ Hxy) as (c' & Hc' & Hlocked & Hkeep).
    exists c'. split; [exact Hc'|]. split.
    + intros T HT.
      assert (Some T = Some T0) by (apply (Hfun (x, y)); [exact HT|left]).
      assert (T = T0) by congruence. subst T.
      assert (cell = c) by congruence. subst cell.
      destruct (decide ((x, y) ∈ (fst <$> rest))) as [Hin|Hout].
      * apply list_elem_of_fmap in Hin as ([pos t] & Hpos & Hin). simpl in Hpos. subst pos.
        assert (t = Some T0) by (apply (Hfun (x, y)); [right; exact Hin|left]). subst t.
        apply (Hlocked T0 Hin).
      * destruct (Hkeep Hout) as (_ & _ & _ & Hsame). apply Hsame. reflexivity.
    + intros Hout. exfalso. apply Hout. simpl. left.
  - destruct (Hother pos c Hne Hc) as (c1 & Hc1 & K1).
    destruct (Hcells' pos c1 Hc1) as (c' & Hc' & Hlocked & Hkeep).
    exists c'. split; [exact Hc'|]. split.
    + intros T HT. apply elem_of_cons in HT as [[= ? ?]|HT]; [congruence|].
      rewrite (Hlocked T HT). destruct K1 as (-> & -> & _). reflexivity.
    + intros Hout. eapply keeps_cell_trans; [exact K1|]. apply Hkeep.
      intros Hin. apply Hout. simpl. right. exact Hin.
Qed.

Lemma initialize_timer (e : t) (a : TileAtlas.t) (w h : Z) :
  timer_active (initialize e a w h) = timer_active e.
Proof. unfold initialize, emit. simpl. rewrite set_state_timer. reflexivity. Qed.

(** X20: with the atlas loaded and every locked cell holding a tile,
    [reset] returns in the state IDLE with the timer stopped; a cell
    inside the bounds that was locked is locked to the same tile, with
    the tile as its only possibility, and a cell that was not locked is
    not locked.  [clear_all] leaves each cell inside the bounds with all
    enabled tiles, not collapsed and not locked. *)
Theorem reset_keeps_locks (e : t) (a : TileAtlas.t) :
  atlas e = Some a -> grid_inv e ->
  (exists e', reset e = Returns e' tt /\ state e' = IDLE /\ timer_active e' = false /\
     forall x y c, 0 <= x < width e -> 0 <= y < height e -> cells e !! (x, y) = Some c ->
       exists c', cells e' !! (x, y) = Some c' /\
         CellState.locked c' = CellState.locked c /\
         (forall T, CellState.locked c = true -> CellState.collapsed_tile c = Some T ->
            c' = CellState.Build x y {[T]} (Some T) true)) /\
  (forall x y,
     cells (clear_all e) !! (x, y) =
     if decide (0 <= x < width e /\ 0 <= y < height e)
     then Some (CellState.Build x y (TileAtlas.get_enabled_tile_ids a) None false)
     else None).
Proof.
  intros Ha Hinv. split.
  2:{ intros x y. unfold clear_all. rewrite Ha. apply initialize_cells. }
  unfold reset. rewrite Ha. cbv zeta.
  set (s1 := timer_stop e).
  set (lc := omap (fun '(pos, cell) =>
                     if CellState.locked cell then Some (pos, CellState.collapsed_tile cell)
                     else None) (items s1)).
  set (s2 := initialize s1 a (width s1) (height s1)).
  assert (Hlc : forall pos t, (pos, t) ∈ lc <->
            exists c, (pos, c) ∈ items e /\ CellState.locked c = true /\
                      t = CellState.collapsed_tile c).
  { intros pos t. unfold lc. rewrite list_elem_of_omap. split.
    - intros ([pos' c] & Hin & H). destruct (CellState.locked c) eqn:El; [|discriminate].
      injection H as <- <-. exists c. auto.
    - intros (c & Hin & Hl & ->). exists (pos, c). split; [exact Hin|].
      rewrite Hl. reflexivity. }
  assert (Hitems : forall pos c, (pos, c) ∈ items e ->
            cells e !! pos = Some c /\
            0 <= fst pos < width e /\ 0 <= snd pos < height e).
  { intros [x y] c Hin. split; [apply elem_of_items; exact Hin|].
    unfold items in Hin. apply list_elem_of_omap in Hin as (pos & Hpos & _H).
    destruct (cells e !! pos); [|discriminate]. simpl in _H. injection _H as ->.
    apply elem_of_positions in Hpos. simpl. tauto. }
  destruct (reset_restore_spec a lc s2) as (e' & He' & F' & St' & Ti' & Hcells').
  { apply initialize_frame. }
  { intros [x y] t Hin. apply Hlc in Hin as (c & Hin & Hl & ->).
    destruct (Hitems _ _ Hin) as (Hc & Hx & Hy). simpl in Hx, Hy. split.
    - destruct (Hinv _ _ Hc) as [_ H]. auto.
    - unfold s2. rewrite initialize_cells.
      rewrite decide_True by (split; assumption). eauto. }
  { intros pos t t' H1 H2. apply Hlc in H1 as (c1 & Hin1 & _ & ->).
    apply Hlc in H2 as (c2 & Hin2 & _ & ->).
    destruct (Hitems _ _ Hin1) as [Hc1 _]. destruct (Hitems _ _ Hin2) as [Hc2 _].
    congruence. }
  exists e'. split; [exact He'|]. split.
  { rewrite St'. apply initialize_frame. }
  split.
  { rewrite Ti'. unfold s2. rewrite initialize_timer. reflexivity. }
  intros x y c Hx Hy Hc.
  destruct (Hcells' (x, y) (CellState.Build x y (TileAtlas.get_enabled_tile_ids a) None false))
    as (c' & Hc' & Hlocked & Hkeep).
  { unfold s2. rewrite initialize_cells. rewrite decide_True by (split; assumption).
    reflexivity. }
  exists c'. split; [exact Hc'|].
  destruct (CellState.locked c) eqn:El.
  - destruct (Hinv _ _ Hc) as [_ H]. destruct (H El) as [T HT].
    assert (Hin : ((x, y), Some T) ∈ lc).
    { apply Hlc. exists c. split; [apply items_complete; assumption|]. auto. }
    rewrite (Hlocked T Hin). simpl. split; [reflexivity|].
    intros T' _ HT'. congruence.
  - assert (Hout : (x, y) ∉ (fst <$> lc)).
    { intros Hin. apply list_elem_of_fmap in Hin as ([pos t] & Hpos & Hin). simpl in Hpos.
      subst pos. apply Hlc in Hin as (c0 & Hin & Hl & _).
      destruct (Hitems _ _ Hin) as [Hc0 _]. congruence. }
    destruct (Hkeep Hout) as (_ & _ & Hl & _). simpl in Hl.
    split; [exact Hl|]. intros T Habs. discriminate.
Qed.

Lemma reset_keeps_locks_witness :
  exists e', reset grid_YX = Returns e' tt /\ state e' = IDLE /\
    cells e' !! (1, 0) = Some (CellState.Build 1 0 ({["X"]} : gset string) (Some "X") true).
Proof.
  assert (Hinv : grid_inv grid_YX).
  { unfold grid_YX. cbv zeta. apply lock_cell_inv, lock_cell_inv, initialize_inv. }
  destruct (reset_keeps_locks grid_YX atlas_S5 eq_refl Hinv)
    as [(e' & He' & Hst & _ & Hcells) _].
  exists e'. split; [exact He'|]. split; [exact Hst|].
  destruct (Hcells 1 0 (CellState.Build 1 0 ({["X"]} : gset string) (Some "X") true))
    as (c' & Hc' & _ & Hsame).
  - replace (width grid_YX) with 2 by (vm_compute; reflexivity). lia.
  - replace (height grid_YX) with 1 by (vm_compute; reflexivity). lia.
  - vm_compute. reflexivity.
  - rewrite Hc'. f_equal. apply (Hsame "X"); reflexivity.
Defined.

End ResetLocks.

(** ** The timer and the state *)

Section TimerState.

Import WFCEngine.

Lemma propagate_steps_timer_ok (s s' : t) :
  rtc propagate_step s s' -> timer_ok s -> timer_ok s'.
Proof.
  intros Hsteps Hok.
  destruct (propagate_steps_frame _ _ Hsteps) as (_ & _ & _ & Hst & _ & Hti & _ & _).
  unfold timer_ok, state in *. rewrite Hst, Hti. exact Hok.
Qed.

Lemma timer_ok_frame (s s' : t) :
  _state s' = _state s -> timer_active s' = timer_active s -> timer_ok s -> timer_ok s'.
Proof. intros Hst Hti Hok. unfold timer_ok, state in *. rewrite Hst, Hti. exact Hok. Qed.

Lemma timer_ok_stopped (s : t) : timer_active s = false -> timer_ok s.
Proof. intros H Habs. congruence. Qed.

Lemma _step_timer_ok (s : t) (r1 r2 : nat) :
  timer_ok s -> timer_ok (final_state (_step s r1 r2)).
Proof.
  intros Hok. unfold _step.
  destruct (scan _ _ _) as [[x y]|candidates].
  { apply timer_ok_stopped, contradiction_at_state. }
  destruct candidates as [|c0 cs].
  { apply timer_ok_stopped. simpl. apply (set_state_timer (timer_stop s)). }
  destruct (random_choice r1 _) as [[x y]|]; [|exact Hok].
  destruct (cells s !! (x, y)) as [cell|]; [|exact Hok].
  destruct (atlas s) as [a|]; [|exact Hok].
  destruct (decide _).
  { apply timer_ok_stopped, contradiction_at_state. }
  destruct (random_choice r2 _) as [tile_id|]; [|exact Hok].
  eapply propagate_steps_timer_ok; [apply _propagate_steps|].
  apply (timer_ok_frame s); [reflexivity|reflexivity|exact Hok].
Qed.

Lemma lock_cell_timer_ok (s : t) (x y : Z) (tile_id : string) :
  timer_ok s -> timer_ok (final_state (lock_cell s x y tile_id)).
Proof.
  intros Hok. unfold lock_cell. destruct (cells s !! (x, y)) as [cell|]; [|exact Hok].
  eapply propagate_steps_timer_ok; [apply _propagate_steps|].
  destruct (lock_cell_collapse_frame s x y cell tile_id) as (_ & _ & _ & Hst & Hti & _).
  apply (timer_ok_frame s); assumption.
Qed.

Lemma reset_restore_timer_ok (locked_cells : list ((Z * Z) * option string)) :
  forall s, timer_ok s -> timer_ok (final_state (reset_restore s locked_cells)).
Proof.
  induction locked_cells as [|[[x y] [tile_id|]] rest IH]; intros s Hs; simpl; auto.
  pose proof (lock_cell_timer_ok s x y tile_id Hs) as H.
  destruct (lock_cell s x y tile_id) as [s1 []|s1 e]; simpl in *; auto.
Qed.

(** X21: the timer runs only in the state RUNNING, and [start],
    [pause], [set_speed], [step], [_step], [lock_cell], [unlock_cell],
    [reset] and [clear_all] keep it so; [initialize] does not: called
    while the timer runs, it leaves the timer running in the state
    IDLE. *)
Theorem timer_runs_only_when_running (e : t) :
  timer_ok e ->
  timer_ok (start e) /\ timer_ok (pause e) /\
  (forall delay_ms, timer_ok (set_speed e delay_ms)) /\
  (forall r1 r2, timer_ok (final_state (step e r1 r2)) /\
                 timer_ok (final_state (_step e r1 r2))) /\
  (forall x y tile_id, timer_ok (final_state (lock_cell e x y tile_id))) /\
  (forall x y, timer_ok (final_state (unlock_cell e x y))) /\
  timer_ok (final_state (reset e)) /\ timer_ok (clear_all e) /\
  (forall a w h, timer_active e = true ->
     timer_active (initialize e a w h) = true /\ state (initialize e a w h) = IDLE).
Proof.
  intros Hok.
  assert (Hinit : forall a, timer_ok (initialize (timer_stop e) a (width (timer_stop e))
                                         (height (timer_stop e)))).
  { intros a. apply timer_ok_stopped. rewrite initialize_timer. reflexivity. }
  split; [|split; [|split; [|split; [|split; [|split; [|split; [|split]]]]]]].
  - unfold start. destruct (bool_decide _); [exact Hok|].
    intros _. apply (set_state_state e RUNNING).
  - unfold pause. destruct (bool_decide _); [|exact Hok].
    apply timer_ok_stopped. apply (set_state_timer (timer_stop e)).
  - intros d. unfold set_speed. simpl. destruct (timer_active e) eqn:E; exact Hok.
  - intros r1 r2. split; [|apply _step_timer_ok; exact Hok].
    unfold step. destruct (bool_decide _); [exact Hok|apply _step_timer_ok; exact Hok].
  - intros x y tile_id. apply lock_cell_timer_ok. exact Hok.
  - intros x y. destruct (cells e !! (x, y)) as [cell|] eqn:Hc.
    2:{ unfold unlock_cell. rewrite Hc. exact Hok. }
    destruct (atlas e) as [a|] eqn:Ha.
    + destruct (unlock_cell_unfold e x y cell a Hc Ha)
        as (s5 & -> & _ & _ & _ & Hti & Hst & _).
      eapply propagate_steps_timer_ok; [apply unlock_repropagate_steps|].
      intros Hon. rewrite Hti in Hon. pose proof (Hok Hon) as Hrun.
      destruct Hst as [->|[[Habs|Habs] _]]; [exact Hrun|congruence|congruence].
    + unfold unlock_cell. rewrite Hc, Ha. simpl.
      apply (timer_ok_frame e); [reflexivity|reflexivity|exact Hok].
  - unfold reset. destruct (atlas e) as [a|]; [|exact Hok].
    apply reset_restore_timer_ok, Hinit.
  - unfold clear_all. destruct (atlas e) as [a|]; [|exact Hok]. apply Hinit.
  - intros a w h Hon. split; [rewrite initialize_timer; exact Hon|apply initialize_frame].
Qed.

Lemma timer_runs_only_when_running_witness :
  timer_ok (pause (start init)) /\ state (pause (start init)) = PAUSED.
Proof.
  split; [|reflexivity].
  apply (timer_runs_only_when_running (start init)).
  intros _. reflexivity.
Defined.

End TimerState.

(** ** The loop of [_propagate] ends, whatever the bound *)

Section PropagateFuel.

Import WFCEngine.

Lemma _propagate_loop_mono (fuel : nat) :
  forall s queue o fuel',
    _propagate_loop fuel s queue = Some o -> (fuel <= fuel')%nat ->
    _propagate_loop fuel' s queue = Some o.
Proof.
  induction fuel as [|fuel IH]; intros s queue o fuel' H Hle; [discriminate|].
  destruct fuel' as [|fuel']; [lia|].
  assert (Hrec : forall s' q', _propagate_loop fuel s' q' = Some o ->
                               _propagate_loop fuel' s' q' = Some o).
  { intros s' q' H'. apply (IH _ _ _ _ H'). lia. }
  simpl in *.
  destruct queue as [|[x y] queue']; [exact H|].
  destruct (cells s !! (x, y)) as [cell|]; [|auto].
  destruct (CellState.is_collapsed cell); [auto|].
  destruct (atlas s) as [a|]; [|exact H].
  destruct (decide _); [|auto].
  destruct (decide _); [exact H|].
  destruct (decide _); [|auto].
  destruct (elements _); [exact H|auto].
Qed.

(** X22: the loop of [_propagate] ends: for every engine and queue it
    returns an outcome within [propagate_fuel] turns, and with any
    larger bound it returns the same outcome, so the result of
    [_propagate] does not depend on the bound. *)
Theorem _propagate_loop_ends (s : t) (queue : list (Z * Z)) (fuel : nat) :
  (propagate_fuel s queue <= fuel)%nat ->
  exists o, _propagate_loop (propagate_fuel s queue) s queue = Some o /\
            _propagate_loop fuel s queue = Some o /\
            rtc propagate_step s (final_state o).
Proof.
  intros Hle.
  destruct (_propagate_loop_terminates (propagate_fuel s queue) s queue (le_n _)) as [o Ho].
  exists o. split; [exact Ho|]. split.
  - eapply _propagate_loop_mono; eauto.
  - eapply _propagate_loop_steps; eauto.
Qed.

Lemma _propagate_loop_ends_witness :
  exists o, _propagate_loop 100 grid_S5 [(1, 0)] = Some o.
Proof.
  destruct (_propagate_loop_ends grid_S5 [(1, 0)] 100) as (o & _ & Ho & _).
  - vm_compute. lia.
  - exists o. exact Ho.
Defined.

End PropagateFuel.

(** ** The grid that [initialize] builds *)

Section InitializeGrid.

Import WFCEngine.

Lemma omap_all_Some {A B : Type} (f : A -> option B) (g : A -> B) (l : list A) :
  (forall x, x ∈ l -> f x = Some (g x)) -> omap f l = g <$> l.
Proof.
  induction l as [|x l IH]; intros H; [reflexivity|].
  change (omap f (x :: l)) with (match f x with Some y => y :: omap f l | None => omap f l end).
  rewrite (H x) by left. rewrite IH; [reflexivity|].
  intros z Hz. apply H. right. exact Hz.
Qed.

Lemma length_bind_const {A B : Type} (f : A -> list B) (k : nat) (l : list A) :
  (forall x, length (f x) = k) -> length (l ≫= f) = (length l * k)%nat.
Proof.
  intros H. induction l as [|x l IH]; [reflexivity|].
  change ((x :: l) ≫= f) with (f x ++ (l ≫= f)).
  rewrite length_app, H, IH. simpl. lia.
Qed.

Lemma length_positions (w h : Z) :
  length (positions w h) = (Z.to_nat h * Z.to_nat w)%nat.
Proof.
  unfold positions.
  rewrite (length_bind_const _ (Z.to_nat w)), length_seqZ; [reflexivity|].
  intros y. rewrite (length_bind_const _ 1%nat), length_seqZ; [lia|reflexivity].
Qed.

(** X23: whatever the engine held, after [initialize] the grid holds one
    cell for each position inside the bounds, in the order of the rows,
    each with all enabled tiles, not collapsed and not locked, and no
    cell outside; the state is IDLE and the count of collapsed cells is
    0.  When the width and the height are not negative, the number of
    cells is [_total_cells]; with a negative width or height there is no
    cell, while [_total_cells] is their product. *)
Theorem initialize_grid (e : t) (a : TileAtlas.t) (w h : Z) :
  let e1 := initialize e a w h in
  items e1 =
    (fun pos => (pos, CellState.Build (fst pos) (snd pos)
                        (TileAtlas.get_enabled_tile_ids a) None false)) <$> positions w h /\
  (forall x y, ~ (0 <= x < w /\ 0 <= y < h) -> cells e1 !! (x, y) = None) /\
  state e1 = IDLE /\ _collapsed_count e1 = 0 /\ _total_cells e1 = w * h /\
  (0 <= w -> 0 <= h -> Z.of_nat (length (items e1)) = _total_cells e1) /\
  (w < 0 \/ h < 0 -> cells e1 = ∅).
Proof.
  cbv zeta.
  assert (Hitems : items (initialize e a w h) =
            (fun pos => (pos, CellState.Build (fst pos) (snd pos)
                                (TileAtlas.get_enabled_tile_ids a) None false))
              <$> positions w h).
  { unfold items. destruct (initialize_frame e a w h) as (_ & -> & -> & _).
    apply omap_all_Some. intros [x y] Hpos. rewrite initialize_cells.
    apply elem_of_positions in Hpos. rewrite decide_True by tauto. reflexivity. }
  assert (Htotal : _total_cells (initialize e a w h) = w * h).
  { unfold initialize, emit. simpl.
    destruct (set_state_frame
                (set_cells (Build (Some a) w h ∅ (_state e) (timer_active e) (_step_delay e)
                              0 (w * h) (emitted e))
                   (foldl (fun c '(x, y) =>
                             <[(x, y) := CellState.Build x y (TileAtlas.get_enabled_tile_ids a)
                                           None false]> c) ∅ (positions w h))) IDLE)
      as (_ & _ & _ & _ & ->). reflexivity. }
  split; [exact Hitems|]. split; [|split; [|split; [|split; [|split]]]].
  - intros x y Hout. rewrite initialize_cells, decide_False by exact Hout. reflexivity.
  - apply initialize_frame.
  - unfold initialize, emit. simpl.
    destruct (set_state_frame
                (set_cells (Build (Some a) w h ∅ (_state e) (timer_active e) (_step_delay e)
                              0 (w * h) (emitted e))
                   (foldl (fun c '(x, y) =>
                             <[(x, y) := CellState.Build x y (TileAtlas.get_enabled_tile_ids a)
                                           None false]> c) ∅ (positions w h))) IDLE)
      as (_ & _ & _ & -> & _). reflexivity.
  - exact Htotal.
  - intros Hw Hh. rewrite Hitems, Htotal, length_fmap, length_positions. nia.
  - intros Hneg. apply map_eq. intros [x y]. rewrite initialize_cells, lookup_empty.
    rewrite decide_False by lia. reflexivity.
Qed.

Lemma initialize_grid_witness :
  Z.of_nat (length (items (initialize init atlas_S4 3 3))) = 9.
Proof.
  destruct (initialize_grid init atlas_S4 3 3) as (_ & _ & _ & _ & Htotal & Hlen & _).
  rewrite Hlen by lia. rewrite Htotal. reflexivity.
Defined.

End InitializeGrid.

(** ** The valid tiles of a position *)

Section ValidTilesForPosition.

Import TileAtlas.

Lemma existsb_truthy (neighbors : list (Side * option string)) :
  existsb truthy (snd <$> neighbors) = true <->
  exists side n, (side, Some n) ∈ neighbors /\ n <> "".
Proof.
  induction neighbors as [|[side v] l IH]; simpl.
  - split; [discriminate|]. intros (side & n & H & _). inversion H.
  - rewrite orb_true_iff, IH. split.
    + intros [Ht|(side' & n & Hin & Hn)].
      * destruct v as [n|]; [|discriminate]. exists side, n. split; [left|].
        simpl in Ht. apply negb_true_iff, bool_decide_eq_false in Ht. exact Ht.
      * exists side', n. split; [right; exact Hin|exact Hn].
    + intros (side' & n & Hin & Hn). apply elem_of_cons in Hin as [[= -> <-]|Hin].
      * left. simpl. apply negb_true_iff, bool_decide_eq_false. exact Hn.
      * right. eauto.
Qed.

Lemma elem_of_foldl_position (a : TileAtlas.t) (neighbors : list (Side * option string))
    (T : string) :
  forall valid : gset string,
    T ∈ foldl (fun valid '(side, neighbor_id) =>
                 match neighbor_id with
                 | None => valid
                 | Some neighbor_id0 =>
                     valid ∩ dom (get_valid_neighbors a neighbor_id0
                                    match side with
                                    | top => bottom | bottom => top
                                    | left => right | right => left
                                    end)
                 end) valid neighbors <->
    T ∈ valid /\
    forall side n, (side, Some n) ∈ neighbors ->
                   T ∈ dom (get_valid_neighbors a n (opposite side)).
Proof.
  induction neighbors as [|[side v] l IH]; intros valid; cbn [foldl].
  - split; [|tauto]. intros H. split; [exact H|]. intros side n Hin. inversion Hin.
  - rewrite IH. destruct v as [n|].
    + rewrite elem_of_intersection. split.
      * intros [[HV Hn] Hl]. split; [exact HV|].
        intros side' n' Hin. apply elem_of_cons in Hin as [[= -> ->]|Hin]; [|auto].
        destruct side; exact Hn.
      * intros [HV Hall]. split; [split; [exact HV|]|].
        -- pose proof (Hall side n ltac:(left)) as H. destruct side; exact H.
        -- intros side' n' Hin. apply Hall. right. exact Hin.
    + split; intros [HV Hall]; (split; [exact HV|]); intros side' n' Hin.
      * apply elem_of_cons in Hin as [[= ]|Hin]. auto.
      * apply Hall. right. exact Hin.
Qed.

(** X24: [get_valid_tiles_for_position] returns enabled tiles only; it
    returns all of them when no neighbour is given, also when the only
    neighbours given have the empty id; otherwise it returns the enabled
    tiles T for which each given neighbour N on side s has the rule
    (N, opposite(s), T), while the rule (T, s, N) is not asked for.  So
    the set that the engine computes for a cell is a subset of it. *)
Theorem get_valid_tiles_for_position_spec (a0 : TileAtlas.t)
    (neighbors : list (Side * option string)) :
  let a := build_adjacency_lookup a0 in
  get_valid_tiles_for_position a neighbors ⊆ get_enabled_tile_ids a /\
  ((forall side v, (side, v) ∈ neighbors -> v = None \/ v = Some "") ->
   get_valid_tiles_for_position a neighbors = get_enabled_tile_ids a) /\
  ((exists side n, (side, Some n) ∈ neighbors /\ n <> "") ->
   forall T, T ∈ get_valid_tiles_for_position a neighbors <->
             T ∈ get_enabled_tile_ids a /\
             forall side n, (side, Some n) ∈ neighbors ->
                            has_rule (rules a0) n (opposite side) T) /\
  (forall (e : WFCEngine.t) x y,
     neighbors = (fun '(nx, ny, side) =>
                    (side, WFCEngine.cells e !! (nx, ny) ≫= CellState.collapsed_tile))
                 <$> WFCEngine._get_neighbors_with_sides e x y ->
     WFCEngine.valid_tiles a e x y ⊆ get_valid_tiles_for_position a neighbors).
Proof.
  cbv zeta. set (a := build_adjacency_lookup a0).
  assert (Hsub : get_valid_tiles_for_position a neighbors ⊆ get_enabled_tile_ids a).
  { intros T HT. unfold get_valid_tiles_for_position in HT. cbv zeta in HT.
    destruct (negb _); [exact HT|].
    apply elem_of_foldl_position in HT as [HT _]. exact HT. }
  split; [exact Hsub|]. split; [|split].
  - intros Hnone. unfold get_valid_tiles_for_position. cbv zeta.
    destruct (existsb truthy (snd <$> neighbors)) eqn:E; [|reflexivity].
    exfalso. apply existsb_truthy in E as (side & n & Hin & Hn).
    destruct (Hnone side (Some n) Hin) as [H|H]; congruence.
  - intros Hsome T. apply existsb_truthy in Hsome.
    unfold get_valid_tiles_for_position. cbv zeta. rewrite Hsome. simpl.
    rewrite elem_of_foldl_position. split; intros [HT Hall]; (split; [exact HT|]);
      intros side n Hin.
    + apply get_valid_neighbors_built, elem_of_dom. apply Hall. exact Hin.
    + apply elem_of_dom, get_valid_neighbors_built. apply Hall. exact Hin.
  - intros e x y Hn T HT. apply elem_of_valid_tiles in HT as [Hen Hall].
    unfold get_valid_tiles_for_position. cbv zeta.
    destruct (negb _); [exact Hen|].
    apply elem_of_foldl_position. split; [exact Hen|].
    intros side n Hin. rewrite Hn in Hin.
    apply list_elem_of_fmap in Hin as ([[nx ny] side'] & Heq & Hin).
    injection Heq as -> Hcol.
    destruct (WFCEngine.cells e !! (nx, ny)) as [nb|] eqn:Hnb; [|discriminate].
    simpl in Hcol. exact (proj1 (Hall nx ny side' nb n Hin Hnb (eq_sym Hcol))).
Qed.

Lemma get_valid_tiles_for_position_spec_witness :
  get_valid_tiles_for_position atlas_S5 [(left, Some "")] = get_enabled_tile_ids atlas_S5 /\
  get_valid_tiles_for_position atlas_S5 [(left, Some "Y")] = ∅.
Proof.
  split.
  - apply (proj1 (proj2 (get_valid_tiles_for_position_spec atlas_S5_raw [(left, Some "")]))).
    intros side v Hin. apply list_elem_of_singleton in Hin. injection Hin as -> ->.
    right. reflexivity.
  - vm_compute. reflexivity.
Defined.

End ValidTilesForPosition.

(** ** The grid state of a tile map *)

Section GridStateCells.

Import GridState.

Lemma is_complete_true (g : t) :
  is_complete g = true <->
  forall x y, 0 <= x < width g -> 0 <= y < height g ->
    exists cell, get_cell g x y = Some cell /\ is_Some (CellData.tile_id cell).
Proof.
  unfold is_complete. rewrite forallb_forall. split.
  - intros H x y Hx Hy.
    specialize (H (x, y)). simpl in H.
    destruct (get_cell g x y) as [cell|].
    + exists cell. split; [reflexivity|].
      destruct (CellData.tile_id cell); [eauto|]. exfalso.
      assert (false = true); [|discriminate].
      apply H. apply list_elem_of_In. apply (elem_of_positions (width g) (height g)). auto.
    + exfalso. assert (false = true); [|discriminate].
      apply H. apply list_elem_of_In. apply (elem_of_positions (width g) (height g)). auto.
  - intros H [x y] Hin. apply list_elem_of_In in Hin.
    apply (elem_of_positions (width g) (height g)) in Hin as [Hx Hy].
    destruct (H x y Hx Hy) as (cell & -> & [tile ->]). reflexivity.
Qed.

(** X25: in a [GridState], [set_cell] inside the bounds stores a cell
    with the given tile and lock and no possibilities, which [get_cell]
    then returns, and leaves the other positions as they are; outside
    the bounds [set_cell] changes nothing and [get_cell] returns
    nothing.  [is_complete] holds exactly when every position inside the
    bounds has a cell with a tile, so it holds of a grid without
    positions and fails after [clear_cell] at a position inside the
    bounds. *)
Theorem grid_state_cells (g : t) (x y : Z) (tile_id : option string) (locked : bool) :
  (0 <= x < width g /\ 0 <= y < height g ->
   get_cell (set_cell g x y tile_id locked) x y =
     Some (CellData.Build x y tile_id locked ∅) /\
   is_complete (clear_cell g x y) = false) /\
  (forall x' y', (x', y') <> (x, y) ->
     get_cell (set_cell g x y tile_id locked) x' y' = get_cell g x' y') /\
  (~ (0 <= x < width g /\ 0 <= y < height g) ->
   set_cell g x y tile_id locked = g /\ get_cell g x y = None) /\
  (is_complete g = true <->
   forall x' y', 0 <= x' < width g -> 0 <= y' < height g ->
     exists cell, get_cell g x' y' = Some cell /\ is_Some (CellData.tile_id cell)) /\
  (width g <= 0 \/ height g <= 0 -> is_complete g = true).
Proof.
  split; [|split; [|split; [|split]]].
  - intros Hb. split.
    + unfold set_cell. rewrite decide_True by exact Hb.
      unfold get_cell. simpl. rewrite decide_True by exact Hb. apply lookup_insert_eq.
    + apply not_true_is_false. intros Hcomplete.
      destruct (proj1 (is_complete_true _) Hcomplete x y) as (cell & Hcell & [tile Htile]).
      * unfold clear_cell. destruct (cells g !! (x, y)); simpl; tauto.
      * unfold clear_cell. destruct (cells g !! (x, y)); simpl; tauto.
      * unfold get_cell, clear_cell in Hcell.
        destruct (cells g !! (x, y)) as [c|] eqn:Hc; simpl in Hcell;
          destruct (decide _); try discriminate.
        -- rewrite lookup_insert_eq in Hcell. injection Hcell as <-. discriminate Htile.
        -- congruence.
  - intros x' y' Hne. unfold set_cell. destruct (decide _); [|reflexivity].
    unfold get_cell. simpl. destruct (decide _); [|reflexivity].
    apply lookup_insert_ne. congruence.
  - intros Hout. unfold set_cell, get_cell. rewrite !decide_False by exact Hout. auto.
  - apply is_complete_true.
  - intros Hempty. apply is_complete_true. intros x' y' Hx Hy. lia.
Qed.

Lemma grid_state_cells_witness :
  get_cell (set_cell (Build 2 1 "" ∅) 1 0 (Some "X") true) 1 0 =
    Some (CellData.Build 1 0 (Some "X") true ∅).
Proof.
  apply (proj1 (grid_state_cells (Build 2 1 "" ∅) 1 0 (Some "X") true)).
  simpl. lia.
Defined.

End GridStateCells.

(** ** Rotation and flips of a side *)

Section SideMaps.

Lemma rotate_side_cases (s : Side) (d k : Z) :
  d mod 360 = k -> rotate_side s d = rotate_side s k.
Proof.
  intros <-. unfold rotate_side. cbv zeta. rewrite Z.mod_mod by lia. reflexivity.
Qed.

(** X26: [rotate_side] raises ValueError exactly when the degrees are
    not a multiple of 90, and depends on them modulo 360 only; for
    multiples of 90, rotating twice is rotating by the sum, rotating
    back gives the side again, and a flip on x turns a rotation into
    the rotation the other way.  Rotation by 180 is
    [get_opposite_side], which is both flips, is what the viewer's
    [Rule.opposite_side] and the engine use as the opposite, and is its
    own inverse. *)
Theorem rotate_side_laws (s : Side) (d1 d2 : Z) :
  (rotate_side s d1 = Raise ValueError <-> d1 mod 90 <> 0) /\
  rotate_side s (d1 + 360) = rotate_side s d1 /\
  (d1 mod 90 = 0 -> d2 mod 90 = 0 ->
   (x <-! rotate_side s d1 ;; rotate_side x d2) = rotate_side s (d1 + d2) /\
   (x <-! rotate_side s d1 ;; rotate_side x (- d1)) = Ok s /\
   rotate_side (flip_side s axis_x) d1 =
     (x <-! rotate_side s (- d1) ;; Ok (flip_side x axis_x))) /\
  rotate_side s 180 = Ok (get_opposite_side s) /\
  get_opposite_side s = flip_side (flip_side s axis_x) axis_y /\
  (forall tile neighbor weight auto,
     Rule.opposite_side (Rule.Build tile s neighbor weight auto) = get_opposite_side s) /\
  opposite s = get_opposite_side s /\
  get_opposite_side (get_opposite_side s) = s.
Proof.
  split; [|split; [|split; [|split; [|split; [|split; [|split]]]]]].
  - split.
    + intros Hraise Hmod.
      destruct (mod_90_cases d1 Hmod) as [H|[H|[H|H]]];
        rewrite (rotate_side_cases s d1 _ H) in Hraise; discriminate Hraise.
    + intros Hmod. destruct (mod_360_not_90 d1 Hmod) as (H0 & H90 & H180 & H270).
      unfold rotate_side, _ROTATION_MAP. cbv zeta.
      rewrite (proj2 (Z.eqb_neq _ _) H0), (proj2 (Z.eqb_neq _ _) H90),
        (proj2 (Z.eqb_neq _ _) H180), (proj2 (Z.eqb_neq _ _) H270). reflexivity.
  - transitivity (rotate_side s (d1 mod 360)).
    + apply rotate_side_cases. Z.div_mod_to_equations. lia.
    + symmetry. apply rotate_side_cases. reflexivity.
  - intros Hd1 Hd2.
    pose proof (mod_90_cases d1 Hd1) as C1. pose proof (mod_90_cases d2 Hd2) as C2.
    assert (Hneg : (- d1) mod 360 = (360 - d1 mod 360) mod 360)
      by (Z.div_mod_to_equations; lia).
    unfold rotate_side. cbv zeta.
    rewrite (Z.add_mod d1 d2 360) by lia. rewrite Hneg. clear Hneg.
    revert C1 C2. generalize (d1 mod 360), (d2 mod 360).
    intros k1 k2 [-> | [-> | [-> | ->]]] [-> | [-> | [-> | ->]]];
      destruct s; repeat split; reflexivity.
  - destruct s; reflexivity.
  - destruct s; reflexivity.
  - intros tile neighbor weight auto. reflexivity.
  - destruct s; reflexivity.
  - destruct s; reflexivity.
Qed.

Lemma rotate_side_laws_witness :
  (x <-! rotate_side top 270 ;; rotate_side x (-90)) = rotate_side top 180.
Proof.
  apply (proj1 (proj1 (proj2 (proj2 (rotate_side_laws top 270 (-90)))) eq_refl eq_refl)).
Defined.

End SideMaps.
